(** * Honeycomb word search: a shallow embedding of [honeycomb_trie.c]

    The program reads a hexagonal grid of letters ("honeycomb") and a
    dictionary, stores the dictionary in a 26-ary trie and searches the grid
    depth first, walking the trie in lockstep.  This file embeds the C
    functions as Rocq functions and proves properties of them.

    Conventions of the embedding.
    - C [int] values are integers of [Z]; the sizes involved stay far below
      the range of [int], so no wrap-around occurs.
    - A [char] is an [ascii]; a [malloc]ed character array is a [buffer], a
      list of cells each of which is either indeterminate or holds a char.
    - Undefined behaviour and process exit are explicit: every function that
      can fault returns a [result], either [Done v] or [Fault f].
    - The trie is a tree owned by its root: a node is modelled by a value,
      and a function that mutates nodes through pointers returns the updated
      node to its caller, who puts it back in the slot it came from.
    - Recursion that is not structural takes a [fuel] argument and returns
      [Fault OutOfFuel] when it is exhausted. *)

From Stdlib Require Import ZArith Ascii Lia.
From stdpp Require Import base list numbers strings sorting.

Local Open Scope Z_scope.
Set Warnings "-register-all".

(** ** Results of fallible code *)

Inductive fault : Type :=
  | OutOfFuel      (* the model ran out of fuel; not a behaviour of the code *)
  | ChildIndex     (* access outside the 26-entry child array of a trie node *)
  | GridAccess     (* access outside hc->columns, or through a NULL column *)
  | BufferAccess   (* access outside a character array, or read of an
                      indeterminate char *)
  | WordOverflow   (* more than WORD_SIZE chars written to the word buffer *)
  | ExitFailure.   (* exit(1) *)

Inductive result (A : Type) : Type :=
  | Done (a : A)
  | Fault (f : fault).
Arguments Done {A} a.
Arguments Fault {A} f.

Definition bind {A B : Type} (m : result A) (k : A → result B) : result B :=
  match m with
  | Done a => k a
  | Fault f => Fault f
  end.

Notation "'let*' x := m 'in' k" := (bind m (fun x => k))
  (at level 10, x name, m at level 100, k at level 200).
Notation "'let*' ' p := m 'in' k" := (bind m (fun x => let 'p := x in k))
  (at level 10, p pattern, m at level 100, k at level 200).

(** [for] over a fixed list of index values, threading the state. *)
Fixpoint for_each {A St : Type} (xs : list A) (body : A → St → result St)
    (s : St) : result St :=
  match xs with
  | [] => Done s
  | x :: xs' => let* s' := body x s in for_each xs' body s'
  end.

(** [for (j = j0; j < bound; j++) body], the bound being an expression that
    is evaluated again before every iteration. *)
Fixpoint for_upto {St : Type} (fuel : nat) (j : Z) (bound : St → result Z)
    (body : Z → St → result St) (s : St) : result St :=
  match fuel with
  | O => Fault OutOfFuel
  | S fuel' =>
      let* n := bound s in
      if j <? n then let* s' := body j s in for_upto fuel' (j + 1) bound body s'
      else Done s
  end.

(** [wp m Q F]: [m] ends in a value that satisfies [Q], or in a fault that
    satisfies [F]. *)
Definition wp {A : Type} (m : result A) (Q : A → Prop) (F : fault → Prop)
  : Prop :=
  match m with
  | Done a => Q a
  | Fault f => F f
  end.

(** ** Characters *)

Definition ALPHABET_SIZE : Z := 26.
Definition WORD_SIZE : Z := 1024.

(** Conversion of a [char] to [int]; [char] is signed here, as with gcc on
    x86.  With an unsigned [char] the values from 128 on differ, and are
    outside 'A'..'Z' either way. *)
Definition int_of_char (c : ascii) : Z :=
  let n := Z.of_nat (nat_of_ascii c) in
  if n <? 128 then n else n - 256.

Definition CHAR_TO_INDEX (c : ascii) : Z :=
  int_of_char c - int_of_char "A"%char.

Definition NUL : ascii := "000"%char.
Definition newline : ascii := "010"%char.
Definition is_NUL (c : ascii) : bool := bool_decide (c = NUL).

(** The characters 'A'..'Z'. *)
Definition is_upper (c : ascii) : bool :=
  (65 <=? Z.of_nat (nat_of_ascii c)) && (Z.of_nat (nat_of_ascii c) <=? 90).

(** ** Character arrays *)

Abbreviation buffer := (list (option ascii)).

Definition malloc (n : Z) : buffer := replicate (Z.to_nat n) None.

Definition buf_read (b : buffer) (i : Z) : result ascii :=
  if i <? 0 then Fault BufferAccess
  else match b !! Z.to_nat i with
       | Some (Some c) => Done c
       | _ => Fault BufferAccess
       end.

Definition buf_write (b : buffer) (i : Z) (c : ascii) : result buffer :=
  if (0 <=? i) && (i <? Z.of_nat (length b))
  then Done (<[Z.to_nat i := Some c]> b)
  else Fault BufferAccess.

Fixpoint strlen (b : buffer) : result Z :=
  match b with
  | Some c :: b' =>
      if is_NUL c then Done 0 else let* n := strlen b' in Done (1 + n)
  | _ => Fault BufferAccess
  end.

(** [strncpy(dst + d, src + s, n)]: copies chars up to and including a NUL,
    then pads with NUL up to [n] chars. *)
Fixpoint strncpy_pad (dst : buffer) (d : Z) (n : nat) : result buffer :=
  match n with
  | O => Done dst
  | S n' => let* dst' := buf_write dst d NUL in strncpy_pad dst' (d + 1) n'
  end.

Fixpoint strncpy (dst : buffer) (d : Z) (src : buffer) (s : Z) (n : nat)
  : result buffer :=
  match n with
  | O => Done dst
  | S n' =>
      let* c := buf_read src s in
      if is_NUL c then strncpy_pad dst d n
      else let* dst' := buf_write dst d c in strncpy dst' (d + 1) src (s + 1) n'
  end.

(** ** Trie *)

Inductive trie_node : Type :=
  Node { is_end : bool; next : list (option trie_node) }.

Definition get_trienode : trie_node :=
  Node false (replicate (Z.to_nat ALPHABET_SIZE) None).

(** [node->next[index]] as an rvalue: the outer result is the array access,
    the inner option the pointer found there. *)
Definition child_slot (node : trie_node) (index : Z)
  : result (option trie_node) :=
  if index <? 0 then Fault ChildIndex
  else match next node !! Z.to_nat index with
       | Some slot => Done slot
       | None => Fault ChildIndex
       end.

(** The node after [node->next[index]] has been made to point to [child],
    or after the node it points to has been updated to [child]. *)
Definition set_child (node : trie_node) (index : Z) (child : trie_node)
  : trie_node :=
  Node (is_end node) (<[Z.to_nat index := Some child]> (next node)).

Definition set_end (node : trie_node) (b : bool) : trie_node :=
  Node b (next node).

Fixpoint insert_trie (root : trie_node) (key : list ascii)
  : result trie_node :=
  match key with
  | [] => Done (set_end root true)
  | c :: key' =>
      let index := CHAR_TO_INDEX c in
      let* slot := child_slot root index in
      let child := match slot with
                   | Some n => n
                   | None => get_trienode
                   end in
      let* child' := insert_trie child key' in
      Done (set_child root index child')
  end.

(** [fgets(word, size, fp)]: at most [size - 1] chars, up to and including
    a newline; [None] stands for the NULL returned at end of file. *)
Fixpoint fgets_chars (n : nat) (fp : list ascii) : list ascii * list ascii :=
  match n, fp with
  | S n', c :: fp' =>
      if bool_decide (c = newline) then ([c], fp')
      else let '(l, r) := fgets_chars n' fp' in (c :: l, r)
  | _, _ => ([], fp)
  end.

Definition fgets (size : Z) (fp : list ascii)
  : option (list ascii * list ascii) :=
  match fp with
  | [] => None
  | _ => Some (fgets_chars (Z.to_nat (size - 1)) fp)
  end.

(** The string held by an array whose chars are [l] followed by a NUL. *)
Fixpoint c_string (l : list ascii) : list ascii :=
  match l with
  | [] => []
  | c :: l' => if is_NUL c then [] else c :: c_string l'
  end.

(** [word[strlen(word) - 1] = '\0'] on a string. *)
Definition chop (word : list ascii) : result (list ascii) :=
  match word with
  | [] => Fault BufferAccess
  | _ => Done (removelast word)
  end.

Fixpoint fill_trie (fuel : nat) (root : trie_node) (fp : list ascii)
  : result trie_node :=
  match fuel with
  | O => Fault OutOfFuel
  | S fuel' =>
      match fgets WORD_SIZE fp with
      | None => Done root
      | Some (line, fp') =>
          let* word := chop (c_string line) in
          let* root' := insert_trie root word in
          fill_trie fuel' root' fp'
      end
  end.

(** Descent from [node] along the symbols of [key], each step being
    [node->next[CHAR_TO_INDEX(c)]]; [Done None] when a NULL child is met. *)
Fixpoint walk (node : trie_node) (key : list ascii)
  : result (option trie_node) :=
  match key with
  | [] => Done (Some node)
  | c :: key' =>
      let* slot := child_slot node (CHAR_TO_INDEX c) in
      match slot with
      | Some child => walk child key'
      | None => Done None
      end
  end.

(** The trie after a list of keys has been inserted, first to last. *)
Definition insert_words (root : trie_node) (keys : list (list ascii))
  : result trie_node :=
  for_each keys (λ key t, insert_trie t key) root.

(** ** Honeycomb *)

(** [columns] is the calloc'ed array of column pointers; [None] is NULL. *)
Record honeycomb : Type :=
  { number_columns : Z; columns : list (option buffer) }.

(** An array of [char *]: read of the pointer at index [i], followed by a
    use of the array it points to, and assignment of a pointer. *)
Definition arr_read (a : list (option buffer)) (i : Z) : result buffer :=
  if i <? 0 then Fault GridAccess
  else match a !! Z.to_nat i with
       | Some (Some b) => Done b
       | _ => Fault GridAccess
       end.

Definition arr_write (a : list (option buffer)) (i : Z) (b : buffer)
  : result (list (option buffer)) :=
  if (0 <=? i) && (i <? Z.of_nat (length a))
  then Done (<[Z.to_nat i := Some b]> a)
  else Fault GridAccess.

Definition set_column (hc : honeycomb) (i : Z) (b : buffer)
  : result honeycomb :=
  let* cols := arr_write (columns hc) i b in
  Done {| number_columns := number_columns hc; columns := cols |}.

(** A negative count converts to a huge [size_t], for which [calloc]
    returns NULL; [2 * layers - 1] is never zero. *)
Definition create_honeycomb (layers : Z) : result honeycomb :=
  let n := 2 * layers - 1 in
  if 0 <? n
  then Done {| number_columns := n; columns := replicate (Z.to_nat n) None |}
  else Fault ExitFailure.

Definition isspace (c : ascii) : bool :=
  let n := Z.of_nat (nat_of_ascii c) in
  (n =? 32) || ((9 <=? n) && (n <=? 13)).

Fixpoint skip_space (fp : list ascii) : list ascii :=
  match fp with
  | c :: fp' => if isspace c then skip_space fp' else fp
  | [] => []
  end.

(** [fscanf(fp, " %c", b + i)], whose return value the code ignores: at end
    of file nothing is stored. *)
Definition fscanf_char (b : buffer) (i : Z) (fp : list ascii)
  : result (buffer * list ascii) :=
  match skip_space fp with
  | [] => Done (b, [])
  | c :: fp' => let* b' := buf_write b i c in Done (b', fp')
  end.

(** Body of the loop over [i] in [hcomb_store]. *)
Definition hcomb_store_column (layers : list (option buffer))
    (num_layers : Z) (right : bool) (i : Z) (hc : honeycomb)
  : result honeycomb :=
  let column_len := 2 * num_layers - i in
  let column := malloc (column_len + 1) in
  let* column := buf_write column column_len NUL in
  let* layer_i := arr_read layers i in
  let* column :=
    strncpy column (num_layers - i - 1) layer_i i (Z.to_nat (i + 2)) in
  let* column :=
    for_each (reverse (seqZ (i + 1) (num_layers - 1 - i)))
      (λ j column,
        let* layer_j := arr_read layers j in
        let* column := strncpy column (num_layers - j - 1) layer_j i 1 in
        strncpy column (num_layers - i + j) layer_j (- i + 3 * j + 1) 1)
      column in
  if right then set_column hc (num_layers + i + 1) column
  else set_column hc (num_layers - i - 1) column.

Definition hcomb_store (hc : honeycomb) (layers : list (option buffer))
    (num_layers : Z) (right : bool) : result honeycomb :=
  for_each (reverse (seqZ 0 num_layers))
    (hcomb_store_column layers num_layers right) hc.

(** Body of the loop over [i] in [fill_honeycomb]: reads ring [i]. *)
Definition fill_honeycomb_layer (layers : Z) (i : Z)
    (st : buffer * list (option buffer) * list (option buffer) * list ascii)
  : result
      (buffer * list (option buffer) * list (option buffer) * list ascii) :=
  let '(center, rightlayers, leftlayers, fp) := st in
  let halflayerlen := 2 + (i - 1) * 3 in
  let right := malloc (halflayerlen + 1) in
  let left := malloc (halflayerlen + 1) in
  let* '(center, fp) := fscanf_char center (layers - 1 + i) fp in
  let* '(right, fp) :=
    for_each (reverse (seqZ 0 halflayerlen))
      (λ j '(right, fp), fscanf_char right j fp) (right, fp) in
  let* right := buf_write right halflayerlen NUL in
  let* rightlayers := arr_write rightlayers (i - 1) right in
  let* '(center, fp) := fscanf_char center (layers - 1 - i) fp in
  let* '(left, fp) :=
    for_each (seqZ 0 halflayerlen)
      (λ k '(left, fp), fscanf_char left k fp) (left, fp) in
  let* left := buf_write left halflayerlen NUL in
  let* leftlayers := arr_write leftlayers (i - 1) left in
  Done (center, rightlayers, leftlayers, fp).

Definition fill_honeycomb (hc : honeycomb) (fp : list ascii) (layers : Z)
  : result (honeycomb * list ascii) :=
  let center := malloc (2 * layers) in
  let* '(center, fp) := fscanf_char center (layers - 1) fp in
  let* center := buf_write center (2 * layers - 1) NUL in
  let* '(hc, center, fp) :=
    if 1 <? layers then
      let rightlayers := replicate (Z.to_nat (layers - 1)) None in
      let leftlayers := replicate (Z.to_nat (layers - 1)) None in
      let* '(center, rightlayers, leftlayers, fp) :=
        for_each (seqZ 1 (layers - 1)) (fill_honeycomb_layer layers)
          (center, rightlayers, leftlayers, fp) in
      let* hc := hcomb_store hc leftlayers (layers - 1) false in
      let* hc := hcomb_store hc rightlayers (layers - 1) true in
      Done (hc, center, fp)
    else Done (hc, center, fp) in
  let* hc := set_column hc (layers - 1) center in
  Done (hc, fp).

(** The two calls of [main] that build the honeycomb. *)
Definition build_honeycomb (layers : Z) (fp : list ascii)
  : result (honeycomb * list ascii) :=
  let* hc := create_honeycomb layers in
  fill_honeycomb hc fp layers.

(** ** Search *)

(** The words found, oldest first.  The struct keeps their number in
    [size] next to the array [words]; [create_store] makes both empty and
    the search grows both by one word at a time, so that the list of the
    words stands for the struct, [size] being its length. *)
Abbreviation word_store := (list (list ascii)).

Definition create_store : word_store := [].

(** [column < 0 || label < 0 || column >= hc->number_columns ||
     label >= strlen(hc->columns[column]) ||
     hc->columns[column][label] == '-'], evaluated left to right. *)
Definition cell_blocked (hc : honeycomb) (column label : Z) : result bool :=
  if (column <? 0) || (label <? 0) || (number_columns hc <=? column)
  then Done true
  else
    let* col := arr_read (columns hc) column in
    let* len := strlen col in
    if len <=? label then Done true
    else let* c := buf_read col label in Done (bool_decide (c = "-"%char)).

(** [hc->columns[column][label]] as an rvalue and as an lvalue. *)
Definition get_cell (hc : honeycomb) (column label : Z) : result ascii :=
  let* col := arr_read (columns hc) column in
  buf_read col label.

Definition set_cell (hc : honeycomb) (column label : Z) (c : ascii)
  : result honeycomb :=
  let* col := arr_read (columns hc) column in
  let* col' := buf_write col label c in
  set_column hc column col'.

(** [strncat(word, src, 1)] for the one char [c] found at [src]: a NUL is
    not appended; the new char and its terminator need room in the
    [WORD_SIZE] bytes of the word buffer. *)
Definition strncat1 (word : list ascii) (c : ascii) : result (list ascii) :=
  if is_NUL c then Done word
  else if Z.of_nat (length word) + 1 <? WORD_SIZE then Done (word ++ [c])
  else Fault WordOverflow.

Abbreviation search_state :=
  (honeycomb * trie_node * word_store * list ascii)%type.

Fixpoint find_words_trie (fuel : nat) (hc : honeycomb) (node : trie_node)
    (store : word_store) (word : list ascii) (column label : Z)
  : result search_state :=
  match fuel with
  | O => Fault OutOfFuel
  | S fuel' =>
      let* blocked := cell_blocked hc column label in
      if blocked && negb (Z.of_nat (length word) =? 0)
      then Done (hc, node, store, word)
      else
        let* c := get_cell hc column label in
        let* word := strncat1 word c in
        let* c := get_cell hc column label in
        let index := CHAR_TO_INDEX c in
        let* slot := child_slot node index in
        match slot with
        | Some next_node =>
            let '(store, next_node) :=
              if is_end next_node
              then (store ++ [word], set_end next_node false)
              else (store, next_node) in
            let* save := get_cell hc column label in
            let* hc := set_cell hc column label "-"%char in
            let* '(hc, next_node, store, word) :=
              for_each [-1; 0; 1] (λ i st,
                for_each [-1; 0; 1] (λ j '(hc, next_node, store, word),
                  if negb ((column + i =? column) && (label + j =? label))
                  then find_words_trie fuel' hc next_node store word
                         (column + i) (label + j)
                  else Done (hc, next_node, store, word)) st)
                (hc, next_node, store, word) in
            let* hc := set_cell hc column label save in
            let* word := chop word in
            Done (hc, set_child node index next_node, store, word)
        | None =>
            let* word := chop word in
            Done (hc, node, store, word)
        end
  end.

(** The word buffer is reset by [word[0] = '\0'] before every call, and
    freed at the end. *)
Definition find_words (fuel : nat) (hc : honeycomb) (root : trie_node)
    (store : word_store) : result (honeycomb * trie_node * word_store) :=
  for_upto fuel 0 (λ '(hc, _, _), Done (number_columns hc))
    (λ i st,
      for_upto fuel 0
        (λ '(hc, _, _), let* col := arr_read (columns hc) i in strlen col)
        (λ j '(hc, root, store),
          let* '(hc, root, store, _) :=
            find_words_trie fuel hc root store [] i j in
          Done (hc, root, store))
        st)
    (hc, root, store).

(** *** The search with the coordinates of its active calls

    [find_words_trie_path] is [find_words_trie] with one more argument, the
    coordinates at which the active calls above this one appended their
    char (outermost first), and with a store whose entries keep, next to
    the word, the coordinates at which the chars of the word were
    appended.  [find_words_path_erase] shows that dropping the coordinates
    gives [find_words] back. *)

Abbreviation coord := (Z * Z)%type.
Abbreviation path_store := (list (list ascii * list coord)).

Fixpoint find_words_trie_path (fuel : nat) (hc : honeycomb) (node : trie_node)
    (store : path_store) (word : list ascii) (path : list coord)
    (column label : Z)
  : result (honeycomb * trie_node * path_store * list ascii) :=
  match fuel with
  | O => Fault OutOfFuel
  | S fuel' =>
      let* blocked := cell_blocked hc column label in
      if blocked && negb (Z.of_nat (length word) =? 0)
      then Done (hc, node, store, word)
      else
        let* c := get_cell hc column label in
        let* word := strncat1 word c in
        let path := path ++ [(column, label)] in
        let* c := get_cell hc column label in
        let index := CHAR_TO_INDEX c in
        let* slot := child_slot node index in
        match slot with
        | Some next_node =>
            let '(store, next_node) :=
              if is_end next_node
              then (store ++ [(word, path)], set_end next_node false)
              else (store, next_node) in
            let* save := get_cell hc column label in
            let* hc := set_cell hc column label "-"%char in
            let* '(hc, next_node, store, word) :=
              for_each [-1; 0; 1] (λ i st,
                for_each [-1; 0; 1] (λ j '(hc, next_node, store, word),
                  if negb ((column + i =? column) && (label + j =? label))
                  then find_words_trie_path fuel' hc next_node store word
                         path (column + i) (label + j)
                  else Done (hc, next_node, store, word)) st)
                (hc, next_node, store, word) in
            let* hc := set_cell hc column label save in
            let* word := chop word in
            Done (hc, set_child node index next_node, store, word)
        | None =>
            let* word := chop word in
            Done (hc, node, store, word)
        end
  end.

Definition find_words_path (fuel : nat) (hc : honeycomb) (root : trie_node)
    (store : path_store) : result (honeycomb * trie_node * path_store) :=
  for_upto fuel 0 (λ '(hc, _, _), Done (number_columns hc))
    (λ i st,
      for_upto fuel 0
        (λ '(hc, _, _), let* col := arr_read (columns hc) i in strlen col)
        (λ j '(hc, root, store),
          let* '(hc, root, store, _) :=
            find_words_trie_path fuel hc root store [] [] i j in
          Done (hc, root, store))
        st)
    (hc, root, store).

(** ** Output *)

(** A [char] as [unsigned char]. *)
Definition uchar (c : ascii) : Z := Z.of_nat (nat_of_ascii c).

(** [strcmp] on the strings of two arrays: the chars are compared as
    [unsigned char], up to the first difference or to the NUL that ends both
    strings; a list stands for the chars before that NUL.  The value is the
    difference of the two chars that differ; the C standard fixes only its
    sign, and the code uses only the sign. *)
Fixpoint strcmp (s1 s2 : list ascii) : Z :=
  match s1, s2 with
  | [], [] => 0
  | [], c2 :: _ => 0 - uchar c2
  | c1 :: _, [] => uchar c1 - 0
  | c1 :: s1', c2 :: s2' =>
      if uchar c1 =? uchar c2
      then if uchar c1 =? 0 then 0 else strcmp s1' s2'
      else uchar c1 - uchar c2
  end.

(** The arguments point to two elements of the array [store->words]. *)
Definition comparator (word1 word2 : list ascii) : Z := strcmp word1 word2.

(** [qsort(base, n, size, compar)] on an array of strings: the array is
    rearranged into ascending order of [compar].  The C standard leaves the
    order of elements that compare equal open; two strings that compare
    equal under [strcmp] are the same string, so the strings of the array
    after the call are determined ([qsort_unique]), and a merge sort
    computes them. *)
Definition qsort (compar : list ascii → list ascii → Z)
    (base : list (list ascii)) : list (list ascii) :=
  @merge_sort _ (λ a b, compar a b ≤ 0) (λ a b, decide (compar a b ≤ 0)) base.

(** [printf("%s\n", word)] appends to the standard output. *)
Definition printf_line (out word : list ascii) : list ascii :=
  out ++ word ++ [newline].

(** The loop that prints [words[i]] for [i >= 1] when it differs from
    [words[i-1]]. *)
Fixpoint print_distinct (prev : list ascii) (words : list (list ascii))
    (out : list ascii) : list ascii :=
  match words with
  | [] => out
  | w :: words' =>
      print_distinct w words'
        (if negb (strcmp w prev =? 0) then printf_line out w else out)
  end.

(** The part of [main] that prints the store. *)
Definition print_store (store : word_store) : list ascii :=
  if Z.of_nat (length store) =? 0
  then printf_line [] (String.list_ascii_of_string "No words found.")
  else
    match qsort comparator store with
    | [] => []
    | w0 :: words => print_distinct w0 words (printf_line [] w0)
    end.

(** ** The program *)

(** The chars '0'..'9'. *)
Definition is_digit (c : ascii) : bool := (48 <=? uchar c) && (uchar c <=? 57).

(** The longest run of decimal digits, and its value after [acc]. *)
Fixpoint scan_digits (acc : Z) (fp : list ascii) : Z * list ascii :=
  match fp with
  | c :: fp' =>
      if is_digit c then scan_digits (10 * acc + (uchar c - 48)) fp'
      else (acc, fp)
  | [] => (acc, [])
  end.

(** [fscanf(fp, "%d", &n)]: white space is skipped, then an optional sign
    and the longest run of decimal digits are read; [None] when there is no
    digit, in which case nothing is stored.  Numerals outside the range of
    [int] are not modelled. *)
Definition fscanf_int (fp : list ascii) : option Z * list ascii :=
  let fp := skip_space fp in
  let '(negative, fp) :=
    match fp with
    | c :: fp' =>
        if bool_decide (c = "-"%char) then (true, fp')
        else if bool_decide (c = "+"%char) then (false, fp')
        else (false, fp)
    | [] => (false, [])
    end in
  match fp with
  | c :: _ =>
      if is_digit c
      then let '(n, rest) := scan_digits 0 fp in
           (Some (if negative then - n else n), rest)
      else (None, fp)
  | [] => (None, [])
  end.

(** [main]: [argc] and, for [argv[1]] and [argv[2]], the text of the file
    of that name, [None] when [fopen] returns NULL; [layers0] is the
    indeterminate value that [layers] has when [fscanf] stores nothing.
    The result is the text written to the standard output and the way the
    program ends: [Done 0] for the return from [main], [Fault ExitFailure]
    for [exit(1)], another fault for undefined behaviour.  The calls that
    free the honeycomb, the trie and the store at the end have no
    counterpart in this model, which has no heap. *)
Definition main (fuel : nat) (argc : Z)
    (honeycomb_txt dictionary_txt : option (list ascii)) (layers0 : Z)
  : list ascii * result Z :=
  if negb (argc =? 3)
  then (printf_line
          (printf_line []
             (String.list_ascii_of_string "Error: Insufficient arguments."))
          (String.list_ascii_of_string
             "Need two files (honeycomb.txt and dictionary.txt) as input."),
        Fault ExitFailure)
  else
    match honeycomb_txt with
    | None =>
        (printf_line []
           (String.list_ascii_of_string "Error: honeycomb.txt file missing."),
         Fault ExitFailure)
    | Some honeycomb_fp =>
        match dictionary_txt with
        | None =>
            (printf_line []
               (String.list_ascii_of_string
                  "Error: dictionary.txt file missing."),
             Fault ExitFailure)
        | Some dictionary_fp =>
            let '(scanned, honeycomb_fp) := fscanf_int honeycomb_fp in
            let layers := match scanned with Some n => n | None => layers0 end in
            match create_honeycomb layers with
            | Fault f =>
                (printf_line []
                   (String.list_ascii_of_string
                      "Error: Failed to allocate memory for Honeycomb."),
                 Fault f)
            | Done hc =>
                match
                  (let* '(hc, _) := fill_honeycomb hc honeycomb_fp layers in
                   let root := get_trienode in
                   let* root := fill_trie fuel root dictionary_fp in
                   let store := create_store in
                   let* '(_, _, store) := find_words fuel hc root store in
                   Done store)
                with
                | Done store => (print_store store, Done 0)
                | Fault f => ([], Fault f)
                end
            end
        end
    end.

(** ** Well-formed inputs *)

(** Every node of the trie has the [ALPHABET_SIZE] slots that
    [get_trienode] gives it. *)
Fixpoint trie_wf (t : trie_node) : bool :=
  match t with
  | Node _ ch =>
      (Z.of_nat (length ch) =? ALPHABET_SIZE)
      && forallb (λ o, match o with Some c => trie_wf c | None => true end) ch
  end.

(** Number of edges on the longest path from the node downwards. *)
Fixpoint trie_height (t : trie_node) : nat :=
  match t with
  | Node _ ch =>
      foldr (λ o h, match o with
                    | Some c => Nat.max (S (trie_height c)) h
                    | None => h
                    end) 0%nat ch
  end.

(** The symbols of a key are all in 'A'..'Z'. *)
Definition key_upper (key : list ascii) : bool := forallb is_upper key.

(** The string in a character array: the chars before the first NUL.
    [None] when the array has no NUL or an indeterminate char before it. *)
Fixpoint buffer_string (b : buffer) : option (list ascii) :=
  match b with
  | Some c :: b' =>
      if is_NUL c then Some []
      else match buffer_string b' with
           | Some s => Some (c :: s)
           | None => None
           end
  | _ => None
  end.

(** The strings of the columns of a honeycomb, when [number_columns] is the
    number of column pointers and every column holds a string. *)
Definition column_strings (hc : honeycomb) : option (list (list ascii)) :=
  if bool_decide (number_columns hc = Z.of_nat (length (columns hc)))
  then mapM (λ o, match o with
                  | Some b => buffer_string b
                  | None => None
                  end) (columns hc)
  else None.

(** The honeycomb is well formed: its columns have strings. *)
Definition hc_wf (hc : honeycomb) : bool :=
  match column_strings hc with Some _ => true | None => false end.

(** Every cell of the honeycomb holds a char in 'A'..'Z'. *)
Definition hc_upper (hc : honeycomb) : bool :=
  match column_strings hc with
  | Some cols => forallb (forallb is_upper) cols
  | None => false
  end.

(** The char of the cell (column, label), if it is a cell of the grid. *)
Definition cell_at (hc : honeycomb) (column label : Z) : option ascii :=
  match column_strings hc with
  | Some cols =>
      if (column <? 0) || (label <? 0) then None
      else match cols !! Z.to_nat column with
           | Some s => s !! Z.to_nat label
           | None => None
           end
  | None => None
  end.


(** A bound on the number of columns and on the length of every column. *)
Definition hc_extent (hc : honeycomb) : nat :=
  match column_strings hc with
  | Some cols => Nat.max (length cols) (max_list (map length cols))
  | None => 0
  end.

(** Two coordinates are hexagonal neighbours as the search takes them:
    column and label each differ by at most one, and not both by zero. *)
Definition adjacent (p q : coord) : Prop :=
  Z.abs (q.1 - p.1) ≤ 1 ∧ Z.abs (q.2 - p.2) ≤ 1 ∧ p ≠ q.

(** Each coordinate of the path is a neighbour of the one before it. *)
Fixpoint chain (path : list coord) : Prop :=
  match path with
  | p :: ((q :: _) as path') => adjacent p q ∧ chain path'
  | _ => True
  end.

(** ** Predicates of the statements and of the proofs *)

(** A key is a word of the trie when the descent along it ends in a node
    whose flag is set. *)
Definition terminal (t : trie_node) (key : list ascii) : Prop :=
  ∃ n, walk t key = Done (Some n) ∧ is_end n = true.

(** The symbols that successive [fscanf(fp, " %c", _)] calls read. *)
Fixpoint symbols (fp : list ascii) : list ascii :=
  match fp with
  | [] => []
  | c :: fp' => if isspace c then symbols fp' else c :: symbols fp'
  end.

(** Number of cells of a honeycomb of [layers] layers, which is also the
    number of symbols read before ring [layers]. *)
Definition cell_count (layers : Z) : Z := 3 * layers * (layers - 1) + 1.

(** Position [p] of the array holds a char other than NUL. *)
Definition inited (b : buffer) (p : Z) : Prop :=
  0 ≤ p ∧ ∃ c, b !! Z.to_nat p = Some (Some c) ∧ c ≠ NUL.

(** The array has [n + 1] chars: [n] chars other than NUL, then a NUL. *)
Definition is_string (b : buffer) (n : Z) : Prop :=
  0 ≤ n ∧ Z.of_nat (length b) = n + 1 ∧
  (∀ p, 0 ≤ p < n → inited b p) ∧
  b !! Z.to_nat n = Some (Some NUL).

(** The layers handed to [hcomb_store]: layer [q] is a string of
    [2 + 3 * q] chars. *)
Definition layers_ok (layers : list (option buffer)) (n : Z) : Prop :=
  ∀ q, 0 ≤ q < n →
    ∃ b, layers !! Z.to_nat q = Some (Some b) ∧ is_string b (2 + 3 * q).

(** Every cell holds a char in 'A'..'Z' or the mark '-'. *)
Definition cells_ok (hc : honeycomb) : Prop :=
  ∀ column label c, cell_at hc column label = Some c →
    is_upper c = true ∨ c = "-"%char.

(** [trie_height] of a node, from its slots. *)
Definition slots_height (ch : list (option trie_node)) : nat :=
  foldr (λ o h, match o with
                | Some c => Nat.max (S (trie_height c)) h
                | None => h
                end) 0%nat ch.

(** From trie [node] and store [store] the search has come to [node'] and
    [store'], the word buffer being [word] at the start: the words added are
    distinct extensions of [word] that [node] held and [node'] no longer
    holds, and no flag has been set. *)
Definition found (word : list ascii) (node : trie_node) (store : word_store)
    (node' : trie_node) (store' : word_store) : Prop :=
  ∃ new, store' = store ++ new ∧ NoDup new ∧
    (∀ w, w ∈ new → ∃ s, w = word ++ s ∧ terminal node s ∧ ¬ terminal node' s) ∧
    (∀ k, terminal node' k → terminal node k).

(** [path] is a walk on the grid [hc] that spells [word]: no coordinate
    occurs twice, each coordinate is a neighbour of the one before, and the
    chars of the word are those of the cells. *)
Definition spells (hc : honeycomb) (word : list ascii) (path : list coord)
  : Prop :=
  NoDup path ∧ chain path ∧
  Forall2 (λ c p, get_cell hc p.1 p.2 = Done c) word path.

(** Two computations end alike: both in values that [R] relates, or both
    in the same fault. *)
Definition sim {A B : Type} (R : A → B → Prop) (m1 : result A) (m2 : result B)
  : Prop :=
  match m1, m2 with
  | Done a, Done b => R a b
  | Fault f, Fault g => f = g
  | _, _ => False
  end.

(** The states of the two searches agree but for the coordinates. *)
Definition erased (store : word_store)
    (s1 : search_state)
    (s2 : honeycomb * trie_node * path_store * list ascii) : Prop :=
  let '(hc1, n1, st1, w1) := s1 in
  let '(hc2, n2, st2, w2) := s2 in
  hc1 = hc2 ∧ n1 = n2 ∧ st1 = store ++ map fst st2 ∧ w1 = w2.

(** [path] is a walk over cells of the grid [hc] that spells [word]: no
    coordinate occurs twice, each coordinate is a neighbour of the one
    before, and the chars of the word are those of the cells. *)
Definition traces (hc : honeycomb) (word : list ascii) (path : list coord)
  : Prop :=
  NoDup path ∧ chain path ∧
  Forall2 (λ c p, cell_at hc p.1 p.2 = Some c) word path.

(** Every word that [node] held is still held by [node'], or is, after
    [word], among the words [new] added to the store. *)
Definition kept_or_recorded (word : list ascii) (node : trie_node)
    (store : word_store) (node' : trie_node) (store' : word_store) : Prop :=
  ∃ new, store' = store ++ new ∧
    ∀ k, terminal node k → terminal node' k ∨ word ++ k ∈ new.

(** Every char of the array is NUL or one of [cs]. *)
Definition chars_from (cs : list ascii) (b : buffer) : Prop :=
  ∀ p c, b !! p = Some (Some c) → c = NUL ∨ c ∈ cs.

(** Every array of the array of pointers holds chars of [cs]. *)
Definition arrays_from (cs : list ascii) (a : list (option buffer)) : Prop :=
  ∀ i b, a !! i = Some (Some b) → chars_from cs b.

(** Two states of the loop over the rings that differ at most in the white
    space of the input left. *)
Abbreviation same_symbols :=
  (λ (s1 s2 : buffer * list (option buffer) * list (option buffer) * list ascii),
     s1.1 = s2.1 ∧ symbols s1.2 = symbols s2.2).

(** The nodes of a trie without their flags. *)
Fixpoint trie_shape (t : trie_node) : trie_node :=
  match t with
  | Node _ ch =>
      Node false
        (map (λ o, match o with
                   | Some c => Some (trie_shape c)
                   | None => None
                   end) ch)
  end.

(** The text of lines each ended by a newline. *)
Definition lines_text (lines : list (list ascii)) : list ascii :=
  concat (map (λ l, l ++ [newline]) lines).

(** The lines that [print_distinct] appends: the words that differ from
    the word before them. *)
Fixpoint distinct_lines (prev : list ascii) (words : list (list ascii))
  : list (list ascii) :=
  match words with
  | [] => []
  | w :: words' =>
      if negb (strcmp w prev =? 0) then w :: distinct_lines w words'
      else distinct_lines w words'
  end.

(** ** The place of a symbol in the grid *)

(** The ring of a cell: its distance from the centre cell, counted in
    cells. *)
Definition cell_ring (layers column label : Z) : Z :=
  let d := Z.abs (column - (layers - 1)) in
  Z.max d (Z.max (layers - 1 - label) (label - (layers - 1) + d)).

(** The place of a cell in its ring, counted from the upper-centre cell of
    the ring down the right side, through the lower-centre cell, and up the
    left side: the order in which the input gives the symbols of a ring. *)
Definition ring_offset (layers column label : Z) : Z :=
  let d := Z.abs (column - (layers - 1)) in
  let r := cell_ring layers column label in
  if column =? layers - 1
  then (if layers - 1 <? label then 0 else 3 * r)
  else if layers - 1 <? column
  then (if layers - 1 <? label then d
        else if label <? layers - 1 - d then 3 * r - d
        else d + (layers - 1 - label))
  else (if label <? layers - 1 - d then 3 * r + d
        else if layers - 1 <? label then 6 * r - d
        else 3 * r + d + (label - (layers - 1 - d))).

(** The number, from 0, of the input symbol that a cell holds. *)
Definition cell_symbol (layers column label : Z) : Z :=
  let r := cell_ring layers column label in
  if r =? 0 then 0 else cell_count r + ring_offset layers column label.

(** The symbols of the right and of the left half of ring [r] in the
    symbols [syms] of the input. *)
Definition ring_right (syms : list ascii) (r : Z) : list ascii :=
  take (Z.to_nat (3 * r - 1)) (drop (Z.to_nat (cell_count r + 1)) syms).

Definition ring_left (syms : list ascii) (r : Z) : list ascii :=
  take (Z.to_nat (3 * r - 1)) (drop (Z.to_nat (cell_count r + 3 * r + 1)) syms).

(** The layers handed to [hcomb_store] hold the strings [strs 0],
    [strs 1], ...; layer [q] has [2 + 3 * q] chars. *)
Definition layers_are (layers : list (option buffer)) (n : Z)
    (strs : Z → list ascii) : Prop :=
  ∀ q, 0 ≤ q < n →
    layers !! Z.to_nat q = Some (Some (map Some (strs q) ++ [Some NUL])) ∧
    Z.of_nat (length (strs q)) = 2 + 3 * q ∧ NUL ∉ strs q.

(** The char that [hcomb_store] puts at position [p] of column [i], counted
    from the centre, out of the strings of the layers. *)
Definition column_char (strs : Z → list ascii) (n i p : Z) : option ascii :=
  if p <? n - i - 1 then strs (n - p - 1) !! Z.to_nat i
  else if p <=? n then strs i !! Z.to_nat (p + 2 * i + 1 - n)
  else strs (p - (n - i)) !! Z.to_nat (3 * (p - (n - i)) + 1 - i).

(** The array holds column [i] of [hcomb_store]. *)
Definition column_is (strs : Z → list ascii) (n i : Z) (b : buffer) : Prop :=
  is_string b (2 * n - i) ∧
  ∀ p, 0 ≤ p < 2 * n - i →
    ∃ c, b !! Z.to_nat p = Some (Some c) ∧ column_char strs n i p = Some c.

(** ** Example inputs *)

(** The array that holds the string [s]. *)
Definition c_buffer (s : string) : buffer :=
  map Some (String.list_ascii_of_string s) ++ [Some NUL].

(** The honeycomb of two layers read from "A B CD E FG":
<<
        B
      G   C
        A
      F   D
        E
>> *)
Definition example_hc : honeycomb :=
  {| number_columns := 3;
     columns := [Some (c_buffer "FG"); Some (c_buffer "EAB");
                 Some (c_buffer "DC")] |}.

(** The honeycomb read from "A B Cd E FG", with a char outside 'A'..'Z'. *)
Definition example_hc_lower : honeycomb :=
  {| number_columns := 3;
     columns := [Some (c_buffer "FG"); Some (c_buffer "EAB");
                 Some (c_buffer "dC")] |}.

(** A dictionary; "BAB" and "FD" are not on the example honeycomb. *)
Definition example_keys : list (list ascii) :=
  map String.list_ascii_of_string
    ["AB"; "ABC"; "FEA"; "GAD"; "BAB"; "FD"]%string.

Definition example_trie : trie_node :=
  match insert_words get_trienode example_keys with
  | Done t => t
  | Fault _ => get_trienode
  end.

(** The trie whose only word is "A". *)
Definition example_trie_A : trie_node :=
  match insert_trie get_trienode ["A"%char] with
  | Done t => t
  | Fault _ => get_trienode
  end.

(** The input from which [example_hc] is read. *)
Definition example_input : list ascii :=
  String.list_ascii_of_string "A B CD E FG".

(** A dictionary file whose last line does not end in a newline. *)
Definition dict_CAT_DOG : list ascii :=
  String.list_ascii_of_string "CAT" ++ [newline]
  ++ String.list_ascii_of_string "DOG".

(** * Properties *)

(** ** Reasoning about results *)

Lemma wp_bind {A B : Type} (m : result A) (k : A → result B) Q F :
  wp m (λ a, wp (k a) Q F) F → wp (bind m k) Q F.
Proof. destruct m; simpl; auto. Qed.

Lemma wp_mono {A : Type} (m : result A) (Q Q' : A → Prop) (F F' : fault → Prop) :
  wp m Q F → (∀ a, Q a → Q' a) → (∀ f, F f → F' f) → wp m Q' F'.
Proof. destruct m; simpl; auto. Qed.

Lemma wp_and {A : Type} (m : result A) (Q Q' : A → Prop) (F F' : fault → Prop) :
  wp m Q F → wp m Q' F' → wp m (λ a, Q a ∧ Q' a) (λ f, F f ∧ F' f).
Proof. destruct m; simpl; auto. Qed.

Lemma wp_Done_inv {A : Type} (m : result A) Q F a :
  wp m Q F → m = Done a → Q a.
Proof. intros H ->. exact H. Qed.

Lemma wp_Fault_inv {A : Type} (m : result A) Q F f :
  wp m Q F → m = Fault f → F f.
Proof. intros H ->. exact H. Qed.

Lemma wp_for_each {A St : Type} (I : St → Prop) (F : fault → Prop)
    (xs : list A) (body : A → St → result St) (s : St) :
  I s →
  (∀ x s, x ∈ xs → I s → wp (body x s) I F) →
  wp (for_each xs body s) I F.
Proof.
  revert s. induction xs as [|x xs IH]; intros s Hs Hbody; simpl; [done|].
  apply wp_bind. eapply wp_mono; [apply Hbody; [left|done] | | done].
  intros s' Hs'. apply IH; [done|].
  intros y t Hy. apply Hbody. by right.
Qed.

Lemma wp_for_upto {St : Type} (I : St → Prop) (F : fault → Prop)
    (fuel : nat) (j : Z) (bound : St → result Z) (body : Z → St → result St)
    (s : St) :
  I s →
  F OutOfFuel →
  (∀ s, I s → wp (bound s) (λ _, True) F) →
  (∀ j s, I s → wp (body j s) I F) →
  wp (for_upto fuel j bound body s) I F.
Proof.
  intros Hs Hfuel Hbound Hbody. revert j s Hs.
  induction fuel as [|fuel IH]; intros j s Hs; simpl; [done|].
  apply wp_bind. eapply wp_mono; [by apply Hbound | | done].
  intros n _. destruct (j <? n); [|done].
  apply wp_bind. eapply wp_mono; [by apply Hbody | | done].
  intros s' Hs'. by apply IH.
Qed.

Lemma bind_Done {A B : Type} (m : result A) (k : A → result B) b :
  bind m k = Done b ↔ ∃ a, m = Done a ∧ k a = Done b.
Proof.
  destruct m; simpl; split.
  - eauto.
  - by intros (? & [= <-] & ?).
  - done.
  - by intros (? & ? & ?).
Qed.

Lemma wp_True {A : Type} (m : result A) : wp m (λ _, True) (λ _, True).
Proof. by destruct m. Qed.

Lemma wp_Done_ex {A : Type} (m : result A) (Q : A → Prop) :
  wp m Q (λ _, False) → ∃ a, m = Done a ∧ Q a.
Proof. destruct m; simpl; [eauto|done]. Qed.

(** *** Loops over ranges *)

(** [for (j = m; j < m + n; j++)] with an invariant indexed by [j]. *)
Lemma wp_for_seqZ {St : Type} (I : Z → St → Prop) (F : fault → Prop)
    (m : Z) (n : nat) (body : Z → St → result St) (s : St) :
  I m s →
  (∀ j s, m ≤ j < m + Z.of_nat n → I j s → wp (body j s) (I (j + 1)) F) →
  wp (for_each (seqZ m (Z.of_nat n)) body s) (I (m + Z.of_nat n)) F.
Proof.
  revert m s. induction n as [|n IH]; intros m s Hs Hbody.
  - simpl. by rewrite Z.add_0_r.
  - rewrite seqZ_cons by lia. cbn [for_each]. apply wp_bind.
    eapply wp_mono; [apply Hbody; [lia|done]| |done].
    intros s' Hs'. replace (Z.pred (Z.of_nat (S n))) with (Z.of_nat n) by lia.
    replace (m + Z.of_nat (S n)) with (Z.succ m + Z.of_nat n) by lia.
    apply IH; [by replace (Z.succ m) with (m + 1) by lia|].
    intros j t Hj. apply Hbody. lia.
Qed.

(** [for (j = m + n - 1; j >= m; j--)] with an invariant indexed by the
    lowest index already treated. *)
Lemma wp_for_seqZ_rev {St : Type} (I : Z → St → Prop) (F : fault → Prop)
    (m : Z) (n : nat) (body : Z → St → result St) (s : St) :
  I (m + Z.of_nat n) s →
  (∀ j s, m ≤ j < m + Z.of_nat n → I (j + 1) s → wp (body j s) (I j) F) →
  wp (for_each (reverse (seqZ m (Z.of_nat n))) body s) (I m) F.
Proof.
  revert s. induction n as [|n IH]; intros s Hs Hbody.
  - simpl. by rewrite Z.add_0_r in Hs.
  - rewrite seqZ_S, reverse_snoc. cbn [for_each]. apply wp_bind.
    eapply wp_mono; [apply Hbody; [lia|]| |done].
    + by replace (m + Z.of_nat n + 1) with (m + Z.of_nat (S n)) by lia.
    + intros s' Hs'. apply IH; [done|]. intros j t Hj. apply Hbody. lia.
Qed.

(** [for_upto] with a bound that the loop does not change and an invariant
    indexed by the loop variable; the fuel is enough, or running out of it
    is allowed. *)
Lemma wp_for_upto_idx {St : Type} (I : Z → St → Prop) (F : fault → Prop)
    (fuel : nat) (j : Z) (bound : St → result Z) (body : Z → St → result St)
    (s : St) (n : Z) :
  F OutOfFuel ∨ (Z.to_nat (n - j) < fuel)%nat →
  I j s →
  (∀ j s, I j s → bound s = Done n) →
  (∀ j s, I j s → j < n → wp (body j s) (I (j + 1)) F) →
  wp (for_upto fuel j bound body s) (λ s', ∃ j', I j' s' ∧ n ≤ j') F.
Proof.
  intros Hfuel Hs Hbound Hbody. revert j s Hfuel Hs.
  induction fuel as [|fuel IH]; intros j s Hfuel Hs; simpl.
  { destruct Hfuel; [done|lia]. }
  rewrite (Hbound j s Hs). cbn [bind].
  destruct (Z.ltb_spec j n) as [Hj|Hj]; [|simpl; eauto].
  apply wp_bind. eapply wp_mono; [by apply Hbody| |done].
  intros s' Hs'. apply IH; [|done]. destruct Hfuel; [by left|right; lia].
Qed.

(** Case analysis on the computation that the goal binds first. *)
Tactic Notation "wp_bind_case" ident(x) ident(H) :=
  apply wp_bind;
  lazymatch goal with
  | |- wp ?m _ _ => destruct m as [x|?] eqn:H; cbn [wp bind]; [|try done]
  end.

(** *** Computations that end alike *)

Lemma sim_bind {A B A' B' : Type} (R : A → B → Prop) (R' : A' → B' → Prop)
    (m1 : result A) (m2 : result B) (k1 : A → result A') (k2 : B → result B') :
  sim R m1 m2 → (∀ a b, R a b → sim R' (k1 a) (k2 b)) →
  sim R' (bind m1 k1) (bind m2 k2).
Proof. destruct m1, m2; simpl; auto; done. Qed.

Lemma sim_refl_bind {A A' B' : Type} (R' : A' → B' → Prop) (m : result A)
    (k1 : A → result A') (k2 : A → result B') :
  (∀ a, m = Done a → sim R' (k1 a) (k2 a)) → sim R' (bind m k1) (bind m k2).
Proof. destruct m; simpl; auto. Qed.

Lemma sim_for_each {X A B : Type} (R : A → B → Prop) (xs : list X)
    (body1 : X → A → result A) (body2 : X → B → result B) (a : A) (b : B) :
  R a b → (∀ x a b, R a b → sim R (body1 x a) (body2 x b)) →
  sim R (for_each xs body1 a) (for_each xs body2 b).
Proof.
  intros Hab Hbody. revert a b Hab.
  induction xs as [|x xs IH]; intros a b Hab; simpl; [done|].
  eapply sim_bind; [by apply Hbody|]. auto.
Qed.

Lemma sim_for_upto {A B : Type} (R : A → B → Prop) (fuel : nat) (j : Z)
    (bound1 : A → result Z) (bound2 : B → result Z)
    (body1 : Z → A → result A) (body2 : Z → B → result B) (a : A) (b : B) :
  R a b → (∀ a b, R a b → bound1 a = bound2 b) →
  (∀ j a b, R a b → sim R (body1 j a) (body2 j b)) →
  sim R (for_upto fuel j bound1 body1 a) (for_upto fuel j bound2 body2 b).
Proof.
  intros Hab Hbound Hbody. revert j a b Hab.
  induction fuel as [|fuel IH]; intros j a b Hab; simpl; [done|].
  rewrite (Hbound a b Hab). apply sim_refl_bind. intros n _.
  destruct (j <? n); [|done].
  eapply sim_bind; [by apply Hbody|]. auto.
Qed.

(** ** Characters and indices *)

Lemma nat_of_ascii_bound (c : ascii) : (0 ≤ Z.of_nat (nat_of_ascii c) < 256)%Z.
Proof. pose proof (nat_ascii_bounded c). lia. Qed.

Lemma int_of_char_A : int_of_char "A" = 65.
Proof. reflexivity. Qed.

Lemma CHAR_TO_INDEX_upper (c : ascii) :
  0 ≤ CHAR_TO_INDEX c < ALPHABET_SIZE ↔ is_upper c = true.
Proof.
  unfold CHAR_TO_INDEX. rewrite int_of_char_A.
  unfold int_of_char, is_upper, ALPHABET_SIZE.
  pose proof (nat_of_ascii_bound c) as Hc.
  rewrite andb_true_iff, !Z.leb_le.
  destruct (Z.ltb_spec (Z.of_nat (nat_of_ascii c)) 128); lia.
Qed.

Lemma CHAR_TO_INDEX_inj (c d : ascii) :
  CHAR_TO_INDEX c = CHAR_TO_INDEX d → c = d.
Proof.
  unfold CHAR_TO_INDEX. rewrite int_of_char_A. unfold int_of_char. intros H.
  pose proof (nat_of_ascii_bound c) as Hc.
  pose proof (nat_of_ascii_bound d) as Hd.
  assert (nat_of_ascii c = nat_of_ascii d) as E.
  { destruct (Z.ltb_spec (Z.of_nat (nat_of_ascii c)) 128);
      destruct (Z.ltb_spec (Z.of_nat (nat_of_ascii d)) 128); lia. }
  by rewrite <- (ascii_nat_embedding c), <- (ascii_nat_embedding d), E.
Qed.

(** ** Slots of a node *)

Lemma child_slot_Done (node : trie_node) (index : Z) slot :
  child_slot node index = Done slot ↔
  0 ≤ index ∧ next node !! Z.to_nat index = Some slot.
Proof.
  unfold child_slot. destruct (Z.ltb_spec index 0).
  - split; [done|lia].
  - destruct (next node !! Z.to_nat index); split.
    + by intros [= <-].
    + by intros [_ [= <-]].
    + done.
    + by intros [_ ?].
Qed.

Lemma child_slot_Fault (node : trie_node) (index : Z) f :
  child_slot node index = Fault f →
  f = ChildIndex ∧ ¬ (0 ≤ index < Z.of_nat (length (next node))).
Proof.
  unfold child_slot. destruct (Z.ltb_spec index 0).
  - intros [= <-]; split; [done|lia].
  - destruct (next node !! Z.to_nat index) eqn:E; [done|].
    intros [= <-]. split; [done|]. apply lookup_ge_None in E. lia.
Qed.

Lemma child_slot_in_range (node : trie_node) (index : Z) :
  0 ≤ index < Z.of_nat (length (next node)) →
  ∃ slot, child_slot node index = Done slot.
Proof.
  intros H. destruct (child_slot node index) eqn:E; [eauto|].
  apply child_slot_Fault in E. tauto.
Qed.

Lemma child_slot_set_child (node : trie_node) (index : Z) child slot :
  child_slot node index = Done slot →
  child_slot (set_child node index child) index = Done (Some child).
Proof.
  intros [H0 H]%child_slot_Done. apply child_slot_Done. split; [done|].
  simpl. apply list_lookup_insert_eq. by eapply lookup_lt_Some.
Qed.

Lemma child_slot_set_child_ne (node : trie_node) (i j : Z) child :
  0 ≤ i → i ≠ j →
  child_slot (set_child node i child) j = child_slot node j.
Proof.
  intros Hi Hne. unfold child_slot. destruct (Z.ltb_spec j 0); [done|].
  simpl. rewrite list_lookup_insert_ne; [done|lia].
Qed.

Lemma child_slot_set_end (node : trie_node) (b : bool) (i : Z) :
  child_slot (set_end node b) i = child_slot node i.
Proof. done. Qed.

Lemma set_child_set_child (node : trie_node) (i : Z) c c' :
  set_child (set_child node i c) i c' = set_child node i c'.
Proof. unfold set_child; simpl. by rewrite list_insert_insert_eq. Qed.

(** ** Well-formed tries *)

Lemma trie_wf_unfold (t : trie_node) :
  trie_wf t = true ↔
  Z.of_nat (length (next t)) = ALPHABET_SIZE ∧
  ∀ i c, next t !! i = Some (Some c) → trie_wf c = true.
Proof.
  destruct t as [b ch]; simpl.
  rewrite andb_true_iff, Z.eqb_eq, forallb_forall.
  split; intros [Hlen H]; (split; [done|]).
  - intros i c Hi. apply (H (Some c)), list_elem_of_In.
    by eapply list_elem_of_lookup_2.
  - intros [c|] Hc; [|done].
    apply list_elem_of_In, list_elem_of_lookup in Hc as [i Hi]. eauto.
Qed.

Lemma trie_wf_get_trienode : trie_wf get_trienode = true.
Proof. reflexivity. Qed.

Lemma trie_wf_set_end (t : trie_node) (b : bool) :
  trie_wf t = true → trie_wf (set_end t b) = true.
Proof. rewrite !trie_wf_unfold. done. Qed.

Lemma trie_wf_set_child (t : trie_node) (i : Z) (c : trie_node) :
  trie_wf t = true → trie_wf c = true → trie_wf (set_child t i c) = true.
Proof.
  rewrite !(trie_wf_unfold t), (trie_wf_unfold (set_child t i c)).
  intros [Hlen H] Hc; simpl. rewrite length_insert. split; [done|].
  intros j d Hj.
  destruct (decide (Z.to_nat i = j)) as [<-|Hne].
  - apply list_lookup_insert_Some in Hj as [(_ & [= <-] & _)|[? _]]; done.
  - rewrite list_lookup_insert_ne in Hj by done. eauto.
Qed.

Lemma trie_wf_child (t : trie_node) (i : Z) (c : trie_node) :
  trie_wf t = true → child_slot t i = Done (Some c) → trie_wf c = true.
Proof.
  intros [_ H]%trie_wf_unfold [_ Hi]%child_slot_Done. eauto.
Qed.

Lemma child_slot_wf (t : trie_node) (c : ascii) :
  trie_wf t = true →
  (∃ slot, child_slot t (CHAR_TO_INDEX c) = Done slot) ↔ is_upper c = true.
Proof.
  intros [Hlen _]%trie_wf_unfold. rewrite <- CHAR_TO_INDEX_upper, <- Hlen.
  split.
  - intros [slot [H0 H]%child_slot_Done]. apply lookup_lt_Some in H. lia.
  - apply child_slot_in_range.
Qed.

Lemma child_slot_wf_Fault (t : trie_node) (c : ascii) :
  trie_wf t = true → is_upper c = false →
  child_slot t (CHAR_TO_INDEX c) = Fault ChildIndex.
Proof.
  intros Hwf Hc. destruct (child_slot t (CHAR_TO_INDEX c)) eqn:E.
  - assert (is_upper c = true) by (apply (child_slot_wf t); eauto). congruence.
  - by apply child_slot_Fault in E as [-> _].
Qed.

(** ** Insertion *)

Lemma insert_trie_wf (key : list ascii) (t t' : trie_node) :
  trie_wf t = true → insert_trie t key = Done t' → trie_wf t' = true.
Proof.
  revert t t'. induction key as [|c key IH]; intros t t' Hwf; simpl.
  - intros [= <-]. by apply trie_wf_set_end.
  - intros (slot & Hslot & (child' & Hins & [= <-])%bind_Done)%bind_Done.
    apply trie_wf_set_child; [done|]. eapply IH; [|done].
    destruct slot; [by eapply trie_wf_child|apply trie_wf_get_trienode].
Qed.

Lemma insert_trie_upper (key : list ascii) (t : trie_node) :
  trie_wf t = true → key_upper key = true → ∃ t', insert_trie t key = Done t'.
Proof.
  revert t. induction key as [|c key IH]; intros t Hwf; simpl; [eauto|].
  intros [Hc Hkey]%andb_true_iff.
  destruct (proj2 (child_slot_wf t c Hwf) Hc) as [slot Hslot].
  rewrite Hslot; simpl.
  edestruct (IH (match slot with Some n => n | None => get_trienode end))
    as [child' ->]; [|done|simpl; eauto].
  destruct slot; [by eapply trie_wf_child|apply trie_wf_get_trienode].
Qed.

Lemma insert_trie_not_upper (key : list ascii) (t : trie_node) :
  trie_wf t = true → key_upper key = false →
  insert_trie t key = Fault ChildIndex.
Proof.
  revert t. induction key as [|c key IH]; intros t Hwf; simpl; [done|].
  intros Hkey. destruct (is_upper c) eqn:Hc; simpl in Hkey.
  - destruct (proj2 (child_slot_wf t c Hwf) Hc) as [slot Hslot].
    rewrite Hslot; simpl. rewrite IH; [done| |done].
    destruct slot; [by eapply trie_wf_child|apply trie_wf_get_trienode].
  - by rewrite child_slot_wf_Fault.
Qed.

Lemma terminal_nil (t : trie_node) : terminal t [] ↔ is_end t = true.
Proof. unfold terminal; simpl. split; [by intros (? & [= <-] & ?)|eauto]. Qed.

Lemma terminal_cons (t : trie_node) (c : ascii) (key : list ascii) :
  terminal t (c :: key) ↔
  ∃ child, child_slot t (CHAR_TO_INDEX c) = Done (Some child) ∧
           terminal child key.
Proof.
  unfold terminal; simpl. split.
  - intros (n & H & Hn). apply bind_Done in H as ([child|] & Hslot & H); [|done].
    eauto.
  - intros (child & -> & n & H & Hn). simpl. eauto.
Qed.

Lemma terminal_get_trienode (key : list ascii) : ¬ terminal get_trienode key.
Proof.
  destruct key as [|c key].
  - by rewrite terminal_nil.
  - rewrite terminal_cons. intros (child & [_ H]%child_slot_Done & _).
    change (next get_trienode)
      with (replicate (Z.to_nat ALPHABET_SIZE) (@None trie_node)) in H.
    apply lookup_replicate in H as [? _]. done.
Qed.

Lemma terminal_insert_trie (key : list ascii) (t t' : trie_node) :
  insert_trie t key = Done t' →
  ∀ k, terminal t' k ↔ k = key ∨ terminal t k.
Proof.
  revert t t'. induction key as [|c key IH]; intros t t'; simpl.
  - intros [= <-] [|d k].
    + rewrite !terminal_nil. simpl. tauto.
    + rewrite !terminal_cons. setoid_rewrite child_slot_set_end.
      split; [tauto|]. by intros [?|?].
  - intros (slot & Hslot & (child' & Hins & [= <-])%bind_Done)%bind_Done.
    pose proof (IH _ _ Hins) as IH'.
    pose proof Hslot as [Hc0 _]%child_slot_Done.
    intros [|d k].
    + rewrite !terminal_nil. simpl. split; [tauto|]. by intros [?|?].
    + rewrite !terminal_cons.
      destruct (decide (CHAR_TO_INDEX c = CHAR_TO_INDEX d)) as [E|Hne].
      * apply CHAR_TO_INDEX_inj in E as <-.
        erewrite child_slot_set_child by done. rewrite Hslot. split.
        -- intros (? & [= <-] & [->|Hk]%IH'); [by left|right].
           destruct slot; [eauto|]. by apply terminal_get_trienode in Hk.
        -- intros [[= ->]|(child & [= ->] & Hk)];
             (eexists; split; [done|apply IH']); auto.
      * rewrite child_slot_set_child_ne by done.
        split; [tauto|]. intros [[= -> ->]|?]; done.
Qed.

Lemma walk_upper (key : list ascii) (t : trie_node) :
  trie_wf t = true → key_upper key = true → ∃ o, walk t key = Done o.
Proof.
  revert t. induction key as [|c key IH]; intros t Hwf; simpl; [eauto|].
  intros [Hc Hkey]%andb_true_iff.
  destruct (proj2 (child_slot_wf t c Hwf) Hc) as [[child|] Hslot];
    rewrite Hslot; simpl; [|eauto].
  apply IH; [|done]. by eapply trie_wf_child.
Qed.

Lemma insert_trie_twice (key : list ascii) (t t' : trie_node) :
  insert_trie t key = Done t' → insert_trie t' key = Done t'.
Proof.
  revert t t'. induction key as [|c key IH]; intros t t'; simpl.
  - by intros [= <-].
  - intros (slot & Hslot & (child' & Hins & [= <-])%bind_Done)%bind_Done.
    erewrite child_slot_set_child by done. simpl.
    rewrite (IH _ _ Hins). simpl. by rewrite set_child_set_child.
Qed.

(** ** Dictionaries *)

Lemma insert_words_wf (keys : list (list ascii)) (t t' : trie_node) :
  trie_wf t = true → insert_words t keys = Done t' → trie_wf t' = true.
Proof.
  unfold insert_words. revert t. induction keys as [|key keys IH]; intros t Hwf; simpl.
  - by intros [= <-].
  - intros (t1 & H1 & H)%bind_Done. eapply IH; [|done]. by eapply insert_trie_wf.
Qed.

Lemma insert_words_upper (keys : list (list ascii)) (t : trie_node) :
  trie_wf t = true → forallb key_upper keys = true →
  ∃ t', insert_words t keys = Done t'.
Proof.
  unfold insert_words. revert t. induction keys as [|key keys IH]; intros t Hwf; simpl; [eauto|].
  intros [Hkey Hkeys]%andb_true_iff.
  destruct (insert_trie_upper key t Hwf Hkey) as [t1 H1]. rewrite H1; simpl.
  apply IH; [|done]. by eapply insert_trie_wf.
Qed.

Lemma terminal_insert_words (keys : list (list ascii)) (t t' : trie_node) :
  insert_words t keys = Done t' →
  ∀ k, terminal t' k ↔ k ∈ keys ∨ terminal t k.
Proof.
  unfold insert_words. revert t. induction keys as [|key keys IH]; intros t; simpl.
  - intros [= <-] k. rewrite elem_of_nil. tauto.
  - intros (t1 & H1 & H)%bind_Done k.
    rewrite (IH _ H), (terminal_insert_trie _ _ _ H1), elem_of_cons. tauto.
Qed.

(** ** Reading the dictionary *)

Lemma fgets_chars_line (n : nat) (l rest : list ascii) :
  newline ∉ l → (length l < n)%nat →
  fgets_chars n (l ++ newline :: rest) = (l ++ [newline], rest).
Proof.
  revert n. induction l as [|c l IH]; intros n Hnl Hlen; simpl in Hlen.
  - destruct n; [lia|]. done.
  - destruct n; [lia|]. apply not_elem_of_cons in Hnl as [Hc Hl].
    cbn [app fgets_chars]. rewrite bool_decide_eq_false_2 by done.
    rewrite IH by (done || lia). done.
Qed.

Lemma fgets_chars_last (n : nat) (l : list ascii) :
  newline ∉ l → (length l ≤ n)%nat → fgets_chars n l = (l, []).
Proof.
  revert n. induction l as [|c l IH]; intros n Hnl Hlen; simpl in Hlen.
  - by destruct n.
  - destruct n; [lia|]. apply not_elem_of_cons in Hnl as [Hc Hl].
    cbn [fgets_chars]. rewrite bool_decide_eq_false_2 by done.
    rewrite IH by (done || lia). done.
Qed.

Lemma c_string_id (l : list ascii) : NUL ∉ l → c_string l = l.
Proof.
  induction l as [|c l IH]; simpl; [done|].
  intros [Hc Hl]%not_elem_of_cons. unfold is_NUL.
  rewrite bool_decide_eq_false_2 by done. by rewrite IH.
Qed.

Lemma chop_snoc (l : list ascii) (c : ascii) : chop (l ++ [c]) = Done l.
Proof.
  unfold chop. rewrite removelast_last. by destruct l.
Qed.

(** A line that ends in a newline is inserted without the newline. *)
Lemma fill_trie_line (fuel : nat) (root : trie_node) (l rest : list ascii) :
  newline ∉ l → NUL ∉ l → Z.of_nat (length l) < WORD_SIZE - 1 →
  fill_trie (S fuel) root (l ++ newline :: rest) =
  let* root' := insert_trie root l in fill_trie fuel root' rest.
Proof.
  intros Hnl Hnul Hlen. simpl. unfold fgets.
  destruct (l ++ newline :: rest) eqn:E; [by destruct l|]. rewrite <- E.
  rewrite fgets_chars_line by (done || unfold WORD_SIZE in *; lia).
  rewrite c_string_id, chop_snoc; [done|].
  rewrite elem_of_app, list_elem_of_singleton. intros [?|?]; done.
Qed.

(** A last line that does not end in a newline loses its last char. *)
Lemma fill_trie_last_line (fuel : nat) (root : trie_node) (l : list ascii) :
  l ≠ [] → newline ∉ l → NUL ∉ l → Z.of_nat (length l) < WORD_SIZE →
  fill_trie (S (S fuel)) root l = insert_trie root (removelast l).
Proof.
  intros Hne Hnl Hnul Hlen. cbn [fill_trie]. unfold fgets.
  destruct l as [|c l']; [done|]. set (l := c :: l') in *.
  rewrite fgets_chars_last by (done || unfold WORD_SIZE in *; lia).
  rewrite c_string_id by done. unfold chop. subst l. cbn [bind].
  by destruct (insert_trie root (removelast (c :: l'))).
Qed.

(** On a file all of whose lines end in a newline, [fill_trie] inserts the
    lines, each without its newline, first to last. *)
Lemma fill_trie_lines (lines : list (list ascii)) (fuel : nat) (root : trie_node) :
  Forall (λ l, (newline ∉ l) ∧ (NUL ∉ l) ∧ Z.of_nat (length l) < WORD_SIZE - 1) lines →
  (length lines < fuel)%nat →
  fill_trie fuel root (concat (map (λ l, l ++ [newline]) lines)) =
  insert_words root lines.
Proof.
  revert fuel root. induction lines as [|l lines IH]; intros fuel root Hl Hfuel.
  - destruct fuel; [simpl in Hfuel; lia|done].
  - destruct fuel as [|fuel]; [simpl in Hfuel; lia|].
    apply Forall_cons in Hl as [(Hnl & Hnul & Hlen) Hl].
    cbn [map concat]. rewrite <- app_assoc. cbn [app].
    rewrite fill_trie_line by done. unfold insert_words; cbn [for_each].
    destruct (insert_trie root l) as [root'|]; [|done]. simpl.
    apply IH; [done|]. simpl in Hfuel. lia.
Qed.

(** ** Character arrays *)

Lemma is_NUL_true (c : ascii) : is_NUL c = true ↔ c = NUL.
Proof. unfold is_NUL. apply bool_decide_eq_true. Qed.

Lemma is_NUL_false (c : ascii) : is_NUL c = false ↔ c ≠ NUL.
Proof. unfold is_NUL. apply bool_decide_eq_false. Qed.

Lemma buf_read_Done (b : buffer) (i : Z) (c : ascii) :
  buf_read b i = Done c ↔ 0 ≤ i ∧ b !! Z.to_nat i = Some (Some c).
Proof.
  unfold buf_read. destruct (Z.ltb_spec i 0).
  - split; [done|lia].
  - destruct (b !! Z.to_nat i) as [[d|]|]; split;
      (by intros [= <-]) || (by intros [_ [= <-]]) || done || (by intros [_ ?]).
Qed.

Lemma buf_read_inited (b : buffer) (p : Z) :
  inited b p → ∃ c, buf_read b p = Done c ∧ c ≠ NUL.
Proof.
  intros [Hp (c & Hc & Hnul)]. exists c. split; [|done]. by apply buf_read_Done.
Qed.

Lemma buf_write_Done (b b' : buffer) (i : Z) (c : ascii) :
  buf_write b i c = Done b' ↔
  0 ≤ i < Z.of_nat (length b) ∧ b' = <[Z.to_nat i := Some c]> b.
Proof.
  unfold buf_write.
  destruct (Z.leb_spec 0 i), (Z.ltb_spec i (Z.of_nat (length b))); simpl;
    (split; [intros [= <-]; (done || lia) || done|intros [? ->]; (done || lia)]).
Qed.

Lemma buf_write_in_range (b : buffer) (i : Z) (c : ascii) :
  0 ≤ i < Z.of_nat (length b) →
  buf_write b i c = Done (<[Z.to_nat i := Some c]> b).
Proof. intros H. by apply buf_write_Done. Qed.

Lemma inited_insert (b : buffer) (i p : Z) (c : ascii) :
  0 ≤ i → c ≠ NUL → inited b p → inited (<[Z.to_nat i := Some c]> b) p.
Proof.
  intros Hi Hc [Hp (d & Hd & Hnul)]. split; [done|].
  destruct (decide (i = p)) as [->|Hne].
  - exists c. split; [|done]. apply list_lookup_insert_eq. by eapply lookup_lt_Some.
  - exists d. split; [|done]. rewrite list_lookup_insert_ne; [done|lia].
Qed.

Lemma inited_insert_eq (b : buffer) (i : Z) (c : ascii) :
  0 ≤ i < Z.of_nat (length b) → c ≠ NUL →
  inited (<[Z.to_nat i := Some c]> b) i.
Proof.
  intros Hi Hc. split; [lia|]. exists c. split; [|done].
  apply list_lookup_insert_eq. lia.
Qed.

Lemma malloc_length (n : Z) : 0 ≤ n → Z.of_nat (length (malloc n)) = n.
Proof. intros H. unfold malloc. rewrite length_replicate. lia. Qed.

(** [strncpy] of [k] chars none of which is NUL. *)
Lemma strncpy_inited (k : nat) (dst : buffer) (d : Z) (src : buffer) (s : Z) :
  0 ≤ d → d + Z.of_nat k ≤ Z.of_nat (length dst) →
  (∀ p, s ≤ p < s + Z.of_nat k → inited src p) →
  ∃ dst', strncpy dst d src s k = Done dst' ∧
    length dst' = length dst ∧
    (∀ p, d ≤ p < d + Z.of_nat k → inited dst' p) ∧
    (∀ p, inited dst p → inited dst' p) ∧
    (∀ p, 0 ≤ p → ¬ (d ≤ p < d + Z.of_nat k) →
          dst' !! Z.to_nat p = dst !! Z.to_nat p).
Proof.
  revert dst d s. induction k as [|k IH]; intros dst d s Hd Hlen Hsrc.
  - exists dst. simpl. split; [done|]. split; [done|].
    split; [intros; lia|]. split; [done|done].
  - cbn [strncpy].
    destruct (buf_read_inited src s) as (c & -> & Hc); [apply Hsrc; lia|].
    cbn [bind]. rewrite (proj2 (is_NUL_false c) Hc).
    rewrite buf_write_in_range by lia. cbn [bind].
    destruct (IH (<[Z.to_nat d := Some c]> dst) (d + 1) (s + 1))
      as (dst' & -> & Hlen' & Hin & Hmono & Hout).
    { lia. } { rewrite length_insert. lia. } { intros p Hp. apply Hsrc. lia. }
    exists dst'. rewrite length_insert in Hlen'. split; [done|]. split; [done|].
    split; [|split].
    + intros p Hp. destruct (decide (p = d)) as [->|Hne].
      * apply Hmono, inited_insert_eq; [lia|done].
      * apply Hin. lia.
    + intros p Hp. by apply Hmono, inited_insert.
    + intros p Hp0 Hp. rewrite Hout by lia.
      rewrite list_lookup_insert_ne; [done|lia].
Qed.

(** ** Strings in arrays *)

Lemma strlen_map_Some (s : list ascii) (rest : buffer) :
  NUL ∉ s → strlen (map Some s ++ Some NUL :: rest) = Done (Z.of_nat (length s)).
Proof.
  induction s as [|c s IH]; [done|].
  intros [Hc Hs]%not_elem_of_cons. cbn [map app strlen].
  rewrite (proj2 (is_NUL_false c)) by done. rewrite IH by done.
  cbn [bind length]. f_equal. lia.
Qed.

Lemma buffer_string_map_Some (s : list ascii) (rest : buffer) :
  NUL ∉ s → buffer_string (map Some s ++ Some NUL :: rest) = Some s.
Proof.
  induction s as [|c s IH]; [done|].
  intros [Hc Hs]%not_elem_of_cons. cbn [map app buffer_string].
  rewrite (proj2 (is_NUL_false c)) by done. by rewrite IH.
Qed.

Lemma buffer_string_Some (b : buffer) (s : list ascii) :
  buffer_string b = Some s →
  (NUL ∉ s) ∧ ∃ rest, b = map Some s ++ Some NUL :: rest.
Proof.
  revert s. induction b as [|[c|] b IH]; intros s; simpl; [done| |done].
  destruct (is_NUL c) eqn:Hc.
  - intros [= <-]. apply is_NUL_true in Hc as ->. split; [by apply not_elem_of_nil|].
    by exists b.
  - destruct (buffer_string b) as [s'|]; [|done]. intros [= <-].
    destruct (IH s' eq_refl) as (Hs' & rest & ->).
    apply is_NUL_false in Hc. split; [by apply not_elem_of_cons|]. by exists rest.
Qed.

Lemma is_string_chars (b : buffer) (n : Z) :
  is_string b n →
  ∃ s, b = map Some s ++ [Some NUL] ∧ Z.of_nat (length s) = n ∧ NUL ∉ s.
Proof.
  intros (Hn & Hlen & Hin & Hnul).
  assert (∃ m : nat, n = Z.of_nat m) as [m ->] by (exists (Z.to_nat n); lia).
  rewrite Nat2Z.id in Hnul. clear Hn.
  revert b Hlen Hin Hnul. induction m as [|m IH]; intros b Hlen Hin Hnul.
  - destruct b as [|x [|y b]]; simpl in *; try lia.
    injection Hnul as ->. exists []. split; [done|]. split; [done|apply not_elem_of_nil].
  - destruct b as [|x b]; [done|].
    destruct (Hin 0) as [_ (c & Hc & Hcn)]; [lia|]. simpl in Hc. injection Hc as ->.
    destruct (IH b) as (s & -> & Hs & Hsn).
    + simpl in Hlen. lia.
    + intros p Hp. destruct (Hin (p + 1)) as [_ (d & Hd & Hdn)]; [lia|].
      split; [lia|]. exists d. split; [|done].
      replace (Z.to_nat (p + 1)) with (S (Z.to_nat p)) in Hd by lia. done.
    + done.
    + exists (c :: s). split; [done|]. split; [simpl; lia|].
      by apply not_elem_of_cons.
Qed.

Lemma is_string_strlen (b : buffer) (n : Z) : is_string b n → strlen b = Done n.
Proof.
  intros (s & -> & <- & Hs)%is_string_chars. by apply strlen_map_Some.
Qed.

Lemma is_string_map_Some (s : list ascii) :
  NUL ∉ s → is_string (map Some s ++ [Some NUL]) (Z.of_nat (length s)).
Proof.
  intros Hs. split; [lia|]. split; [|split].
  - rewrite length_app, length_map. simpl. lia.
  - intros p Hp. split; [lia|].
    destruct (lookup_lt_is_Some_2 s (Z.to_nat p)) as [c Hc]; [lia|].
    exists c. split.
    + rewrite lookup_app_l by (rewrite length_map; lia).
      by rewrite list_lookup_fmap, Hc.
    + intros ->. apply Hs. by eapply list_elem_of_lookup_2.
  - rewrite Nat2Z.id. rewrite lookup_app_r by (rewrite length_map; lia).
    by rewrite length_map, Nat.sub_diag.
Qed.

(** ** Reading symbols *)

Lemma skip_space_symbols (fp : list ascii) (c : ascii) (rest : list ascii) :
  symbols fp = c :: rest →
  ∃ fp', skip_space fp = c :: fp' ∧ symbols fp' = rest.
Proof.
  induction fp as [|d fp IH]; simpl; [done|].
  destruct (isspace d); [done|]. intros [= -> <-]. eauto.
Qed.

Lemma fscanf_char_symbol (b : buffer) (i : Z) (fp : list ascii)
    (c : ascii) (rest : list ascii) :
  symbols fp = c :: rest → 0 ≤ i < Z.of_nat (length b) →
  ∃ fp', fscanf_char b i fp = Done (<[Z.to_nat i := Some c]> b, fp') ∧
         symbols fp' = rest.
Proof.
  intros (fp' & Hfp & Hrest)%skip_space_symbols Hi. exists fp'.
  unfold fscanf_char. rewrite Hfp, buf_write_in_range by done. done.
Qed.

(** [for (k = 0; k < n; k++) fscanf(fp, " %c", b + k)], started at the
    position after [pre]. *)
Lemma scan_forward (cs : list ascii) (pre mid post : buffer)
    (fp rest : list ascii) :
  symbols fp = cs ++ rest → length mid = length cs →
  ∃ fp', for_each (seqZ (Z.of_nat (length pre)) (Z.of_nat (length cs)))
           (λ k '(b, fp), fscanf_char b k fp) (pre ++ mid ++ post, fp)
         = Done (pre ++ map Some cs ++ post, fp') ∧
         symbols fp' = rest.
Proof.
  revert pre mid fp. induction cs as [|c cs IH]; intros pre mid fp Hfp Hmid.
  - destruct mid; [|done]. exists fp. done.
  - destruct mid as [|m mid]; [done|]. injection Hmid as Hmid.
    rewrite seqZ_cons by (simpl; lia). cbn [for_each].
    destruct (fscanf_char_symbol (pre ++ (m :: mid) ++ post)
                (Z.of_nat (length pre)) fp c (cs ++ rest)) as (fp1 & -> & Hfp1).
    { done. } { rewrite length_app. simpl. lia. }
    cbn [bind]. rewrite Nat2Z.id.
    rewrite insert_app_r_alt, Nat.sub_diag by done. cbn [app insert list_insert].
    destruct (IH (pre ++ [Some c]) mid fp1 Hfp1 Hmid) as (fp' & Hloop & Hrest).
    exists fp'. split; [|done].
    rewrite length_app in Hloop. simpl in Hloop.
    replace (Z.succ (Z.of_nat (length pre)))
      with (Z.of_nat (length pre + 1)) by lia.
    replace (Z.pred (Z.of_nat (length (c :: cs))))
      with (Z.of_nat (length cs)) by (simpl; lia).
    rewrite <- !app_assoc in Hloop. exact Hloop.
Qed.

(** [for (j = n - 1; j >= 0; j--) fscanf(fp, " %c", b + j)]. *)
Lemma scan_backward (cs : list ascii) (mid post : buffer)
    (fp rest : list ascii) :
  symbols fp = cs ++ rest → length mid = length cs →
  ∃ fp', for_each (reverse (seqZ 0 (Z.of_nat (length cs))))
           (λ j '(b, fp), fscanf_char b j fp) (mid ++ post, fp)
         = Done (map Some (reverse cs) ++ post, fp') ∧
         symbols fp' = rest.
Proof.
  revert mid post fp. induction cs as [|c cs IH]; intros mid post fp Hfp Hmid.
  - destruct mid; [|done]. exists fp. done.
  - destruct (decide (mid = [])) as [->|Hne]; [done|].
    destruct (exists_last Hne) as (mid' & m & ->).
    rewrite length_app in Hmid. simpl in Hmid.
    assert (length mid' = length cs) as Hmid' by lia.
    cbn [length]. rewrite seqZ_S, reverse_snoc. cbn [for_each].
    destruct (fscanf_char_symbol ((mid' ++ [m]) ++ post)
                (0 + Z.of_nat (length cs)) fp c (cs ++ rest)) as (fp1 & -> & Hfp1).
    { done. } { rewrite !length_app. simpl. lia. }
    cbn [bind]. rewrite Z.add_0_l, Nat2Z.id, <- Hmid', <- app_assoc.
    rewrite insert_app_r_alt, Nat.sub_diag by done. cbn [app insert list_insert].
    destruct (IH mid' (Some c :: post) fp1 Hfp1 Hmid') as (fp' & Hloop & Hrest).
    exists fp'. split; [|done]. rewrite Hmid'.
    rewrite reverse_cons, map_app, <- app_assoc. exact Hloop.
Qed.

Lemma malloc_succ (n : Z) : 0 ≤ n → malloc (n + 1) = malloc n ++ [None].
Proof.
  intros Hn. unfold malloc. replace (Z.to_nat (n + 1)) with (S (Z.to_nat n)) by lia.
  by rewrite replicate_S_end.
Qed.

Lemma arr_write_in_range (a : list (option buffer)) (i : Z) (b : buffer) :
  0 ≤ i < Z.of_nat (length a) →
  arr_write a i b = Done (<[Z.to_nat i := Some b]> a).
Proof.
  intros Hi. unfold arr_write.
  destruct (Z.leb_spec 0 i), (Z.ltb_spec i (Z.of_nat (length a))); (done || lia).
Qed.

Lemma insert_snoc {A : Type} (l : list A) (x y : A) (n : nat) :
  n = length l → <[n := y]> (l ++ [x]) = l ++ [y].
Proof.
  intros ->. by rewrite insert_app_r_alt, Nat.sub_diag.
Qed.

(** One ring of the input: the upper-centre symbol [u], the right half ring
    [rs], the lower-centre symbol [l], and the left half ring [ls]. *)
Lemma fill_honeycomb_layer_symbols (layers i : Z) (center : buffer)
    (rightlayers leftlayers : list (option buffer)) (fp : list ascii)
    (u l : ascii) (rs ls rest : list ascii) :
  1 ≤ i < layers →
  Z.of_nat (length center) = 2 * layers →
  Z.of_nat (length rightlayers) = layers - 1 →
  Z.of_nat (length leftlayers) = layers - 1 →
  Z.of_nat (length rs) = 2 + (i - 1) * 3 →
  Z.of_nat (length ls) = 2 + (i - 1) * 3 →
  symbols fp = u :: rs ++ l :: ls ++ rest →
  ∃ fp',
    fill_honeycomb_layer layers i (center, rightlayers, leftlayers, fp) =
      Done (<[Z.to_nat (layers - 1 - i) := Some l]>
              (<[Z.to_nat (layers - 1 + i) := Some u]> center),
            <[Z.to_nat (i - 1) := Some (map Some (reverse rs) ++ [Some NUL])]>
              rightlayers,
            <[Z.to_nat (i - 1) := Some (map Some ls ++ [Some NUL])]>
              leftlayers,
            fp') ∧
    symbols fp' = rest.
Proof.
  intros Hi Hcenter Hrl Hll Hrs Hls Hfp. unfold fill_honeycomb_layer.
  cbv zeta. assert (length ls = length rs) as Hlen by lia.
  rewrite <- Hrs. clear Hrs Hls.
  destruct (fscanf_char_symbol center (layers - 1 + i) fp u _ Hfp)
    as (fp1 & -> & Hfp1); [lia|]. cbn [bind].
  rewrite malloc_succ by lia.
  destruct (scan_backward rs (malloc (Z.of_nat (length rs))) [None] fp1 _ Hfp1)
    as (fp2 & -> & Hfp2).
  { apply Nat2Z.inj. rewrite malloc_length; lia. }
  cbn [bind]. rewrite buf_write_in_range
    by (rewrite length_app, length_map, length_reverse; simpl; lia).
  cbn [bind]. rewrite Nat2Z.id.
  rewrite insert_snoc by (by rewrite length_map, length_reverse).
  rewrite arr_write_in_range by lia. cbn [bind].
  destruct (fscanf_char_symbol
              (<[Z.to_nat (layers - 1 + i) := Some u]> center)
              (layers - 1 - i) fp2 l _ Hfp2) as (fp3 & -> & Hfp3).
  { rewrite length_insert. lia. }
  cbn [bind]. rewrite <- Hlen.
  destruct (scan_forward ls [] (malloc (Z.of_nat (length ls))) [None] fp3 _ Hfp3)
    as (fp4 & Hloop & Hfp4).
  { apply Nat2Z.inj. rewrite malloc_length; lia. }
  cbn [length app] in Hloop. change (Z.of_nat 0) with 0 in Hloop.
  rewrite Hloop. cbn [bind]. rewrite buf_write_in_range
    by (rewrite length_app, length_map; simpl; lia).
  cbn [bind]. rewrite Nat2Z.id.
  rewrite insert_snoc by (by rewrite length_map).
  rewrite arr_write_in_range by lia. cbn [bind].
  exists fp4. done.
Qed.

(** ** Columns of the honeycomb *)

Lemma arr_read_Done (a : list (option buffer)) (i : Z) (b : buffer) :
  arr_read a i = Done b ↔ 0 ≤ i ∧ a !! Z.to_nat i = Some (Some b).
Proof.
  unfold arr_read. destruct (Z.ltb_spec i 0).
  - split; [done|lia].
  - destruct (a !! Z.to_nat i) as [[d|]|]; split;
      (by intros [= <-]) || (by intros [_ [= <-]]) || done || (by intros [_ ?]).
Qed.

Lemma set_column_in_range (hc : honeycomb) (i : Z) (b : buffer) :
  0 ≤ i < Z.of_nat (length (columns hc)) →
  set_column hc i b =
  Done {| number_columns := number_columns hc;
          columns := <[Z.to_nat i := Some b]> (columns hc) |}.
Proof. intros Hi. unfold set_column. by rewrite arr_write_in_range. Qed.

Lemma hcomb_store_column_string (layers : list (option buffer)) (n : Z)
    (right : bool) (i : Z) (hc : honeycomb) :
  layers_ok layers n → 0 ≤ i < n →
  ∃ column,
    is_string column (2 * n - i) ∧
    hcomb_store_column layers n right i hc =
      set_column hc (if right then n + i + 1 else n - i - 1) column.
Proof.
  intros Hly Hi. unfold hcomb_store_column. cbv zeta.
  set (len := 2 * n - i).
  rewrite buf_write_in_range by (rewrite malloc_length; lia). cbn [bind].
  set (b1 := <[Z.to_nat len := Some NUL]> (malloc (len + 1))).
  assert (Z.of_nat (length b1) = len + 1) as Hlen1.
  { unfold b1. rewrite length_insert, malloc_length; lia. }
  assert (b1 !! Z.to_nat len = Some (Some NUL)) as Hnul1.
  { unfold b1. apply list_lookup_insert_eq.
    apply Nat2Z.inj_lt. rewrite malloc_length; lia. }
  destruct (Hly i Hi) as (layer_i & Hlayer_i & Hstr_i).
  rewrite (proj2 (arr_read_Done layers i layer_i)) by (split; [lia|done]).
  cbn [bind].
  destruct (strncpy_inited (Z.to_nat (i + 2)) b1 (n - i - 1) layer_i i)
    as (b2 & -> & Hlen2 & Hin2 & _ & Hout2).
  { lia. } { lia. }
  { intros p Hp. apply Hstr_i. lia. }
  cbn [bind].
  assert (∃ column,
    for_each (reverse (seqZ (i + 1) (n - 1 - i)))
      (λ j column,
        let* layer_j := arr_read layers j in
        let* column := strncpy column (n - j - 1) layer_j i 1 in
        strncpy column (n - i + j) layer_j (- i + 3 * j + 1) 1) b2
    = Done column ∧ is_string column len) as (column & -> & Hcolumn).
  { apply wp_Done_ex.
    replace (n - 1 - i) with (Z.of_nat (Z.to_nat (n - 1 - i))) by lia.
    eapply wp_mono;
      [apply (wp_for_seqZ_rev
         (λ j b, Z.of_nat (length b) = len + 1 ∧
                 b !! Z.to_nat len = Some (Some NUL) ∧
                 ∀ p, (0 ≤ p ≤ n - j - 1 ∨ n - i - 1 ≤ p ≤ n ∨
                       n - i + j ≤ p ≤ 2 * n - i - 1) → inited b p)
         (λ _, False))| |done].
    - split; [lia|]. split.
      + rewrite Hout2 by lia. done.
      + intros p Hp. apply Hin2. lia.
    - intros j b Hj (Hlen & Hnul & Hin).
      destruct (Hly j) as (layer_j & Hlayer_j & Hstr_j); [lia|].
      rewrite (proj2 (arr_read_Done layers j layer_j)) by (split; [lia|done]).
      cbn [bind].
      destruct (strncpy_inited 1 b (n - j - 1) layer_j i)
        as (b' & -> & Hlen' & Hin' & Hmono' & Hout').
      { lia. } { lia. } { intros p Hp. apply Hstr_j. lia. }
      cbn [bind].
      destruct (strncpy_inited 1 b' (n - i + j) layer_j (- i + 3 * j + 1))
        as (b'' & -> & Hlen'' & Hin'' & Hmono'' & Hout'').
      { lia. } { lia. } { intros p Hp. apply Hstr_j. lia. }
      simpl. split; [lia|]. split.
      + rewrite Hout'', Hout' by lia. done.
      + intros p Hp.
        destruct (decide (p = n - i + j)) as [->|?]; [apply Hin''; lia|].
        apply Hmono''.
        destruct (decide (p = n - j - 1)) as [->|?]; [apply Hin'; lia|].
        apply Hmono', Hin. lia.
    - intros b (Hlen & Hnul & Hin). split; [lia|]. split; [done|].
      split; [|done]. intros p Hp. apply Hin. lia. }
  exists column. split; [done|]. by destruct right.
Qed.

Lemma hcomb_store_columns (hc : honeycomb) (layers : list (option buffer))
    (n : Z) (right : bool) :
  layers_ok layers n → 0 ≤ n →
  Z.of_nat (length (columns hc)) = 2 * n + 1 →
  ∃ hc',
    hcomb_store hc layers n right = Done hc' ∧
    number_columns hc' = number_columns hc ∧
    length (columns hc') = length (columns hc) ∧
    (∀ i, 0 ≤ i < n →
       ∃ b, columns hc' !! Z.to_nat (if right then n + i + 1 else n - i - 1)
            = Some (Some b) ∧ is_string b (2 * n - i)) ∧
    (∀ p, 0 ≤ p → (if right then p ≤ n else n ≤ p) →
       columns hc' !! Z.to_nat p = columns hc !! Z.to_nat p).
Proof.
  intros Hly Hn Hlen. unfold hcomb_store. apply wp_Done_ex.
  replace n with (Z.of_nat (Z.to_nat n)) at 1 by lia.
  eapply wp_mono;
    [apply (wp_for_seqZ_rev
       (λ j hc',
         number_columns hc' = number_columns hc ∧
         length (columns hc') = length (columns hc) ∧
         (∀ i, j ≤ i < n →
            ∃ b, columns hc' !! Z.to_nat (if right then n + i + 1 else n - i - 1)
                 = Some (Some b) ∧ is_string b (2 * n - i)) ∧
         (∀ p, 0 ≤ p → (if right then p ≤ n else n ≤ p) →
            columns hc' !! Z.to_nat p = columns hc !! Z.to_nat p))
       (λ _, False))| |done].
  - split; [done|]. split; [done|]. split; [intros; lia|done].
  - intros j hc1 Hj (Hnum & Hlen1 & Hdone & Hframe).
    destruct (hcomb_store_column_string layers n right j hc1 Hly)
      as (column & Hcolumn & ->); [lia|].
    rewrite set_column_in_range by (destruct right; lia). simpl.
    split; [done|]. split; [by rewrite length_insert|]. split.
    + intros i Hi. destruct (decide (i = j)) as [->|Hne].
      * exists column. split; [|done]. apply list_lookup_insert_eq.
        destruct right; lia.
      * destruct (Hdone i) as (b & Hb & Hstr); [lia|]. exists b.
        split; [|done]. rewrite list_lookup_insert_ne; [done|].
        destruct right; lia.
    + intros p Hp0 Hp. rewrite list_lookup_insert_ne; [by apply Hframe|].
      destruct right; lia.
  - simpl. intros hc' (Hnum & Hlen1 & Hdone & Hframe).
    split; [done|]. split; [done|]. split; [|done].
    intros i Hi. apply Hdone. lia.
Qed.

Lemma split_ring (l : list ascii) (h : nat) :
  (2 * h + 2 ≤ length l)%nat →
  ∃ u rs lo ls rest,
    l = u :: rs ++ lo :: ls ++ rest ∧ length rs = h ∧ length ls = h.
Proof.
  intros Hl. destruct l as [|u l]; [simpl in Hl; lia|]. simpl in Hl.
  destruct (drop h l) as [|lo l2] eqn:E.
  { apply (f_equal length) in E. rewrite length_drop in E. simpl in E. lia. }
  exists u, (take h l), lo, (take h l2), (drop h l2).
  assert (length l2 = (length l - h - 1)%nat) as Hl2.
  { apply (f_equal length) in E. rewrite length_drop in E. simpl in E. lia. }
  split; [|split].
  - by rewrite take_drop, <- E, take_drop.
  - rewrite length_take. lia.
  - rewrite length_take. lia.
Qed.

Lemma inited_not_NUL_insert (b : buffer) (i p : Z) (c : ascii) :
  0 ≤ i < Z.of_nat (length b) → c ≠ NUL →
  inited b p ∨ p = i → inited (<[Z.to_nat i := Some c]> b) p.
Proof.
  intros Hi Hc [H| ->]; [apply inited_insert; (done || lia)|].
  by apply inited_insert_eq.
Qed.

Lemma layers_ok_insert (layers : list (option buffer)) (j : Z) (b : buffer) :
  1 ≤ j ≤ Z.of_nat (length layers) →
  layers_ok layers (j - 1) → is_string b (2 + 3 * (j - 1)) →
  layers_ok (<[Z.to_nat (j - 1) := Some b]> layers) j.
Proof.
  intros Hj Hly Hb q Hq. destruct (decide (q = j - 1)) as [->|Hne].
  - exists b. split; [|done]. apply list_lookup_insert_eq. lia.
  - destruct (Hly q) as (b' & Hb' & Hstr); [lia|]. exists b'. split; [|done].
    rewrite list_lookup_insert_ne; [done|lia].
Qed.

(** The loop over the rings in [fill_honeycomb]. *)
Lemma fill_honeycomb_layers (layers : Z) (center : buffer) (fp : list ascii) :
  1 ≤ layers →
  Z.of_nat (length center) = 2 * layers →
  center !! Z.to_nat (2 * layers - 1) = Some (Some NUL) →
  inited center (layers - 1) →
  NUL ∉ symbols fp →
  cell_count layers - 1 ≤ Z.of_nat (length (symbols fp)) →
  ∃ center' rightlayers leftlayers fp',
    for_each (seqZ 1 (layers - 1)) (fill_honeycomb_layer layers)
      (center, replicate (Z.to_nat (layers - 1)) None,
       replicate (Z.to_nat (layers - 1)) None, fp)
    = Done (center', rightlayers, leftlayers, fp') ∧
    is_string center' (2 * layers - 1) ∧
    layers_ok rightlayers (layers - 1) ∧
    layers_ok leftlayers (layers - 1).
Proof.
  intros HL Hlen Hnul Hmid Hfp Hcount.
  set (I := λ (j : Z) (st : buffer * list (option buffer) *
                            list (option buffer) * list ascii),
    let '(center, rl, ll, fp) := st in
    Z.of_nat (length center) = 2 * layers ∧
    center !! Z.to_nat (2 * layers - 1) = Some (Some NUL) ∧
    (∀ p, layers - j ≤ p ≤ layers + j - 2 → inited center p) ∧
    Z.of_nat (length rl) = layers - 1 ∧ Z.of_nat (length ll) = layers - 1 ∧
    layers_ok rl (j - 1) ∧ layers_ok ll (j - 1) ∧
    (NUL ∉ symbols fp) ∧
    cell_count layers - cell_count j ≤ Z.of_nat (length (symbols fp))).
  destruct (wp_Done_ex
    (for_each (seqZ 1 (layers - 1)) (fill_honeycomb_layer layers)
      (center, replicate (Z.to_nat (layers - 1)) None,
       replicate (Z.to_nat (layers - 1)) None, fp))
    (I layers)) as ([[[center' rl] ll] fp'] & Hloop & HI).
  { replace (layers - 1) with (Z.of_nat (Z.to_nat (layers - 1))) at 1 by lia.
    replace layers with (1 + Z.of_nat (Z.to_nat (layers - 1))) at 5 by lia.
    apply wp_for_seqZ.
    - unfold I. rewrite !length_replicate. split; [done|]. split; [done|].
      split; [intros p Hp; by replace p with (layers - 1) by lia|].
      split; [lia|]. split; [lia|].
      split; [intros q Hq; lia|]. split; [intros q Hq; lia|].
      split; [done|]. unfold cell_count in *. lia.
    - intros j [[[c1 rl1] ll1] fp1] Hj
        (Hlen1 & Hnul1 & Hin1 & Hrl1 & Hll1 & Hrok & Hlok & Hfp1 & Hcount1).
      destruct (split_ring (symbols fp1) (Z.to_nat (2 + (j - 1) * 3)))
        as (u & rs & lo & ls & rest & Hsym & Hrs & Hls).
      { unfold cell_count in Hcount1. nia. }
      rewrite Hsym in Hfp1.
      apply not_elem_of_cons in Hfp1 as [Hu Hfp1].
      apply not_elem_of_app in Hfp1 as [Hrsn Hfp1].
      apply not_elem_of_cons in Hfp1 as [Hlo Hfp1].
      apply not_elem_of_app in Hfp1 as [Hlsn Hrest].
      destruct (fill_honeycomb_layer_symbols layers j c1 rl1 ll1 fp1
                  u lo rs ls rest) as (fp2 & -> & Hfp2);
        [lia|done|done|done|lia|lia|done|].
      simpl. rewrite !length_insert.
      split; [done|]. split.
      { rewrite !list_lookup_insert_ne by lia. done. }
      split.
      { intros p Hp.
        apply inited_not_NUL_insert; [rewrite length_insert; lia|by intros ->|].
        destruct (decide (p = layers - 1 - j)) as [->|?]; [by right|left].
        apply inited_not_NUL_insert; [lia|by intros ->|].
        destruct (decide (p = layers - 1 + j)) as [->|?]; [by right|left].
        apply Hin1. lia. }
      split; [done|]. split; [done|].
      replace (j + 1 - 1) with j by lia.
      split; [|split].
      + apply layers_ok_insert; [lia|done|].
        replace (2 + 3 * (j - 1)) with (Z.of_nat (length (reverse rs)))
          by (rewrite length_reverse; lia).
        apply is_string_map_Some. by rewrite elem_of_reverse.
      + apply layers_ok_insert; [lia|done|].
        replace (2 + 3 * (j - 1)) with (Z.of_nat (length ls)) by lia.
        by apply is_string_map_Some.
      + split; [by rewrite Hfp2|]. rewrite Hfp2.
        apply (f_equal length) in Hsym. simpl in Hsym.
        rewrite !length_app in Hsym. simpl in Hsym. rewrite length_app in Hsym.
        unfold cell_count in *. nia. }
  destruct HI as (Hlen' & Hnul' & Hin' & _ & _ & Hrok & Hlok & _).
  exists center', rl, ll, fp'. split; [done|]. split; [|done].
  split; [lia|]. split; [lia|]. split; [|done].
  intros p Hp. apply Hin'. lia.
Qed.

Lemma create_honeycomb_Done (layers : Z) :
  1 ≤ layers →
  create_honeycomb layers =
  Done {| number_columns := 2 * layers - 1;
          columns := replicate (Z.to_nat (2 * layers - 1)) None |}.
Proof.
  intros HL. unfold create_honeycomb.
  destruct (Z.ltb_spec 0 (2 * layers - 1)); [done|lia].
Qed.

(** The grid that [create_honeycomb] and [fill_honeycomb] build. *)
Lemma build_honeycomb_columns (layers : Z) (fp : list ascii) :
  1 ≤ layers →
  NUL ∉ symbols fp →
  cell_count layers ≤ Z.of_nat (length (symbols fp)) →
  ∃ hc fp',
    build_honeycomb layers fp = Done (hc, fp') ∧
    number_columns hc = 2 * layers - 1 ∧
    Z.of_nat (length (columns hc)) = 2 * layers - 1 ∧
    ∀ i, 0 ≤ i < 2 * layers - 1 →
      ∃ b, columns hc !! Z.to_nat i = Some (Some b) ∧
           is_string b (2 * layers - 1 - Z.abs (i - (layers - 1))).
Proof.
  intros HL Hfp Hcount. unfold build_honeycomb.
  rewrite create_honeycomb_Done by done. cbn [bind].
  set (hc0 := {| number_columns := 2 * layers - 1;
                 columns := replicate (Z.to_nat (2 * layers - 1)) None |}).
  unfold fill_honeycomb.
  destruct (symbols fp) as [|c0 rest0] eqn:Hsym.
  { unfold cell_count in Hcount. simpl in Hcount. nia. }
  apply not_elem_of_cons in Hfp as [Hc0 Hrest0].
  destruct (fscanf_char_symbol (malloc (2 * layers)) (layers - 1) fp c0 rest0)
    as (fp1 & -> & Hfp1); [done|rewrite malloc_length; lia|].
  cbn [bind].
  rewrite buf_write_in_range by (rewrite length_insert, malloc_length; lia).
  cbn [bind].
  set (center := <[Z.to_nat (2 * layers - 1) := Some NUL]>
                   (<[Z.to_nat (layers - 1) := Some c0]> (malloc (2 * layers)))).
  assert (Z.of_nat (length center) = 2 * layers) as Hlen.
  { unfold center. rewrite !length_insert, malloc_length; lia. }
  assert (center !! Z.to_nat (2 * layers - 1) = Some (Some NUL)) as Hnul.
  { unfold center. apply list_lookup_insert_eq.
    apply Nat2Z.inj_lt. rewrite length_insert, malloc_length; lia. }
  assert (inited center (layers - 1)) as Hmid.
  { split; [lia|]. exists c0. split; [|by intros ->]. unfold center.
    destruct (decide (layers = 1)) as [->|?].
    - done.
    - rewrite list_lookup_insert_ne by lia. apply list_lookup_insert_eq.
      apply Nat2Z.inj_lt. rewrite malloc_length; lia. }
  destruct (fill_honeycomb_layers layers center fp1)
    as (center' & rl & ll & fp' & Hloop & Hcenter & Hrok & Hlok);
    [done|done|done|done|by rewrite Hfp1| |].
  { rewrite Hfp1. simpl in Hcount. lia. }
  assert (Z.of_nat (length (columns hc0)) = 2 * (layers - 1) + 1) as Hcols.
  { simpl. rewrite length_replicate. lia. }
  destruct (Z.ltb_spec 1 layers) as [H1|H1].
  - rewrite Hloop. cbn [bind].
    destruct (hcomb_store_columns hc0 ll (layers - 1) false)
      as (hc1 & -> & Hnum1 & Hlen1 & Hleft & Hframe1); [done|lia|done|].
    cbn [bind].
    destruct (hcomb_store_columns hc1 rl (layers - 1) true)
      as (hc2 & -> & Hnum2 & Hlen2 & Hright & Hframe2); [done|lia|lia|].
    cbn [bind]. rewrite set_column_in_range by lia. cbn [bind].
    exists {| number_columns := number_columns hc2;
              columns := <[Z.to_nat (layers - 1) := Some center']> (columns hc2) |},
      fp'.
    split; [done|]. simpl. rewrite length_insert.
    split; [by rewrite Hnum2, Hnum1|]. split; [lia|]. intros i Hi.
    destruct (Z.lt_trichotomy i (layers - 1)) as [Hlt|[->|Hgt]].
    + destruct (Hleft (layers - 2 - i)) as (b & Hb & Hstr); [lia|].
      exists b. rewrite list_lookup_insert_ne by lia.
      rewrite Hframe2 by lia.
      replace (layers - 1 - (layers - 2 - i) - 1) with i in Hb by lia.
      split; [done|].
      by replace (2 * layers - 1 - Z.abs (i - (layers - 1)))
        with (2 * (layers - 1) - (layers - 2 - i)) by lia.
    + exists center'. split; [apply list_lookup_insert_eq; lia|].
      by replace (2 * layers - 1 - Z.abs (layers - 1 - (layers - 1)))
        with (2 * layers - 1) by lia.
    + destruct (Hright (i - layers)) as (b & Hb & Hstr); [lia|].
      exists b. rewrite list_lookup_insert_ne by lia.
      replace (layers - 1 + (i - layers) + 1) with i in Hb by lia.
      split; [done|].
      by replace (2 * layers - 1 - Z.abs (i - (layers - 1)))
        with (2 * (layers - 1) - (i - layers)) by lia.
  - assert (layers = 1) as -> by lia. simpl in Hloop. injection Hloop as <- _ _ _.
    cbn [bind]. rewrite set_column_in_range by (simpl; lia). cbn [bind].
    eexists _, fp1. split; [done|]. simpl. split; [done|]. split; [done|].
    intros i Hi. assert (i = 0) as -> by lia. exists center. split; [done|].
    exact Hcenter.
Qed.

Lemma is_string_buffer_string (b : buffer) (n : Z) :
  is_string b n → is_Some (buffer_string b).
Proof.
  intros (s & -> & _ & Hs)%is_string_chars. exists s.
  by apply buffer_string_map_Some.
Qed.

(** A honeycomb whose columns all hold strings is well formed. *)
Lemma hc_wf_columns (hc : honeycomb) :
  number_columns hc = Z.of_nat (length (columns hc)) →
  (∀ i, 0 ≤ i < number_columns hc →
     ∃ b n, columns hc !! Z.to_nat i = Some (Some b) ∧ is_string b n) →
  hc_wf hc = true.
Proof.
  intros Hnum Hcols. unfold hc_wf, column_strings.
  rewrite bool_decide_eq_true_2 by done.
  match goal with |- match ?m with _ => _ end = _ =>
    assert (is_Some m) as [cols ->]; [|done] end.
  apply mapM_is_Some, Forall_lookup. intros i o Ho.
  destruct (Hcols (Z.of_nat i)) as (b & n & Hb & Hstr).
  { apply lookup_lt_Some in Ho. lia. }
  rewrite Nat2Z.id, Ho in Hb. injection Hb as ->.
  by eapply is_string_buffer_string.
Qed.

(** ** Cells of the grid *)

Lemma column_strings_Some (hc : honeycomb) (cols : list (list ascii)) :
  column_strings hc = Some cols ↔
  number_columns hc = Z.of_nat (length (columns hc)) ∧
  Forall2 (λ o s, ∃ b, o = Some b ∧ buffer_string b = Some s) (columns hc) cols.
Proof.
  unfold column_strings. case_bool_decide as Hn.
  - rewrite mapM_Some. split.
    + intros H. split; [done|]. eapply Forall2_impl; [done|].
      intros [b|] s Hb; [eauto|done].
    + intros [_ H]. eapply Forall2_impl; [done|].
      by intros o s (b & -> & Hb).
  - split; [done|]. by intros [? _].
Qed.

Lemma column_strings_lookup (hc : honeycomb) (cols : list (list ascii))
    (i : nat) (s : list ascii) :
  column_strings hc = Some cols → cols !! i = Some s →
  ∃ b rest, columns hc !! i = Some (Some b) ∧
            b = map Some s ++ Some NUL :: rest ∧ NUL ∉ s.
Proof.
  intros [_ H]%column_strings_Some Hs.
  destruct (Forall2_lookup_r _ _ _ _ _ H Hs) as (o & Ho & b & -> & Hb).
  apply buffer_string_Some in Hb as (Hnul & rest & ->). eauto.
Qed.

Lemma cell_at_Some (hc : honeycomb) (column label : Z) (c : ascii) :
  cell_at hc column label = Some c ↔
  ∃ cols s, column_strings hc = Some cols ∧ 0 ≤ column ∧ 0 ≤ label ∧
            cols !! Z.to_nat column = Some s ∧ s !! Z.to_nat label = Some c.
Proof.
  unfold cell_at. destruct (column_strings hc) as [cols|].
  - destruct (Z.ltb_spec column 0), (Z.ltb_spec label 0); simpl;
      try (split; [done|intros (? & ? & ? & ? & ? & ?); lia]).
    destruct (cols !! Z.to_nat column) as [s|] eqn:E.
    + split; [intros; exists cols, s; done|].
      intros (? & ? & [= <-] & _ & _ & Hs & ?). by rewrite E in Hs; injection Hs as <-.
    + split; [done|]. intros (? & ? & [= <-] & _ & _ & Hs & ?). by rewrite E in Hs.
  - split; [done|]. by intros (? & ? & ? & _).
Qed.

Lemma cell_at_range (hc : honeycomb) (column label : Z) (c : ascii) :
  cell_at hc column label = Some c →
  0 ≤ column < number_columns hc ∧ 0 ≤ label.
Proof.
  intros (cols & s & Hcols & Hc & Hl & Hs & _)%cell_at_Some.
  pose proof Hcols as [Hn H]%column_strings_Some.
  apply Forall2_length in H. apply lookup_lt_Some in Hs. lia.
Qed.

Lemma cell_blocked_grid (hc : honeycomb) (column label : Z) :
  hc_wf hc = true →
  cell_blocked hc column label =
  Done (match cell_at hc column label with
        | Some c => bool_decide (c = "-"%char)
        | None => true
        end).
Proof.
  unfold hc_wf, cell_blocked, cell_at.
  destruct (column_strings hc) as [cols|] eqn:Hcols; [intros _|done].
  pose proof Hcols as [Hn H]%column_strings_Some.
  pose proof (Forall2_length _ _ _ H) as Hlen.
  destruct (Z.ltb_spec column 0); [done|].
  destruct (Z.ltb_spec label 0); [done|]. simpl.
  destruct (Z.leb_spec (number_columns hc) column).
  { rewrite (proj2 (lookup_ge_None cols _)); [done|lia]. }
  destruct (lookup_lt_is_Some_2 cols (Z.to_nat column)) as [s Hs]; [lia|].
  rewrite Hs.
  destruct (column_strings_lookup hc cols _ s Hcols Hs) as (b & rest & Hb & -> & Hnul).
  rewrite (proj2 (arr_read_Done _ column _)) by done. cbn [bind].
  rewrite strlen_map_Some by done. cbn [bind].
  destruct (Z.leb_spec (Z.of_nat (length s)) label).
  { rewrite (proj2 (lookup_ge_None s _)); [done|lia]. }
  destruct (lookup_lt_is_Some_2 s (Z.to_nat label)) as [c Hc]; [lia|].
  rewrite Hc. rewrite (proj2 (buf_read_Done _ label c)); [done|].
  split; [done|]. rewrite lookup_app_l by (rewrite length_map; lia).
  by rewrite list_lookup_fmap, Hc.
Qed.

Lemma get_cell_grid (hc : honeycomb) (column label : Z) (c : ascii) :
  cell_at hc column label = Some c →
  get_cell hc column label = Done c ∧ c ≠ NUL.
Proof.
  intros (cols & s & Hcols & Hc & Hl & Hs & Hsc)%cell_at_Some.
  destruct (column_strings_lookup hc cols _ s Hcols Hs) as (b & rest & Hb & -> & Hnul).
  split.
  - unfold get_cell. rewrite (proj2 (arr_read_Done _ column _)) by done.
    cbn [bind]. apply buf_read_Done. split; [done|].
    rewrite lookup_app_l by (rewrite length_map; apply lookup_lt_Some in Hsc; lia).
    by rewrite list_lookup_fmap, Hsc.
  - intros ->. apply Hnul. by eapply list_elem_of_lookup_2.
Qed.

(** Writing a char other than NUL into a cell of the grid. *)
Lemma set_cell_grid (hc : honeycomb) (column label : Z) (c c' : ascii) :
  cell_at hc column label = Some c → c' ≠ NUL →
  ∃ hc', set_cell hc column label c' = Done hc' ∧
    hc_wf hc' = true ∧
    number_columns hc' = number_columns hc ∧
    ∀ col lab, cell_at hc' col lab =
      if bool_decide (col = column ∧ lab = label) then Some c'
      else cell_at hc col lab.
Proof.
  intros (cols & s & Hcols & Hc & Hl & Hs & Hsc)%cell_at_Some Hc'.
  destruct (column_strings_lookup hc cols _ s Hcols Hs) as (b & rest & Hb & -> & Hnul).
  pose proof Hcols as [Hn H]%column_strings_Some.
  pose proof (lookup_lt_Some _ _ _ Hsc) as Hlab.
  pose proof (lookup_lt_Some _ _ _ Hb) as Hcol.
  unfold set_cell. rewrite (proj2 (arr_read_Done _ column _)) by done.
  cbn [bind]. rewrite buf_write_in_range
    by (rewrite length_app, length_map; simpl; lia).
  cbn [bind]. rewrite set_column_in_range by lia.
  rewrite insert_app_l by (rewrite length_map; lia).
  rewrite <- (list_fmap_insert Some s).
  set (s' := <[Z.to_nat label := c']> s).
  assert (NUL ∉ s') as Hnul'.
  { intros [i Hi]%list_elem_of_lookup. unfold s' in Hi.
    apply list_lookup_insert_Some in Hi as [(_ & E & _)|[_ Hi]]; [done|].
    apply Hnul. by eapply list_elem_of_lookup_2. }
  set (hc' := {| number_columns := number_columns hc;
                 columns := <[Z.to_nat column :=
                    Some ((Some <$> s') ++ Some NUL :: rest)]> (columns hc) |}).
  assert (column_strings hc' = Some (<[Z.to_nat column := s']> cols)) as Hcols'.
  { apply column_strings_Some. simpl. rewrite length_insert. split; [done|].
    apply Forall2_insert; [done|]. eexists. split; [done|].
    by apply buffer_string_map_Some. }
  exists hc'. split; [done|]. split; [by unfold hc_wf; rewrite Hcols'|].
  split; [done|]. intros col lab. unfold cell_at. rewrite Hcols', Hcols.
  destruct (Z.ltb_spec col 0), (Z.ltb_spec lab 0); simpl;
    try (rewrite bool_decide_eq_false_2 by lia; done).
  case_bool_decide as Heq.
  - destruct Heq as [-> ->].
    rewrite list_lookup_insert_eq by (apply lookup_lt_Some in Hs; lia).
    unfold s'. by rewrite list_lookup_insert_eq by lia.
  - destruct (decide (col = column)) as [->|Hne].
    + rewrite list_lookup_insert_eq by (apply lookup_lt_Some in Hs; lia).
      rewrite Hs. unfold s'. rewrite list_lookup_insert_ne; [done|].
      intros E. apply Heq. split; [done|lia].
    + rewrite list_lookup_insert_ne; [done|lia].
Qed.

Lemma arr_read_lookup (a : list (option buffer)) (i : Z) (b : buffer) :
  0 ≤ i → a !! Z.to_nat i = Some (Some b) → arr_read a i = Done b.
Proof. intros. by apply arr_read_Done. Qed.

(** Writing back the char that a cell held. *)
Lemma set_cell_restore (hc hc1 : honeycomb) (column label : Z) (c save : ascii) :
  get_cell hc column label = Done save →
  set_cell hc column label c = Done hc1 →
  set_cell hc1 column label save = Done hc.
Proof.
  unfold get_cell, set_cell.
  intros (b & Hb & Hsave)%bind_Done
         (b0 & Hb0 & (b' & Hb' & Hset)%bind_Done)%bind_Done.
  rewrite Hb in Hb0. injection Hb0 as <-.
  apply arr_read_Done in Hb as [Hc Hb].
  apply buf_read_Done in Hsave as [Hl Hsave].
  apply buf_write_Done in Hb' as [Hrange ->].
  rewrite set_column_in_range in Hset by (apply lookup_lt_Some in Hb; lia).
  injection Hset as <-. cbn [columns number_columns].
  erewrite arr_read_lookup;
    [|done|apply list_lookup_insert_eq; by apply lookup_lt_Some in Hb].
  cbn [bind]. rewrite buf_write_in_range by (rewrite length_insert; lia).
  cbn [bind]. rewrite set_column_in_range
    by (cbn [columns]; rewrite length_insert; apply lookup_lt_Some in Hb; lia).
  cbn [columns number_columns].
  rewrite !list_insert_insert_eq, (list_insert_id b), list_insert_id by done.
  by destruct hc.
Qed.

Lemma get_cell_set_cell (hc hc1 : honeycomb) (column label : Z) (c : ascii)
    (col lab : Z) :
  set_cell hc column label c = Done hc1 →
  get_cell hc col lab = Done c →
  get_cell hc1 col lab = Done c.
Proof.
  unfold get_cell, set_cell.
  intros (b0 & Hb0 & (b' & Hb' & Hset)%bind_Done)%bind_Done
         (b & Hb & Hread)%bind_Done.
  apply arr_read_Done in Hb0 as [Hc0 Hb0].
  apply arr_read_Done in Hb as [Hc Hb].
  apply buf_read_Done in Hread as [Hl Hread].
  apply buf_write_Done in Hb' as [Hrange ->].
  rewrite set_column_in_range in Hset by (apply lookup_lt_Some in Hb0; lia).
  injection Hset as <-. cbn [columns].
  destruct (decide (col = column)) as [->|Hne].
  - rewrite Hb in Hb0. injection Hb0 as <-.
    erewrite arr_read_lookup;
      [|done|apply list_lookup_insert_eq; by apply lookup_lt_Some in Hb].
    cbn [bind]. apply buf_read_Done. split; [done|].
    destruct (decide (lab = label)) as [->|Hne].
    + apply list_lookup_insert_eq. lia.
    + rewrite list_lookup_insert_ne; [done|lia].
  - erewrite arr_read_lookup;
      [|done|rewrite list_lookup_insert_ne; [done|lia]].
    cbn [bind]. by apply buf_read_Done.
Qed.

(** ** One call of the search *)

Lemma child_slot_not_NUL (node : trie_node) (c : ascii) slot :
  child_slot node (CHAR_TO_INDEX c) = Done slot → c ≠ NUL.
Proof. intros [H _]%child_slot_Done ->. by vm_compute in H. Qed.

Lemma strncat1_Done (word word1 : list ascii) (c : ascii) :
  strncat1 word c = Done word1 → c ≠ NUL →
  word1 = word ++ [c] ∧ Z.of_nat (length word) + 1 < WORD_SIZE.
Proof.
  unfold strncat1. intros H Hc. rewrite (proj2 (is_NUL_false c) Hc) in H.
  destruct (Z.ltb_spec (Z.of_nat (length word) + 1) WORD_SIZE); [|done].
  by injection H as <-.
Qed.

Lemma strncat1_Fault (word : list ascii) (c : ascii) f :
  strncat1 word c = Fault f →
  f = WordOverflow ∧ WORD_SIZE ≤ Z.of_nat (length word) + 1.
Proof.
  unfold strncat1. destruct (is_NUL c); [done|].
  destruct (Z.ltb_spec (Z.of_nat (length word) + 1) WORD_SIZE); [done|].
  by intros [= <-].
Qed.

Lemma chop_Done (word : list ascii) (c : ascii) : chop (word ++ [c]) = Done word.
Proof. unfold chop. rewrite removelast_last. by destruct word. Qed.

(** A call gives back the grid and the word buffer as it found them. *)
Lemma find_words_trie_frame (fuel : nat) (hc : honeycomb) (node : trie_node)
    (store : word_store) (word : list ascii) (column label : Z) :
  wp (find_words_trie fuel hc node store word column label)
     (λ '(hc', _, _, word'), hc' = hc ∧ word' = word) (λ _, True).
Proof.
  revert hc node store word column label.
  induction fuel as [|fuel IH]; intros hc node store word column label; [done|].
  cbn [find_words_trie].
  wp_bind_case blocked Hblocked.
  destruct (_ && _); [done|].
  wp_bind_case c Hc. wp_bind_case word1 Hword1. wp_bind_case slot Hslot.
  pose proof (child_slot_not_NUL _ _ _ Hslot) as Hnul.
  apply strncat1_Done in Hword1 as [-> _]; [|done].
  destruct slot as [next_node|]; [|by rewrite chop_Done].
  set (st := if is_end next_node then _ else _). destruct st as [store1 next1].
  wp_bind_case hc1 Hmark.
  apply wp_bind.
  eapply wp_mono;
    [apply (wp_for_each (λ '(hc', _, _, word'),
              hc' = hc1 ∧ word' = word ++ [c]) (λ _, True))| |done].
  - done.
  - intros i [[[hc2 n2] s2] w2] _ [-> ->].
    apply wp_for_each; [done|].
    intros j [[[hc3 n3] s3] w3] _ [-> ->].
    destruct (negb _); [|done].
    eapply wp_mono; [apply IH| |done].
    by intros [[[hc4 n4] s4] w4] [-> ->].
  - intros [[[hc2 n2] s2] w2] [-> ->]. cbn [wp].
    rewrite (set_cell_restore hc hc1 column label "-" c) by done. cbn [bind].
    by rewrite chop_Done.
Qed.

(** ** Words recorded by the search *)

Lemma found_refl (word : list ascii) (node : trie_node) (store : word_store) :
  found word node store node store.
Proof.
  exists []. rewrite app_nil_r. split; [done|]. split; [constructor|].
  split; [|done]. by intros w ?%elem_of_nil.
Qed.

Lemma found_trans (word : list ascii) (n0 n1 n2 : trie_node)
    (s0 s1 s2 : word_store) :
  found word n0 s0 n1 s1 → found word n1 s1 n2 s2 → found word n0 s0 n2 s2.
Proof.
  intros (new1 & -> & Hnd1 & Hnew1 & Hmono1) (new2 & -> & Hnd2 & Hnew2 & Hmono2).
  exists (new1 ++ new2). rewrite app_assoc. split; [done|]. split; [|split].
  - apply NoDup_app. split; [done|]. split; [|done].
    intros w (s1 & -> & _ & Hs1)%Hnew1 (s2 & E & Hs2 & _)%Hnew2.
    apply app_inv_head in E as <-. done.
  - intros w [Hw|Hw]%elem_of_app.
    + destruct (Hnew1 w Hw) as (s & -> & Hs & Hs'). exists s.
      split; [done|]. split; [done|]. intros Hk. by apply Hs', Hmono2.
    + destruct (Hnew2 w Hw) as (s & -> & Hs & Hs'). exists s.
      split; [done|]. split; [by apply Hmono1|done].
  - intros k Hk. by apply Hmono1, Hmono2.
Qed.

Lemma terminal_set_end_false (node : trie_node) (k : list ascii) :
  terminal (set_end node false) k → terminal node k.
Proof.
  destruct k as [|c k].
  - by rewrite terminal_nil.
  - rewrite !terminal_cons. by setoid_rewrite child_slot_set_end.
Qed.

Lemma terminal_set_child (node child child' : trie_node) (c d : ascii)
    (k : list ascii) :
  child_slot node (CHAR_TO_INDEX c) = Done (Some child) →
  terminal (set_child node (CHAR_TO_INDEX c) child') (d :: k) ↔
  if decide (d = c) then terminal child' k else terminal node (d :: k).
Proof.
  intros Hslot. pose proof Hslot as [Hc _]%child_slot_Done.
  rewrite !terminal_cons. case_decide as Hd.
  - subst d. erewrite child_slot_set_child by done. split.
    + by intros (? & [= <-] & ?).
    + eauto.
  - assert (CHAR_TO_INDEX c ≠ CHAR_TO_INDEX d) as Hne.
    { intros E. by apply CHAR_TO_INDEX_inj in E. }
    rewrite child_slot_set_child_ne by done. symmetry. apply terminal_cons.
Qed.

(** The words found below a child are found below its parent. *)
Lemma found_child (word : list ascii) (c : ascii) (node child child' : trie_node)
    (store store' : word_store) :
  child_slot node (CHAR_TO_INDEX c) = Done (Some child) →
  found (word ++ [c]) child store child' store' →
  found word node store (set_child node (CHAR_TO_INDEX c) child') store'.
Proof.
  intros Hslot (new & -> & Hnd & Hnew & Hmono). exists new.
  split; [done|]. split; [done|]. split.
  - intros w (s & -> & Hs & Hs')%Hnew. exists (c :: s).
    rewrite <- app_assoc. split; [done|].
    rewrite (terminal_set_child _ _ _ _ _ _ Hslot), decide_True by done.
    split; [|done]. apply terminal_cons. eauto.
  - intros [|d k].
    + by rewrite !terminal_nil.
    + rewrite (terminal_set_child _ _ _ _ _ _ Hslot). case_decide as Hd; [|done].
      subst d. intros Hk%Hmono. apply terminal_cons. eauto.
Qed.

(** Recording the word of a node whose flag is set, and clearing the flag. *)
Lemma found_record (word : list ascii) (node node' : trie_node)
    (store store' : word_store) :
  is_end node = true →
  found word (set_end node false) (store ++ [word]) node' store' →
  found word node store node' store'.
Proof.
  intros Hend (new & -> & Hnd & Hnew & Hmono). exists (word :: new).
  rewrite <- app_assoc. split; [done|]. split; [|split].
  - apply NoDup_cons. split; [|done].
    intros (s & E & Hs & _)%Hnew.
    rewrite <- (app_nil_r word) in E at 1. apply app_inv_head in E as <-.
    by apply terminal_nil in Hs.
  - intros w [->|Hw]%elem_of_cons.
    + exists []. rewrite app_nil_r. split; [done|]. split; [by apply terminal_nil|].
      intros Hk%Hmono. by apply terminal_nil in Hk.
    + destruct (Hnew w Hw) as (s & -> & Hs & Hs'). exists s.
      split; [done|]. split; [by apply terminal_set_end_false|done].
  - intros k Hk%Hmono. by apply terminal_set_end_false.
Qed.

Lemma find_words_trie_found (fuel : nat) (hc : honeycomb) (node : trie_node)
    (store : word_store) (word : list ascii) (column label : Z) :
  wp (find_words_trie fuel hc node store word column label)
     (λ '(_, node', store', _), found word node store node' store')
     (λ _, True).
Proof.
  revert hc node store word column label.
  induction fuel as [|fuel IH]; intros hc node store word column label; [done|].
  cbn [find_words_trie].
  wp_bind_case blocked Hblocked.
  destruct (_ && _); [apply found_refl|].
  wp_bind_case c Hc. wp_bind_case word1 Hword1. wp_bind_case slot Hslot.
  pose proof (child_slot_not_NUL _ _ _ Hslot) as Hnul.
  apply strncat1_Done in Hword1 as [-> _]; [|done].
  destruct slot as [next_node|]; [|rewrite chop_Done; apply found_refl].
  set (st := if is_end next_node then _ else _).
  assert (∀ n' s', found (word ++ [c]) st.2 st.1 n' s' →
                   found (word ++ [c]) next_node store n' s') as Hst.
  { unfold st. destruct (is_end next_node) eqn:Hend; [|done].
    intros n' s'. by apply found_record. }
  destruct st as [store1 next1]. cbn [fst snd] in Hst.
  wp_bind_case hc1 Hmark.
  apply wp_bind.
  eapply wp_mono;
    [apply (wp_for_each (λ '(_, n', s', word'),
              word' = word ++ [c] ∧ found (word ++ [c]) next1 store1 n' s')
              (λ _, True))| |done].
  - split; [done|apply found_refl].
  - intros i [[[hc2 n2] s2] w2] _ [-> Hfound].
    apply wp_for_each; [done|].
    intros j [[[hc3 n3] s3] w3] _ [-> Hfound3].
    destruct (negb _); [|done].
    eapply wp_mono; [apply wp_and; [apply IH|apply find_words_trie_frame]| |done].
    intros [[[hc4 n4] s4] w4] [Hfound4 [_ ->]]. split; [done|].
    by eapply found_trans.
  - intros [[[hc2 n2] s2] w2] [-> Hfound]. cbn [wp].
    destruct (set_cell hc2 column label c); [|done]. cbn [bind].
    rewrite chop_Done. cbn [bind wp].
    eapply found_child; [done|]. by apply Hst.
Qed.

(** A call that does not return at once and finds, for the char [c] of its
    cell, a child whose flag is set: it appends the word buffer, with [c]
    at its end, to the store, and in the trie that it leaves the flag of
    that child is not set. *)
Lemma find_words_trie_records (fuel : nat) (hc hc' : honeycomb)
    (node node' next_node : trie_node) (store store' : word_store)
    (word word' : list ascii) (column label : Z) (c : ascii) :
  word = [] ∨ cell_blocked hc column label = Done false →
  get_cell hc column label = Done c →
  child_slot node (CHAR_TO_INDEX c) = Done (Some next_node) →
  is_end next_node = true →
  find_words_trie (S fuel) hc node store word column label
    = Done (hc', node', store', word') →
  ∃ rest next_node',
    store' = store ++ (word ++ [c]) :: rest ∧
    (word ++ [c] ∉ rest) ∧
    child_slot node' (CHAR_TO_INDEX c) = Done (Some next_node') ∧
    is_end next_node' = false.
Proof.
  intros Hguard Hc Hslot Hend. cbn [find_words_trie].
  intros (blocked & Hblocked & Hrun)%bind_Done.
  assert (blocked && negb (Z.of_nat (length word) =? 0) = false) as Hcond.
  { destruct Hguard as [->|Hfalse]; [apply andb_false_r|].
    rewrite Hfalse in Hblocked. by injection Hblocked as <-. }
  rewrite Hcond, Hc in Hrun. cbn [bind] in Hrun.
  apply bind_Done in Hrun as (word1 & Hword1 & Hrun).
  rewrite Hslot in Hrun. cbn [bind] in Hrun. rewrite Hend in Hrun.
  cbv beta iota in Hrun.
  pose proof (child_slot_not_NUL _ _ _ Hslot) as Hnul.
  apply strncat1_Done in Hword1 as [-> _]; [|done].
  apply bind_Done in Hrun as (hc1 & Hmark & Hrun).
  apply bind_Done in Hrun as ([[[hc2 n2] s2] w2] & Hloop & Hrun).
  apply bind_Done in Hrun as (hc3 & Hrestore & Hrun).
  apply bind_Done in Hrun as (w3 & Hchop & [= <- <- <- <-]).
  assert (w2 = word ++ [c] ∧
          found (word ++ [c]) (set_end next_node false)
            (store ++ [word ++ [c]]) n2 s2) as [-> Hfound].
  { apply (λ H, wp_Done_inv _
             (λ '(_, n', s', word'),
                word' = word ++ [c] ∧
                found (word ++ [c]) (set_end next_node false)
                  (store ++ [word ++ [c]]) n' s')
             (λ _, True) _ H Hloop).
    apply (wp_for_each (λ '(_, n', s', word'),
             word' = word ++ [c] ∧
             found (word ++ [c]) (set_end next_node false)
               (store ++ [word ++ [c]]) n' s')).
    - split; [done|apply found_refl].
    - intros i [[[hc4 n4] s4] w4] _ [-> Hfound4].
      apply wp_for_each; [done|].
      intros j [[[hc5 n5] s5] w5] _ [-> Hfound5].
      destruct (negb (_ && _)); [|done].
      eapply wp_mono;
        [apply wp_and; [apply find_words_trie_found|apply find_words_trie_frame]
        | |done].
      intros [[[hc6 n6] s6] w6] [Hfound6 [_ ->]]. split; [done|].
      by eapply found_trans. }
  destruct Hfound as (rest & -> & _ & Hnew & Hmono).
  exists rest, n2. rewrite <- app_assoc. split; [done|]. split; [|split].
  - intros (s & E & Hs & _)%Hnew.
    rewrite <- (app_nil_r (word ++ [c])) in E at 1.
    apply app_inv_head in E as <-. by apply terminal_nil in Hs.
  - by eapply child_slot_set_child.
  - destruct (is_end n2) eqn:Hn2; [|done].
    assert (terminal n2 []) as Hk%Hmono by (by apply terminal_nil).
    by apply terminal_nil in Hk.
Qed.

(** ** The coordinates of the recorded words *)

Lemma chain_snoc (path : list coord) (p q : coord) :
  chain (path ++ [p]) → adjacent p q → chain ((path ++ [p]) ++ [q]).
Proof.
  intros Hpath Hpq. induction path as [|a [|b path] IH].
  - done.
  - simpl in *. tauto.
  - destruct Hpath as [Hab Hpath]. split; [done|]. by apply IH.
Qed.

Lemma cell_blocked_false (hc : honeycomb) (column label : Z) :
  cell_blocked hc column label = Done false →
  ∃ c, get_cell hc column label = Done c ∧ c ≠ "-"%char.
Proof.
  unfold cell_blocked, get_cell. destruct (_ || _); [done|].
  destruct (arr_read (columns hc) column) as [col|]; [|done]. cbn [bind].
  destruct (strlen col) as [len|]; [|done]. cbn [bind].
  destruct (len <=? label); [done|].
  destruct (buf_read col label) as [c|]; [|done]. cbn [bind].
  intros [= H]. apply bool_decide_eq_false in H. eauto.
Qed.

Lemma get_cell_set_cell_eq (hc hc1 : honeycomb) (column label : Z) (c : ascii) :
  set_cell hc column label c = Done hc1 → get_cell hc1 column label = Done c.
Proof.
  unfold get_cell, set_cell.
  intros (b & Hb & (b' & Hb' & Hset)%bind_Done)%bind_Done.
  apply arr_read_Done in Hb as [Hc Hb].
  apply buf_write_Done in Hb' as [Hrange ->].
  rewrite set_column_in_range in Hset by (apply lookup_lt_Some in Hb; lia).
  injection Hset as <-. cbn [columns].
  erewrite arr_read_lookup;
    [|done|apply list_lookup_insert_eq; by apply lookup_lt_Some in Hb].
  cbn [bind]. apply buf_read_Done. split; [lia|].
  apply list_lookup_insert_eq. lia.
Qed.

Lemma get_cell_set_cell_ne (hc hc1 : honeycomb) (column label : Z) (c : ascii)
    (col lab : Z) :
  set_cell hc column label c = Done hc1 → (col, lab) ≠ (column, label) →
  get_cell hc1 col lab = get_cell hc col lab.
Proof.
  unfold get_cell, set_cell.
  intros (b & Hb & (b' & Hb' & Hset)%bind_Done)%bind_Done Hne.
  apply arr_read_Done in Hb as [Hc Hb].
  apply buf_write_Done in Hb' as [Hrange ->].
  rewrite set_column_in_range in Hset by (apply lookup_lt_Some in Hb; lia).
  injection Hset as <-. cbn [columns]. unfold arr_read.
  destruct (Z.ltb_spec col 0); [done|].
  destruct (decide (col = column)) as [->|Hcol].
  - rewrite list_lookup_insert_eq by (by apply lookup_lt_Some in Hb).
    rewrite Hb. cbn [bind]. unfold buf_read.
    destruct (Z.ltb_spec lab 0); [done|].
    rewrite list_lookup_insert_ne; [done|]. intros E. apply Hne. f_equal. lia.
  - rewrite list_lookup_insert_ne; [done|lia].
Qed.

(** *** The search with and without coordinates *)

Lemma find_words_trie_path_erase (fuel : nat) (hc : honeycomb)
    (node : trie_node) (store : word_store) (pstore : path_store)
    (word : list ascii) (path : list coord) (column label : Z) :
  sim (erased store)
    (find_words_trie fuel hc node (store ++ map fst pstore) word column label)
    (find_words_trie_path fuel hc node pstore word path column label).
Proof.
  revert hc node pstore word path column label.
  induction fuel as [|fuel IH]; intros hc node pstore word path column label;
    [done|].
  cbn [find_words_trie find_words_trie_path].
  apply sim_refl_bind. intros blocked _.
  destruct (_ && _); [done|].
  apply sim_refl_bind. intros c _.
  apply sim_refl_bind. intros word1 _.
  apply sim_refl_bind. intros c' _.
  apply sim_refl_bind. intros [next_node|] _; [|by apply sim_refl_bind].
  destruct (is_end next_node).
  - apply sim_refl_bind. intros save _.
    apply sim_refl_bind. intros hc1 _.
    apply (sim_bind (erased store));
      [|intros [[[??]?]?] [[[??]?]?] (-> & -> & -> & ->);
        apply sim_refl_bind; intros hc3 _; by apply sim_refl_bind].
    apply sim_for_each.
    { split; [done|]. split; [done|]. split; [|done].
      by rewrite map_app, app_assoc. }
    intros i [[[??]?]?] [[[??]?]?] (-> & -> & -> & ->).
    apply sim_for_each; [done|].
    intros j [[[??]?]?] [[[??]?]?] (-> & -> & -> & ->).
    destruct (negb _); [apply IH|done].
  - apply sim_refl_bind. intros save _.
    apply sim_refl_bind. intros hc1 _.
    apply (sim_bind (erased store));
      [|intros [[[??]?]?] [[[??]?]?] (-> & -> & -> & ->);
        apply sim_refl_bind; intros hc3 _; by apply sim_refl_bind].
    apply sim_for_each; [done|].
    intros i [[[??]?]?] [[[??]?]?] (-> & -> & -> & ->).
    apply sim_for_each; [done|].
    intros j [[[??]?]?] [[[??]?]?] (-> & -> & -> & ->).
    destruct (negb _); [apply IH|done].
Qed.

Lemma find_words_path_erase (fuel : nat) (hc : honeycomb) (root : trie_node)
    (store : word_store) (pstore : path_store) :
  sim (λ '(hc1, n1, st1) '(hc2, n2, st2),
         hc1 = hc2 ∧ n1 = n2 ∧ st1 = store ++ map fst st2)
    (find_words fuel hc root (store ++ map fst pstore))
    (find_words_path fuel hc root pstore).
Proof.
  unfold find_words, find_words_path.
  apply sim_for_upto; [done| |].
  { by intros [[??]?] [[??]?] (-> & _ & _). }
  intros i [[??]?] [[??]?] (-> & -> & ->).
  apply sim_for_upto; [done| |].
  { by intros [[??]?] [[??]?] (-> & _ & _). }
  intros j [[??]?] [[??]?] (-> & -> & ->).
  apply (sim_bind (erased store)); [apply find_words_trie_path_erase|].
  by intros [[[??]?]?] [[[??]?]?] (-> & -> & -> & ->).
Qed.

Lemma neighbour_adjacent (column label i j : Z) :
  i ∈ [-1; 0; 1] → j ∈ [-1; 0; 1] →
  negb ((column + i =? column) && (label + j =? label)) = true →
  adjacent (column, label) (column + i, label + j).
Proof.
  intros Hi Hj Hne. unfold adjacent; simpl.
  assert (-1 ≤ i ≤ 1) by (repeat (apply elem_of_cons in Hi as [->|Hi]; [lia|]);
                          by apply elem_of_nil in Hi).
  assert (-1 ≤ j ≤ 1) by (repeat (apply elem_of_cons in Hj as [->|Hj]; [lia|]);
                          by apply elem_of_nil in Hj).
  split; [lia|]. split; [lia|]. intros [= Hc Hl].
  apply negb_true_iff, andb_false_iff in Hne as [Hne|Hne];
    apply Z.eqb_neq in Hne; lia.
Qed.

(** Every word in the store of the search with coordinates is spelled by
    its coordinates on the grid [hc0] in which the search started.  During
    the search the cells of the active [path] hold the mark, and all other
    cells are as in [hc0]. *)
Lemma find_words_trie_path_spells (hc0 : honeycomb) (fuel : nat)
    (hc : honeycomb) (node : trie_node) (pstore : path_store)
    (word : list ascii) (path : list coord) (column label : Z) :
  (∀ p, p ∈ path → get_cell hc p.1 p.2 = Done "-"%char) →
  (∀ q, q ∉ path → get_cell hc q.1 q.2 = get_cell hc0 q.1 q.2) →
  NoDup path →
  chain (path ++ [(column, label)]) →
  Forall2 (λ c p, get_cell hc0 p.1 p.2 = Done c) word path →
  Forall (λ wp, spells hc0 wp.1 wp.2) pstore →
  wp (find_words_trie_path fuel hc node pstore word path column label)
     (λ '(hc', _, pstore', word'),
        hc' = hc ∧ word' = word ∧ Forall (λ wp, spells hc0 wp.1 wp.2) pstore')
     (λ _, True).
Proof.
  revert hc node pstore word path column label.
  induction fuel as [|fuel IH];
    intros hc node pstore word path column label
      Hmarked Hagree Hnodup Hchain Hword Hstore; [done|].
  cbn [find_words_trie_path].
  wp_bind_case blocked Hblocked.
  destruct (_ && _) eqn:Hcond; [done|].
  wp_bind_case c Hc. wp_bind_case word1 Hword1. wp_bind_case slot Hslot.
  pose proof (child_slot_not_NUL _ _ _ Hslot) as Hnul.
  apply strncat1_Done in Hword1 as [-> _]; [|done].
  destruct slot as [next_node|]; [|by rewrite chop_Done].
  assert ((column, label) ∉ path) as Hfresh.
  { intros Hin. destruct word as [|d word].
    - apply Forall2_nil_inv_l in Hword as ->. by apply elem_of_nil in Hin.
    - destruct blocked; [done|].
      apply cell_blocked_false in Hblocked as (c' & Hc' & Hne).
      apply Hmarked in Hin. simpl in Hin. congruence. }
  assert (spells hc0 (word ++ [c]) (path ++ [(column, label)])) as Hspells.
  { split; [|split; [done|]].
    - apply NoDup_app. split; [done|]. split; [|apply NoDup_singleton].
      intros p Hp ->%list_elem_of_singleton. done.
    - apply Forall2_app; [done|]. constructor; [|done].
      rewrite <- (Hagree (column, label) Hfresh). done. }
  set (st := if is_end next_node then _ else _).
  assert (Forall (λ wp, spells hc0 wp.1 wp.2) st.1) as Hstore1.
  { unfold st. destruct (is_end next_node); [|done].
    apply Forall_app. split; [done|]. by constructor. }
  destruct st as [pstore1 next1]. cbn [fst] in Hstore1.
  wp_bind_case hc1 Hmark.
  apply wp_bind.
  eapply wp_mono;
    [apply (wp_for_each (λ '(hc', _, pstore', word'),
              hc' = hc1 ∧ word' = word ++ [c] ∧
              Forall (λ wp, spells hc0 wp.1 wp.2) pstore') (λ _, True))| |done].
  - by repeat split.
  - intros i [[[hc2 n2] s2] w2] Hi (-> & -> & Hs2).
    apply wp_for_each; [by repeat split|].
    intros j [[[hc3 n3] s3] w3] Hj (-> & -> & Hs3).
    destruct (negb (_ && _)) eqn:Hne; [|by repeat split].
    apply IH; [| |by apply Hspells| |by apply Hspells|done].
    + intros p [Hp| ->%list_elem_of_singleton]%elem_of_app.
      * eapply get_cell_set_cell; [done|]. by apply Hmarked.
      * by eapply get_cell_set_cell_eq.
    + intros [col lab] [Hq Hq']%not_elem_of_app.
      rewrite <- Hagree by done. eapply get_cell_set_cell_ne; [done|].
      by rewrite list_elem_of_singleton in Hq'.
    + apply chain_snoc; [done|]. by apply neighbour_adjacent.
  - intros [[[hc2 n2] s2] w2] (-> & -> & Hs2). cbn [wp].
    rewrite (set_cell_restore hc hc1 column label "-" c) by done. cbn [bind].
    by rewrite chop_Done.
Qed.

Lemma find_words_path_spells (fuel : nat) (hc : honeycomb) (root : trie_node)
    (pstore : path_store) :
  Forall (λ wp, spells hc wp.1 wp.2) pstore →
  wp (find_words_path fuel hc root pstore)
     (λ '(hc', _, pstore'),
        hc' = hc ∧ Forall (λ wp, spells hc wp.1 wp.2) pstore')
     (λ _, True).
Proof.
  intros Hstore. unfold find_words_path.
  apply (wp_for_upto (λ '(hc', _, pstore'),
           hc' = hc ∧ Forall (λ wp, spells hc wp.1 wp.2) pstore'));
    [done|done|intros; apply wp_True|].
  intros i [[hc1 n1] s1] [-> Hs1].
  apply (wp_for_upto (λ '(hc', _, pstore'),
           hc' = hc ∧ Forall (λ wp, spells hc wp.1 wp.2) pstore'));
    [done|done|intros; apply wp_True|].
  intros j [[hc2 n2] s2] [-> Hs2].
  apply wp_bind.
  eapply wp_mono;
    [apply (find_words_trie_path_spells hc);
       [by intros p ?%elem_of_nil|done|constructor|done|constructor|done]
    | |done].
  by intros [[[hc3 n3] s3] w3] (-> & _ & Hs3).
Qed.

(** ** Height of the trie *)

Lemma trie_height_slots (t : trie_node) :
  trie_height t = slots_height (next t).
Proof. by destruct t. Qed.

Lemma slots_height_lookup (ch : list (option trie_node)) (i : nat)
    (c : trie_node) :
  ch !! i = Some (Some c) → (trie_height c < slots_height ch)%nat.
Proof.
  revert i. induction ch as [|o ch IH]; intros [|i] H; simpl in *; try done.
  - injection H as ->. lia.
  - apply IH in H. destruct o; lia.
Qed.

Lemma slots_height_insert (ch : list (option trie_node)) (i : nat)
    (c c' : trie_node) :
  ch !! i = Some (Some c) → (trie_height c' ≤ trie_height c)%nat →
  (slots_height (<[i := Some c']> ch) ≤ slots_height ch)%nat.
Proof.
  revert i. induction ch as [|o ch IH]; intros [|i] H Hc; simpl in *; try done.
  - injection H as ->. lia.
  - specialize (IH i H Hc). destruct o; lia.
Qed.

Lemma trie_height_child (node child : trie_node) (i : Z) :
  child_slot node i = Done (Some child) →
  (trie_height child < trie_height node)%nat.
Proof.
  intros [_ H]%child_slot_Done. rewrite (trie_height_slots node).
  by eapply slots_height_lookup.
Qed.

Lemma trie_height_set_end (node : trie_node) (b : bool) :
  trie_height (set_end node b) = trie_height node.
Proof. by rewrite !trie_height_slots. Qed.

Lemma trie_height_set_child (node child child' : trie_node) (i : Z) :
  child_slot node i = Done (Some child) →
  (trie_height child' ≤ trie_height child)%nat →
  (trie_height (set_child node i child') ≤ trie_height node)%nat.
Proof.
  intros [_ H]%child_slot_Done Hc. rewrite !trie_height_slots. simpl.
  by eapply slots_height_insert.
Qed.

(** ** Faults of the search *)

Lemma cells_ok_mark (hc hc1 : honeycomb) :
  (∀ col lab, ∃ b : bool, cell_at hc1 col lab =
     if b then Some "-"%char else cell_at hc col lab) →
  cells_ok hc → cells_ok hc1.
Proof.
  intros Hcells Hok col lab c Hc. destruct (Hcells col lab) as [[] E];
    rewrite E in Hc.
  - injection Hc as <-. by right.
  - by eapply Hok.
Qed.

(** The cell that a call reads when it does not return at once. *)
Lemma search_cell (hc : honeycomb) (word : list ascii) (column label : Z)
    (blocked : bool) :
  hc_wf hc = true →
  word ≠ [] ∨ is_Some (cell_at hc column label) →
  cell_blocked hc column label = Done blocked →
  blocked && negb (Z.of_nat (length word) =? 0) = false →
  ∃ c, cell_at hc column label = Some c ∧
       (word ≠ [] → c ≠ "-"%char).
Proof.
  intros Hwf Hpre Hblocked Hcond. rewrite cell_blocked_grid in Hblocked by done.
  injection Hblocked as <-.
  destruct (cell_at hc column label) as [c|] eqn:Hc.
  - exists c. split; [done|]. intros Hword ->.
    rewrite bool_decide_eq_true_2 in Hcond by done.
    destruct word; [done|]. done.
  - destruct Hpre as [Hword|[? ?]]; [|done]. by destruct word.
Qed.


(** With a well-formed trie that is not too deep for the fuel or for the
    word buffer, a call can only fault on a char that is not in 'A'..'Z'. *)
Lemma find_words_trie_safe (fuel : nat) (hc : honeycomb)
    (node : trie_node) (store : word_store) (word : list ascii)
    (column label : Z) :
  hc_wf hc = true →
  word ≠ [] ∨ is_Some (cell_at hc column label) →
  trie_wf node = true →
  (trie_height node < fuel)%nat →
  Z.of_nat (length word) + Z.of_nat (trie_height node) + 1 < WORD_SIZE →
  wp (find_words_trie fuel hc node store word column label)
     (λ '(_, node', _, _),
        trie_wf node' = true ∧ (trie_height node' ≤ trie_height node)%nat)
     (λ f, f = ChildIndex ∧
           (¬ cells_ok hc ∨
            (word = [] ∧ cell_at hc column label = Some "-"%char))).
Proof.
  revert hc node store word column label.
  induction fuel as [|fuel IH];
    intros hc node store word column label Hwf Hpre Hnode Hfuel Hsize; [lia|].
  cbn [find_words_trie].
  wp_bind_case blocked Hblocked.
  2:{ by rewrite cell_blocked_grid in Hblocked. }
  destruct (_ && _) eqn:Hcond; [done|].
  destruct (search_cell hc word column label blocked) as (c & Hcell & Hc);
    [done..|].
  destruct (get_cell_grid hc column label c Hcell) as [Hget Hnul].
  rewrite Hget. cbn [bind].
  wp_bind_case word1 Hword1.
  2:{ apply strncat1_Fault in Hword1 as [_ ?]. lia. }
  apply strncat1_Done in Hword1 as [-> _]; [|done].
  wp_bind_case slot Hslot.
  2:{ apply child_slot_Fault in Hslot as [-> Hrange]. split; [done|].
      assert (is_upper c = false) as Hupper.
      { destruct (is_upper c) eqn:E; [|done].
        apply CHAR_TO_INDEX_upper in E.
        apply trie_wf_unfold in Hnode as [Hlen _]. lia. }
      destruct (decide (c = "-"%char)) as [->|Hne].
      - right. split; [|done]. destruct word; [done|]. by destruct Hc.
      - left. intros Hok. destruct (Hok _ _ _ Hcell); congruence. }
  destruct slot as [next_node|]; [|by rewrite chop_Done].
  pose proof (trie_wf_child _ _ _ Hnode Hslot) as Hnext.
  pose proof (trie_height_child _ _ _ Hslot) as Hheight.
  set (st := if is_end next_node then _ else _).
  assert (trie_wf st.2 = true ∧ trie_height st.2 = trie_height next_node)
    as [Hnext1 Hheight1].
  { unfold st. destruct (is_end next_node); [|done]. cbn [snd].
    split; [by apply trie_wf_set_end|apply trie_height_set_end]. }
  destruct st as [store1 next1]. cbn [snd] in Hnext1, Hheight1.
  destruct (set_cell_grid hc column label c "-") as (hc1 & Hmark & Hwf1 & _ & Hcells);
    [done|done|].
  rewrite Hmark. cbn [bind].
  assert (cells_ok hc → cells_ok hc1) as Hok1.
  { apply cells_ok_mark. intros col lab.
    exists (bool_decide (col = column ∧ lab = label)). apply Hcells. }
  apply wp_bind.
  eapply wp_mono;
    [apply (wp_for_each (λ '(hc', n', _, word'),
              hc' = hc1 ∧ word' = word ++ [c] ∧ trie_wf n' = true ∧
              (trie_height n' ≤ trie_height next_node)%nat)
              (λ f, f = ChildIndex ∧ ¬ cells_ok hc))| |].
  - repeat split; (done || lia).
  - intros i [[[hc2 n2] s2] w2] _ (-> & -> & Hn2 & Hh2).
    apply wp_for_each; [by repeat split|].
    intros j [[[hc3 n3] s3] w3] _ (-> & -> & Hn3 & Hh3).
    destruct (negb (_ && _)); [|by repeat split].
    eapply wp_mono;
      [apply wp_and; [apply find_words_trie_frame|apply IH]| |].
    + done.
    + left. by destruct word.
    + done.
    + lia.
    + rewrite length_app. simpl. lia.
    + intros [[[hc4 n4] s4] w4] [[-> ->] [Hn4 Hh4]]. repeat split; (done || lia).
    + intros f [_ [-> [Hok|[Hw _]]]]; [|by destruct word].
      split; [done|]. auto.
  - intros [[[hc2 n2] s2] w2] (-> & -> & Hn2 & Hh2). cbn [wp].
    rewrite (set_cell_restore hc hc1 column label "-" c) by done. cbn [bind].
    rewrite chop_Done. cbn [bind wp].
    split; [by apply trie_wf_set_child|]. by eapply trie_height_set_child.
  - intros f [-> Hok]. auto.
Qed.

(** ** The loops of [find_words] *)

Lemma column_strlen (hc : honeycomb) (cols : list (list ascii)) (i : Z)
    (s : list ascii) :
  column_strings hc = Some cols → 0 ≤ i → cols !! Z.to_nat i = Some s →
  (let* col := arr_read (columns hc) i in strlen col)
  = Done (Z.of_nat (length s)).
Proof.
  intros Hcols Hi Hs.
  destruct (column_strings_lookup hc cols _ s Hcols Hs) as (b & rest & Hb & -> & Hnul).
  erewrite arr_read_lookup by done. cbn [bind]. by apply strlen_map_Some.
Qed.

Lemma hc_extent_columns (hc : honeycomb) (cols : list (list ascii)) :
  column_strings hc = Some cols →
  number_columns hc = Z.of_nat (length cols) ∧
  (length cols ≤ hc_extent hc)%nat ∧
  ∀ i s, cols !! i = Some s → (length s ≤ hc_extent hc)%nat.
Proof.
  intros Hcols. unfold hc_extent. rewrite Hcols.
  pose proof Hcols as [Hn H%Forall2_length]%column_strings_Some.
  split; [lia|]. split; [lia|]. intros i s Hs.
  assert (length s ≤ max_list (map length cols))%nat; [|lia].
  apply max_list_elem_of_le, list_elem_of_fmap. exists s. split; [done|].
  by eapply list_elem_of_lookup_2.
Qed.

Lemma cell_at_lookup (hc : honeycomb) (cols : list (list ascii)) (i j : Z)
    (s : list ascii) :
  column_strings hc = Some cols → 0 ≤ i → 0 ≤ j →
  cols !! Z.to_nat i = Some s →
  cell_at hc i j = s !! Z.to_nat j.
Proof.
  intros Hcols Hi Hj Hs. unfold cell_at. rewrite Hcols, Hs.
  by destruct (Z.ltb_spec i 0), (Z.ltb_spec j 0); try lia.
Qed.

(** The two loops of [find_words], for a body [call] that keeps the grid
    and an invariant [P] of the rest of the state: the calls are made on
    the cells of the grid, column by column, and for each of them the body
    may establish a property [V] of the cell, which then holds for all. *)
Section find_words_loops.
Context {X : Type} (hc : honeycomb) (cols : list (list ascii)).
Context (P : trie_node → X → Prop) (V : Z → Z → Prop) (F : fault → Prop).
Context (call : Z → Z → honeycomb * trie_node * X →
                result (honeycomb * trie_node * X)).
Context (fuel : nat).
Hypothesis Hcols : column_strings hc = Some cols.
Hypothesis Hfuel : F OutOfFuel ∨ (hc_extent hc < fuel)%nat.
Hypothesis Hcall : ∀ i j c root store,
  cell_at hc i j = Some c → P root store →
  wp (call i j (hc, root, store))
     (λ '(hc', root', store'), hc' = hc ∧ P root' store' ∧ V i j) F.

Lemma wp_find_words_loops (root : trie_node) (store : X) :
  P root store →
  wp (for_upto fuel 0 (λ '(hc', _, _), Done (number_columns hc'))
        (λ i st,
          for_upto fuel 0
            (λ '(hc', _, _),
               let* col := arr_read (columns hc') i in strlen col)
            (call i) st)
        (hc, root, store))
     (λ '(hc', root', store'),
        hc' = hc ∧ P root' store' ∧
        ∀ i j c, cell_at hc i j = Some c → V i j)
     F.
Proof.
  intros Hs.
  destruct (hc_extent_columns hc cols Hcols) as (Hn & Hext & Hexts).
  eapply wp_mono;
    [apply (wp_for_upto_idx
       (λ i '(hc', root', store'),
          0 ≤ i ∧ hc' = hc ∧ P root' store' ∧
          ∀ i' j c, i' < i → cell_at hc i' j = Some c → V i' j)
       F fuel 0 _ _ _ (number_columns hc))| |done].
  - destruct Hfuel; [by left|right; lia].
  - repeat split; [done..|]. intros i' j c Hi' Hc.
    apply cell_at_range in Hc. lia.
  - by intros i [[hc' r'] s'] (_ & -> & _).
  - intros i [[hc' r'] s'] (Hi & -> & Hs' & Hdone) Hlt.
    destruct (lookup_lt_is_Some_2 cols (Z.to_nat i)) as [col Hcol]; [lia|].
    eapply wp_mono;
      [apply (wp_for_upto_idx
         (λ j '(hc', root', store'),
            0 ≤ j ∧ hc' = hc ∧ P root' store' ∧
            ∀ j' c, j' < j → cell_at hc i j' = Some c → V i j')
         F fuel 0 _ _ _ (Z.of_nat (length col)))| |done].
    + destruct Hfuel; [by left|right]. specialize (Hexts _ _ Hcol). lia.
    + repeat split; [done..|]. intros j' c Hj' Hc.
      apply cell_at_range in Hc. lia.
    + intros j [[hc' r''] s''] (_ & -> & _). by eapply column_strlen.
    + intros j [[hc' r''] s''] (Hj & -> & Hs'' & Hdone') Hltj.
      destruct (lookup_lt_is_Some_2 col (Z.to_nat j)) as [c Hc]; [lia|].
      assert (cell_at hc i j = Some c) as Hcell
        by (by erewrite cell_at_lookup).
      eapply wp_mono; [by eapply Hcall| |done].
      intros [[hc' r3] s3] (-> & Hs3 & Hv). repeat split; [lia|done..|].
      intros j' c' Hj' Hc'. destruct (decide (j' = j)) as [->|?]; [done|].
      eapply Hdone'; [|done]. lia.
    + intros [[hc' r''] s''] (j' & (Hj' & -> & Hs'' & Hdone') & Hge).
      repeat split; [lia|done..|].
      intros i' j c Hi' Hc. destruct (decide (i' = i)) as [->|?].
      * eapply Hdone'; [|done].
        pose proof (cell_at_range _ _ _ _ Hc) as [_ Hj0].
        erewrite cell_at_lookup in Hc by done.
        apply lookup_lt_Some in Hc. lia.
      * eapply Hdone; [|done]. lia.
  - intros [[hc' r'] s'] (i & (Hi & -> & Hs' & Hdone) & Hge).
    repeat split; [done..|]. intros i' j c Hc. eapply Hdone; [|done].
    apply cell_at_range in Hc. lia.
Qed.
End find_words_loops.

(** ** The whole search *)

Lemma find_words_frame (fuel : nat) (hc : honeycomb) (root : trie_node)
    (store : word_store) :
  wp (find_words fuel hc root store) (λ '(hc', _, _), hc' = hc) (λ _, True).
Proof.
  unfold find_words.
  apply (wp_for_upto (λ '(hc', _, _), hc' = hc));
    [done|done|intros; apply wp_True|].
  intros i [[hc1 n1] s1] ->.
  apply (wp_for_upto (λ '(hc', _, _), hc' = hc));
    [done|done|intros; apply wp_True|].
  intros j [[hc2 n2] s2] ->.
  apply wp_bind. eapply wp_mono; [apply find_words_trie_frame| |done].
  by intros [[[hc3 n3] s3] w3] [-> _].
Qed.

Lemma find_words_found (fuel : nat) (hc : honeycomb) (root : trie_node)
    (store : word_store) :
  wp (find_words fuel hc root store)
     (λ '(_, root', store'), found [] root store root' store') (λ _, True).
Proof.
  unfold find_words.
  apply (wp_for_upto (λ '(_, root', store'), found [] root store root' store'));
    [apply found_refl|done|intros; apply wp_True|].
  intros i [[hc1 n1] s1] Hfound1.
  apply (wp_for_upto (λ '(_, root', store'), found [] root store root' store'));
    [done|done|intros; apply wp_True|].
  intros j [[hc2 n2] s2] Hfound2.
  apply wp_bind. eapply wp_mono; [apply find_words_trie_found| |done].
  intros [[[hc3 n3] s3] w3] Hfound3. by eapply found_trans.
Qed.


(** A top-level call on a cell whose char is not in 'A'..'Z' faults. *)
Lemma find_words_trie_top_upper (fuel : nat) (hc : honeycomb)
    (node : trie_node) (store : word_store) (column label : Z) (c : ascii) :
  trie_wf node = true → cell_at hc column label = Some c →
  wp (find_words_trie fuel hc node store [] column label)
     (λ _, is_upper c = true) (λ _, True).
Proof.
  intros Hnode Hcell. destruct fuel as [|fuel]; [done|].
  cbn [find_words_trie].
  wp_bind_case blocked Hblocked. rewrite andb_false_r.
  destruct (get_cell_grid hc column label c Hcell) as [-> Hnul]. cbn [bind].
  wp_bind_case word1 Hword1. wp_bind_case slot Hslot.
  assert (is_upper c = true) as Hupper by (apply (child_slot_wf node); eauto).
  destruct slot as [next_node|].
  - set (st := if is_end next_node then _ else _). destruct st as [store1 next1].
    wp_bind_case hc1 Hmark. wp_bind_case st2 Hloop. destruct st2 as [[[??]?]?].
    wp_bind_case hc3 Hrestore. by wp_bind_case word3 Hchop.
  - by wp_bind_case word3 Hchop.
Qed.

Lemma hc_upper_cells (hc : honeycomb) :
  hc_upper hc = true ↔
  hc_wf hc = true ∧ ∀ i j c, cell_at hc i j = Some c → is_upper c = true.
Proof.
  unfold hc_upper, hc_wf. destruct (column_strings hc) as [cols|] eqn:Hcols.
  2:{ split; [done|]. by intros [? _]. }
  rewrite forallb_forall. split.
  - intros H. split; [done|]. intros i j c (? & s & ? & Hi & Hj & Hs & Hc)%cell_at_Some.
    simplify_eq. eapply forallb_forall; [apply H|].
    + apply list_elem_of_In. by eapply list_elem_of_lookup_2.
    + apply list_elem_of_In. by eapply list_elem_of_lookup_2.
  - intros [_ H] s [i Hs]%list_elem_of_In%list_elem_of_lookup.
    apply forallb_forall. intros c [j Hc]%list_elem_of_In%list_elem_of_lookup.
    apply (H (Z.of_nat i) (Z.of_nat j)). apply cell_at_Some.
    exists cols, s. rewrite !Nat2Z.id. repeat split; (done || lia).
Qed.

(** The search of a well-formed grid with a well-formed trie, with enough
    fuel and a trie whose words fit the word buffer: it ends without fault
    exactly when every cell holds a char in 'A'..'Z', and faults on the
    child array otherwise. *)
Lemma find_words_safe (fuel : nat) (hc : honeycomb) (root : trie_node)
    (store : word_store) :
  hc_wf hc = true → trie_wf root = true →
  (trie_height root < fuel)%nat → (hc_extent hc < fuel)%nat →
  Z.of_nat (trie_height root) + 1 < WORD_SIZE →
  wp (find_words fuel hc root store)
     (λ '(hc', root', _),
        hc' = hc ∧ trie_wf root' = true ∧
        (trie_height root' ≤ trie_height root)%nat ∧ hc_upper hc = true)
     (λ f, f = ChildIndex ∧ hc_upper hc = false).
Proof.
  intros Hwf Hroot Hfuel Hext Hsize. pose proof Hwf as Hcols. unfold hc_wf in Hcols.
  destruct (column_strings hc) as [cols|] eqn:E; [clear Hcols|done].
  unfold find_words. eapply wp_mono;
    [apply (wp_find_words_loops hc cols
              (λ root' _, trie_wf root' = true ∧
                          (trie_height root' ≤ trie_height root)%nat)
              (λ i j, ∀ c, cell_at hc i j = Some c → is_upper c = true)
              (λ f, f = ChildIndex ∧ hc_upper hc = false)
              (λ i j '(hc, root, store),
                 let* '(hc, root, store, _) :=
                   find_words_trie fuel hc root store [] i j in
                 Done (hc, root, store))
              fuel E)| |done]; [auto| |done|].
  - intros i j c r s Hc [Hr Hh]. apply wp_bind.
    eapply wp_mono;
      [apply wp_and;
         [apply wp_and;
            [apply find_words_trie_frame
            |apply (find_words_trie_top_upper fuel hc r s i j c Hr Hc)]
         |apply (find_words_trie_safe fuel hc r s [] i j);
            [done|right; by rewrite Hc|done|lia|simpl; lia]]| |].
    + intros [[[hc3 n3] s3] w3] [[[-> _] Hupper] [Hn3 Hh3]]. cbn [wp].
      repeat split; [done|lia|]. intros c' Hc'. congruence.
    + intros f [_ [-> Hbad]]. split; [done|].
      destruct (hc_upper hc) eqn:Hup; [|done]. exfalso.
      apply hc_upper_cells in Hup as [_ Hup].
      destruct Hbad as [Hbad|[_ Hbad]].
      * apply Hbad. intros col lab c' Hc'. left. by eapply Hup.
      * rewrite Hc in Hbad. injection Hbad as ->. by apply Hup in Hc.
  - intros [[hc' r'] s'] (-> & [Hr Hh] & Hcells).
    repeat split; [done..|]. apply hc_upper_cells. split; [done|].
    intros i j c Hc. by eapply Hcells.
Qed.


(** *** A loop one of whose iterations establishes a lasting property *)

Lemma wp_for_each_once {A St : Type} (I G : St → Prop) (F : fault → Prop)
    (x0 : A) (xs : list A) (body : A → St → result St) (s : St) :
  I s → x0 ∈ xs →
  (∀ x s, x ∈ xs → I s →
     wp (body x s) (λ s', I s' ∧ (G s → G s') ∧ (x = x0 → G s')) F) →
  wp (for_each xs body s) (λ s', I s' ∧ G s') F.
Proof.
  intros Hs Hx0 Hbody.
  assert (G s ∨ x0 ∈ xs) as Hg by (by right). clear Hx0.
  revert s Hs Hg. induction xs as [|x xs IH]; intros s Hs Hg; simpl.
  - destruct Hg as [?|?%elem_of_nil]; done.
  - apply wp_bind. eapply wp_mono; [apply Hbody; [left|done]| |done].
    intros s' (Hs' & Hstable & Hx). apply IH; [|done|].
    + intros y t Hy. apply Hbody. by right.
    + destruct Hg as [?|[->|?]%elem_of_cons]; auto.
Qed.

(** ** Words that can be traced on the grid *)

Lemma terminal_negative (node : trie_node) (c : ascii) (k : list ascii) :
  CHAR_TO_INDEX c < 0 → ¬ terminal node (c :: k).
Proof.
  intros Hc (child & [H _]%child_slot_Done & _)%terminal_cons. lia.
Qed.

Lemma cell_at_hc_wf (hc : honeycomb) (column label : Z) (c : ascii) :
  cell_at hc column label = Some c → hc_wf hc = true.
Proof.
  intros (cols & ? & Hcols & _)%cell_at_Some. unfold hc_wf. by rewrite Hcols.
Qed.

Lemma traces_spells (hc : honeycomb) (word : list ascii) (path : list coord) :
  traces hc word path → spells hc word path.
Proof.
  intros (Hnd & Hchain & Hcells). split; [done|]. split; [done|].
  eapply Forall2_impl; [done|]. intros c p Hc. by apply get_cell_grid in Hc as [? _].
Qed.

(** Marking a cell that is not on the path leaves the cells of the path. *)
Lemma cells_mark (hc hc1 : honeycomb) (column label : Z) (c' : ascii)
    (s : list ascii) (p : list coord) :
  (∀ col lab, cell_at hc1 col lab =
     if bool_decide (col = column ∧ lab = label) then Some c'
     else cell_at hc col lab) →
  (column, label) ∉ p →
  Forall2 (λ c q, cell_at hc q.1 q.2 = Some c) s p →
  Forall2 (λ c q, cell_at hc1 q.1 q.2 = Some c) s p.
Proof.
  intros Hcells Hp H. induction H as [|c [col lab] s p Hc H IH]; [constructor|].
  apply not_elem_of_cons in Hp as [Hne Hp]. constructor; [|by apply IH].
  simpl in *. rewrite Hcells, bool_decide_eq_false_2; [done|].
  intros [-> ->]. done.
Qed.

Lemma adjacent_offsets (column label : Z) (q : coord) :
  adjacent (column, label) q →
  ∃ i j, i ∈ [-1; 0; 1] ∧ j ∈ [-1; 0; 1] ∧ q = (column + i, label + j) ∧
         negb ((column + i =? column) && (label + j =? label)) = true.
Proof.
  destruct q as [a b]. unfold adjacent; simpl. intros (Ha & Hb & Hne).
  exists (a - column), (b - label).
  assert (∀ x, Z.abs x ≤ 1 → x ∈ [-1; 0; 1]) as Hin.
  { intros x Hx. rewrite !elem_of_cons. lia. }
  split; [by apply Hin|]. split; [by apply Hin|].
  split; [f_equal; lia|].
  apply negb_true_iff, andb_false_iff.
  destruct (decide (a = column)) as [->|?]; [right|left]; apply Z.eqb_neq.
  - intros E. apply Hne. f_equal. lia.
  - lia.
Qed.

(** A call made on the first cell of a walk over cells of the grid leaves
    a trie in which the chars of the walk are not a word. *)
Lemma find_words_trie_clears (fuel : nat) (hc : honeycomb) (node : trie_node)
    (store : word_store) (word : list ascii) (column label : Z)
    (s : list ascii) (p : list coord) :
  traces hc s ((column, label) :: p) →
  wp (find_words_trie fuel hc node store word column label)
     (λ '(_, node', _, _), ¬ terminal node' s) (λ _, True).
Proof.
  revert hc node store word column label s p.
  induction fuel as [|fuel IH];
    intros hc node store word column label s p (Hnd & Hchain & Hcells); [done|].
  destruct s as [|c s]; [by apply Forall2_nil_cons_inv in Hcells|].
  apply Forall2_cons in Hcells as [Hcell Hcells]. simpl in Hcell.
  apply NoDup_cons in Hnd as [Hfresh Hnd].
  pose proof (cell_at_hc_wf _ _ _ _ Hcell) as Hwf.
  cbn [find_words_trie].
  rewrite cell_blocked_grid, Hcell by done. cbn [bind].
  destruct (_ && _) eqn:Hcond.
  { apply andb_true_iff in Hcond as [Hc%bool_decide_eq_true _]. subst c.
    cbn [wp]. by apply terminal_negative. }
  destruct (get_cell_grid _ _ _ _ Hcell) as [Hget Hnul]. rewrite Hget. cbn [bind].
  wp_bind_case word1 Hword1. apply strncat1_Done in Hword1 as [-> _]; [|done].
  wp_bind_case slot Hslot.
  destruct slot as [next_node|].
  2:{ rewrite chop_Done. cbn [bind wp]. rewrite terminal_cons.
      intros (child & Hch & _). congruence. }
  set (st := if is_end next_node then _ else _).
  assert (is_end st.2 = false) as Hend1.
  { unfold st. by destruct (is_end next_node) eqn:E. }
  destruct st as [store1 next1]. cbn [snd] in Hend1.
  destruct (set_cell_grid hc column label c "-") as (hc1 & Hmark & Hwf1 & _ & Hcells1);
    [done|done|].
  rewrite Hmark. cbn [bind].
  set (Inv := λ st : search_state,
              let '(hc', _, _, word') := st in hc' = hc1 ∧ word' = word ++ [c]).
  set (G := λ st : search_state, let '(_, n', _, _) := st in ¬ terminal n' s).
  apply wp_bind.
  apply (wp_mono _ (λ st, Inv st ∧ G st) _ (λ _, True) (λ _, True)); [| |done].
  2:{ intros [[[hc2 n2] s2] w2] [[-> ->] Hg]. cbn [wp].
      rewrite (set_cell_restore hc hc1 column label "-" c) by done. cbn [bind].
      rewrite chop_Done. cbn [bind wp].
      by rewrite (terminal_set_child _ _ _ _ _ _ Hslot), decide_True. }
  (* every call of the loops keeps the grid and the word, and clears flags only *)
  assert (∀ i j hc2 n2 s2 w2, Inv (hc2, n2, s2, w2) →
    wp (find_words_trie fuel hc2 n2 s2 w2 (column + i) (label + j))
       (λ st', Inv st' ∧ (G (hc2, n2, s2, w2) → G st')) (λ _, True)) as Hcall.
  { intros i j hc2 n2 s2 w2 [-> ->].
    eapply wp_mono;
      [apply wp_and; [apply find_words_trie_frame|apply find_words_trie_found]
      | |done].
    intros [[[hc3 n3] s3] w3] [[-> ->] (_ & _ & _ & _ & Hmono)].
    split; [done|]. intros Hg Hk. by apply Hg, Hmono. }
  destruct s as [|d s].
  - (* the word ends here: the flag of the child has been cleared *)
    apply wp_for_each.
    { split; [done|]. unfold G. by rewrite terminal_nil, Hend1. }
    intros i [[[hc2 n2] s2] w2] _ [HI Hg].
    apply wp_for_each; [done|].
    intros j [[[hc3 n3] s3] w3] _ [HI3 Hg3].
    destruct (negb (_ && _)); [|done].
    eapply wp_mono; [by apply Hcall| |done].
    intros st' [? Hst]. split; [done|]. by apply Hst.
  - (* the walk goes on to a neighbour, on which a call is made *)
    destruct p as [|q p]; [by apply Forall2_cons_nil_inv in Hcells|].
    destruct Hchain as [Hadj Hchain].
    apply adjacent_offsets in Hadj as (i0 & j0 & Hi0 & Hj0 & -> & Hne0).
    assert (traces hc1 (d :: s) ((column + i0, label + j0) :: p)) as Htraces.
    { split; [done|]. split; [done|]. by eapply cells_mark. }
    assert (∀ i j st, Inv st →
      wp ((λ '(hc2, n2, s2, w2),
             if negb ((column + i =? column) && (label + j =? label))
             then find_words_trie fuel hc2 n2 s2 w2 (column + i) (label + j)
             else Done (hc2, n2, s2, w2)) st)
         (λ st', Inv st' ∧ (G st → G st') ∧ (i = i0 → j = j0 → G st'))
         (λ _, True)) as Hbody.
    { intros i j [[[hc2 n2] s2] w2] HI.
      destruct (decide (i = i0 ∧ j = j0)) as [[-> ->]|Hij].
      - rewrite Hne0. destruct HI as [-> ->].
        eapply wp_mono;
          [apply wp_and; [apply Hcall; by split|by apply (IH _ _ _ _ _ _ _ _ Htraces)]
          | |done].
        intros [[[hc3 n3] s3] w3] [[? ?] ?]. done.
      - destruct (negb ((column + i =? column) && _)).
        + eapply wp_mono; [by apply Hcall| |done].
          intros st' [? ?]. split; [done|]. split; [done|]. intros ??. tauto.
        + cbn [wp]. split; [done|]. split; [done|]. intros ??. tauto. }
    apply (wp_for_each_once Inv G _ i0); [done|done|].
    intros i st _ HI.
    destruct (decide (i = i0)) as [->|Hi].
    + eapply wp_mono;
        [apply (wp_for_each_once Inv G _ j0); [done|done|]| |done].
      * intros j st' _ HI'. eapply wp_mono; [by apply Hbody| |done].
        intros st'' (? & ? & Hg). split; [done|]. split; [done|]. intros ->.
        by apply Hg.
      * intros st' [? ?]. done.
    + eapply wp_mono;
        [apply (wp_for_each (λ st', Inv st' ∧ (G st → G st'))); [done|]| |done].
      * intros j st' _ [HI' Hg']. eapply wp_mono; [by apply Hbody| |done].
        intros st'' (? & Hg'' & _). split; [done|]. intros ?. by apply Hg'', Hg'.
      * intros st' [? ?]. done.
Qed.

Lemma find_words_trie_clears_all (fuel : nat) (hc : honeycomb)
    (node : trie_node) (store : word_store) (word : list ascii)
    (column label : Z) :
  wp (find_words_trie fuel hc node store word column label)
     (λ '(_, node', _, _),
        ∀ s p, traces hc s ((column, label) :: p) → ¬ terminal node' s)
     (λ _, True).
Proof.
  destruct (find_words_trie fuel hc node store word column label)
    as [[[[hc' node'] store'] word']|] eqn:E; [|done].
  intros s p H.
  pose proof (find_words_trie_clears fuel hc node store word column label s p H)
    as H'.
  by rewrite E in H'.
Qed.

(** ** Words that leave the trie *)

Lemma kept_refl (word : list ascii) (node : trie_node) (store : word_store) :
  kept_or_recorded word node store node store.
Proof. exists []. rewrite app_nil_r. split; [done|]. by left. Qed.

Lemma kept_trans (word : list ascii) (n0 n1 n2 : trie_node)
    (s0 s1 s2 : word_store) :
  kept_or_recorded word n0 s0 n1 s1 → kept_or_recorded word n1 s1 n2 s2 →
  kept_or_recorded word n0 s0 n2 s2.
Proof.
  intros (new1 & -> & H1) (new2 & -> & H2). exists (new1 ++ new2).
  rewrite app_assoc. split; [done|]. intros k Hk. rewrite elem_of_app.
  destruct (H1 k Hk) as [Hk1|?]; [|tauto]. destruct (H2 k Hk1); tauto.
Qed.

Lemma kept_child (word : list ascii) (c : ascii) (node child child' : trie_node)
    (store store' : word_store) :
  child_slot node (CHAR_TO_INDEX c) = Done (Some child) →
  kept_or_recorded (word ++ [c]) child store child' store' →
  kept_or_recorded word node store (set_child node (CHAR_TO_INDEX c) child')
    store'.
Proof.
  intros Hslot (new & -> & Hnew). exists new. split; [done|].
  intros [|d k].
  - rewrite !terminal_nil. by left.
  - rewrite (terminal_set_child _ _ _ _ _ _ Hslot). case_decide as Hd; [|by left].
    subst d. intros (child0 & Hslot0 & Hk)%terminal_cons.
    rewrite Hslot in Hslot0. injection Hslot0 as <-.
    destruct (Hnew k Hk) as [?|Hin]; [by left|right].
    by rewrite <- app_assoc in Hin.
Qed.

Lemma kept_record (word : list ascii) (node node' : trie_node)
    (store store' : word_store) :
  kept_or_recorded word (set_end node false) (store ++ [word]) node' store' →
  kept_or_recorded word node store node' store'.
Proof.
  intros (new & -> & Hnew). exists (word :: new).
  rewrite <- app_assoc. split; [done|]. intros [|d k] Hk.
  - right. rewrite app_nil_r. by left.
  - destruct (Hnew (d :: k)) as [?|?]; [|by left|right; by right].
    revert Hk. rewrite !terminal_cons. by setoid_rewrite child_slot_set_end.
Qed.

Lemma find_words_trie_kept (fuel : nat) (hc : honeycomb) (node : trie_node)
    (store : word_store) (word : list ascii) (column label : Z) :
  wp (find_words_trie fuel hc node store word column label)
     (λ '(_, node', store', _), kept_or_recorded word node store node' store')
     (λ _, True).
Proof.
  revert hc node store word column label.
  induction fuel as [|fuel IH]; intros hc node store word column label; [done|].
  cbn [find_words_trie].
  wp_bind_case blocked Hblocked.
  destruct (_ && _); [apply kept_refl|].
  wp_bind_case c Hc. wp_bind_case word1 Hword1. wp_bind_case slot Hslot.
  pose proof (child_slot_not_NUL _ _ _ Hslot) as Hnul.
  apply strncat1_Done in Hword1 as [-> _]; [|done].
  destruct slot as [next_node|]; [|rewrite chop_Done; apply kept_refl].
  set (st := if is_end next_node then _ else _).
  assert (∀ n' s', kept_or_recorded (word ++ [c]) st.2 st.1 n' s' →
                   kept_or_recorded (word ++ [c]) next_node store n' s') as Hst.
  { unfold st. destruct (is_end next_node); [|done].
    intros n' s'. apply kept_record. }
  destruct st as [store1 next1]. cbn [fst snd] in Hst.
  wp_bind_case hc1 Hmark.
  apply wp_bind.
  eapply wp_mono;
    [apply (wp_for_each (λ '(_, n', s', word'),
              word' = word ++ [c] ∧
              kept_or_recorded (word ++ [c]) next1 store1 n' s')
              (λ _, True))| |done].
  - split; [done|apply kept_refl].
  - intros i [[[hc2 n2] s2] w2] _ [-> Hkept].
    apply wp_for_each; [done|].
    intros j [[[hc3 n3] s3] w3] _ [-> Hkept3].
    destruct (negb _); [|done].
    eapply wp_mono; [apply wp_and; [apply IH|apply find_words_trie_frame]| |done].
    intros [[[hc4 n4] s4] w4] [Hkept4 [_ ->]]. split; [done|].
    by eapply kept_trans.
  - intros [[[hc2 n2] s2] w2] [-> Hkept]. cbn [wp].
    destruct (set_cell hc2 column label c); [|done]. cbn [bind].
    rewrite chop_Done. cbn [bind wp].
    eapply kept_child; [done|]. by apply Hst.
Qed.

Lemma find_words_kept (fuel : nat) (hc : honeycomb) (root : trie_node)
    (store : word_store) :
  wp (find_words fuel hc root store)
     (λ '(_, root', store'), kept_or_recorded [] root store root' store')
     (λ _, True).
Proof.
  unfold find_words.
  apply (wp_for_upto
           (λ '(_, root', store'), kept_or_recorded [] root store root' store'));
    [apply kept_refl|done|intros; apply wp_True|].
  intros i [[hc1 n1] s1] Hkept1.
  apply (wp_for_upto
           (λ '(_, root', store'), kept_or_recorded [] root store root' store'));
    [done|done|intros; apply wp_True|].
  intros j [[hc2 n2] s2] Hkept2.
  apply wp_bind. eapply wp_mono; [apply find_words_trie_kept| |done].
  intros [[[hc3 n3] s3] w3] Hkept3. by eapply kept_trans.
Qed.

(** ** The calls of [find_words], cell by cell *)

(** The two loops of [find_words], for a body [call] that keeps the grid
    and an invariant [P] of the rest of the state: the body establishes for
    its cell a property [V] of the state that later calls keep, so that at
    the end [V] holds for every cell. *)
Section find_words_cells.
Context {X : Type} (hc : honeycomb) (cols : list (list ascii)).
Context (P : trie_node → X → Prop) (V : Z → Z → trie_node → X → Prop).
Context (F : fault → Prop).
Context (call : Z → Z → honeycomb * trie_node * X →
                result (honeycomb * trie_node * X)).
Context (fuel : nat).
Hypothesis Hcols : column_strings hc = Some cols.
Hypothesis Hfuel : F OutOfFuel ∨ (hc_extent hc < fuel)%nat.
Hypothesis Hcall : ∀ i j c root store,
  cell_at hc i j = Some c → P root store →
  wp (call i j (hc, root, store))
     (λ '(hc', root', store'),
        hc' = hc ∧ P root' store' ∧ V i j root' store' ∧
        ∀ i' j', V i' j' root store → V i' j' root' store') F.

Lemma wp_find_words_cells (root : trie_node) (store : X) :
  P root store →
  wp (for_upto fuel 0 (λ '(hc', _, _), Done (number_columns hc'))
        (λ i st,
          for_upto fuel 0
            (λ '(hc', _, _),
               let* col := arr_read (columns hc') i in strlen col)
            (call i) st)
        (hc, root, store))
     (λ '(hc', root', store'),
        hc' = hc ∧ P root' store' ∧
        ∀ i j c, cell_at hc i j = Some c → V i j root' store')
     F.
Proof.
  intros Hs.
  destruct (hc_extent_columns hc cols Hcols) as (Hn & Hext & Hexts).
  eapply wp_mono;
    [apply (wp_for_upto_idx
       (λ i '(hc', root', store'),
          0 ≤ i ∧ hc' = hc ∧ P root' store' ∧
          ∀ i' j c, i' < i → cell_at hc i' j = Some c → V i' j root' store')
       F fuel 0 _ _ _ (number_columns hc))| |done].
  - destruct Hfuel; [by left|right; lia].
  - repeat split; [done..|]. intros i' j c Hi' Hc.
    apply cell_at_range in Hc. lia.
  - by intros i [[hc' r'] s'] (_ & -> & _).
  - intros i [[hc' r'] s'] (Hi & -> & Hs' & Hdone) Hlt.
    destruct (lookup_lt_is_Some_2 cols (Z.to_nat i)) as [col Hcol]; [lia|].
    eapply wp_mono;
      [apply (wp_for_upto_idx
         (λ j '(hc', root', store'),
            0 ≤ j ∧ hc' = hc ∧ P root' store' ∧
            (∀ i' j' c, i' < i → cell_at hc i' j' = Some c →
                        V i' j' root' store') ∧
            ∀ j' c, j' < j → cell_at hc i j' = Some c → V i j' root' store')
         F fuel 0 _ _ _ (Z.of_nat (length col)))| |done].
    + destruct Hfuel; [by left|right]. specialize (Hexts _ _ Hcol). lia.
    + repeat split; [done..|]. intros j' c Hj' Hc.
      apply cell_at_range in Hc. lia.
    + intros j [[hc' r''] s''] (_ & -> & _). by eapply column_strlen.
    + intros j [[hc' r''] s''] (Hj & -> & Hs'' & Hcolumns & Hdone') Hltj.
      destruct (lookup_lt_is_Some_2 col (Z.to_nat j)) as [c Hc]; [lia|].
      assert (cell_at hc i j = Some c) as Hcell
        by (by erewrite cell_at_lookup).
      eapply wp_mono; [by eapply Hcall| |done].
      intros [[hc' r3] s3] (-> & Hs3 & Hv & Hkeep).
      repeat split; [lia|done..| |].
      * intros i' j' c' Hi' Hc'. by eapply Hkeep, Hcolumns.
      * intros j' c' Hj' Hc'. destruct (decide (j' = j)) as [->|?]; [done|].
        eapply Hkeep, Hdone'; [|done]. lia.
    + intros [[hc' r''] s''] (j' & (Hj' & -> & Hs'' & Hcolumns & Hdone') & Hge).
      repeat split; [lia|done..|].
      intros i' j c Hi' Hc. destruct (decide (i' = i)) as [->|?].
      * eapply Hdone'; [|done].
        pose proof (cell_at_range _ _ _ _ Hc) as [_ Hj0].
        erewrite cell_at_lookup in Hc by done.
        apply lookup_lt_Some in Hc. lia.
      * eapply Hcolumns; [|done]. lia.
  - intros [[hc' r'] s'] (i & (Hi & -> & Hs' & Hdone) & Hge).
    repeat split; [done..|]. intros i' j c Hc. eapply Hdone; [|done].
    apply cell_at_range in Hc. lia.
Qed.
End find_words_cells.

(** After a run, no walk over cells of the grid spells a word of the
    trie. *)
Lemma find_words_clears (fuel : nat) (hc : honeycomb) (root : trie_node)
    (store : word_store) :
  wp (find_words fuel hc root store)
     (λ '(_, root', _),
        ∀ w p, p ≠ [] → traces hc w p → ¬ terminal root' w)
     (λ _, True).
Proof.
  destruct (column_strings hc) as [cols|] eqn:Hcols.
  2:{ destruct (find_words fuel hc root store) as [[[hc' root'] store']|];
        [|done].
      intros w [|[i j] p] Hp (_ & _ & Hcells); [done|].
      destruct w as [|c w]; [by apply Forall2_nil_cons_inv in Hcells|].
      apply Forall2_cons in Hcells as [Hc%cell_at_hc_wf _].
      unfold hc_wf in Hc. by rewrite Hcols in Hc. }
  unfold find_words. eapply wp_mono;
    [apply (wp_find_words_cells hc cols (λ _ _, True)
              (λ i j root' _, ∀ w p, traces hc w ((i, j) :: p) →
                                     ¬ terminal root' w)
              (λ _, True)
              (λ i j '(hc, root, store),
                 let* '(hc, root, store, _) :=
                   find_words_trie fuel hc root store [] i j in
                 Done (hc, root, store))
              fuel Hcols)| |done]; [by left| |done|].
  - intros i j c r s Hc _. apply wp_bind.
    eapply wp_mono;
      [apply wp_and;
         [apply wp_and;
            [apply find_words_trie_frame|apply find_words_trie_found]
         |apply find_words_trie_clears_all]| |done].
    intros [[[hc3 n3] s3] w3] [[[-> _] (_ & _ & _ & _ & Hmono)] Hclears].
    cbn [wp]. split; [done|]. split; [done|]. split; [done|].
    intros i' j' Hv w p Htraces Hk. by eapply Hv, Hmono.
  - intros [[hc' r'] s'] (_ & _ & Hv) w [|[i j] p] Hp Htraces; [done|].
    destruct Htraces as (Hnd & Hchain & Hcells).
    destruct w as [|c w]; [by apply Forall2_nil_cons_inv in Hcells|].
    pose proof Hcells as [Hc _]%Forall2_cons. simpl in Hc.
    by eapply Hv.
Qed.

(** ** The cells of the recorded words *)

(** Every word in the store of the search with coordinates is traced by
    its coordinates over cells of the grid [hc0] in which the search
    started. *)
Lemma find_words_trie_path_traces (hc0 : honeycomb) (fuel : nat)
    (hc : honeycomb) (node : trie_node) (pstore : path_store)
    (word : list ascii) (path : list coord) (column label : Z) :
  hc_wf hc = true →
  word ≠ [] ∨ is_Some (cell_at hc column label) →
  (∀ p, p ∈ path → cell_at hc p.1 p.2 = Some "-"%char) →
  (∀ q, q ∉ path → cell_at hc q.1 q.2 = cell_at hc0 q.1 q.2) →
  NoDup path →
  chain (path ++ [(column, label)]) →
  Forall2 (λ c p, cell_at hc0 p.1 p.2 = Some c) word path →
  Forall (λ wp, wp.1 ≠ [] ∧ traces hc0 wp.1 wp.2) pstore →
  wp (find_words_trie_path fuel hc node pstore word path column label)
     (λ '(hc', _, pstore', word'),
        hc' = hc ∧ word' = word ∧
        Forall (λ wp, wp.1 ≠ [] ∧ traces hc0 wp.1 wp.2) pstore')
     (λ _, True).
Proof.
  revert hc node pstore word path column label.
  induction fuel as [|fuel IH];
    intros hc node pstore word path column label
      Hwf Hpre Hmarked Hagree Hnodup Hchain Hword Hstore; [done|].
  cbn [find_words_trie_path].
  wp_bind_case blocked Hblocked.
  destruct (_ && _) eqn:Hcond; [done|].
  destruct (search_cell hc word column label blocked) as (c & Hcell & Hc);
    [done..|].
  destruct (get_cell_grid hc column label c Hcell) as [Hget Hnul].
  rewrite Hget. cbn [bind].
  wp_bind_case word1 Hword1. wp_bind_case slot Hslot.
  apply strncat1_Done in Hword1 as [-> _]; [|done].
  destruct slot as [next_node|]; [|by rewrite chop_Done].
  assert ((column, label) ∉ path) as Hfresh.
  { intros Hin. destruct word as [|d word].
    - apply Forall2_nil_inv_l in Hword as ->. by apply elem_of_nil in Hin.
    - apply Hmarked in Hin. simpl in Hin. rewrite Hcell in Hin.
      injection Hin as ->. by apply Hc. }
  assert (traces hc0 (word ++ [c]) (path ++ [(column, label)])) as Htraces.
  { split; [|split; [done|]].
    - apply NoDup_app. split; [done|]. split; [|apply NoDup_singleton].
      intros p Hp ->%list_elem_of_singleton. done.
    - apply Forall2_app; [done|]. constructor; [|done].
      rewrite <- (Hagree (column, label) Hfresh). done. }
  set (st := if is_end next_node then _ else _).
  assert (Forall (λ wp, wp.1 ≠ [] ∧ traces hc0 wp.1 wp.2) st.1) as Hstore1.
  { unfold st. destruct (is_end next_node); [|done].
    apply Forall_app. split; [done|]. constructor; [|done].
    split; [by destruct word|done]. }
  destruct st as [pstore1 next1]. cbn [fst] in Hstore1.
  destruct (set_cell_grid hc column label c "-")
    as (hc1 & Hmark & Hwf1 & _ & Hcells1); [done|done|].
  rewrite Hmark. cbn [bind].
  apply wp_bind.
  eapply wp_mono;
    [apply (wp_for_each (λ '(hc', _, pstore', word'),
              hc' = hc1 ∧ word' = word ++ [c] ∧
              Forall (λ wp, wp.1 ≠ [] ∧ traces hc0 wp.1 wp.2) pstore')
              (λ _, True))| |done].
  - by repeat split.
  - intros i [[[hc2 n2] s2] w2] Hi (-> & -> & Hs2).
    apply wp_for_each; [by repeat split|].
    intros j [[[hc3 n3] s3] w3] Hj (-> & -> & Hs3).
    destruct (negb (_ && _)) eqn:Hne; [|by repeat split].
    apply IH; [done|left; by destruct word| | |by apply Htraces|
               |by apply Htraces|done].
    + intros [col lab] Hp. simpl. rewrite Hcells1. case_bool_decide; [done|].
      apply elem_of_app in Hp as [Hp|Hp%list_elem_of_singleton].
      * by apply Hmarked in Hp.
      * injection Hp as -> ->. by destruct H.
    + intros [col lab] [Hq Hq']%not_elem_of_app. simpl.
      rewrite Hcells1, bool_decide_eq_false_2; [exact (Hagree (col, lab) Hq)|].
      intros [-> ->]. apply Hq'. by left.
    + apply chain_snoc; [done|]. by apply neighbour_adjacent.
  - intros [[[hc2 n2] s2] w2] (-> & -> & Hs2). cbn [wp].
    rewrite (set_cell_restore hc hc1 column label "-" c) by done. cbn [bind].
    by rewrite chop_Done.
Qed.

Lemma find_words_path_traces (fuel : nat) (hc : honeycomb) (root : trie_node)
    (pstore : path_store) :
  hc_wf hc = true →
  Forall (λ wp, wp.1 ≠ [] ∧ traces hc wp.1 wp.2) pstore →
  wp (find_words_path fuel hc root pstore)
     (λ '(_, _, pstore'),
        Forall (λ wp, wp.1 ≠ [] ∧ traces hc wp.1 wp.2) pstore')
     (λ _, True).
Proof.
  intros Hwf Hstore. pose proof Hwf as Hcols. unfold hc_wf in Hcols.
  destruct (column_strings hc) as [cols|] eqn:E; [clear Hcols|done].
  unfold find_words_path. eapply wp_mono;
    [apply (wp_find_words_loops hc cols
              (λ _ pstore', Forall (λ wp, wp.1 ≠ [] ∧ traces hc wp.1 wp.2) pstore')
              (λ _ _, True) (λ _, True)
              (λ i j '(hc, root, store),
                 let* '(hc, root, store, _) :=
                   find_words_trie_path fuel hc root store [] [] i j in
                 Done (hc, root, store))
              fuel E)| |done]; [by left| |done|].
  - intros i j c r s Hc Hs. apply wp_bind.
    eapply wp_mono;
      [apply (find_words_trie_path_traces hc);
         [done|right; by rewrite Hc|by intros p ?%elem_of_nil|done|constructor
         |done|constructor|done]
      | |done].
    by intros [[[hc3 n3] s3] w3] (-> & _ & Hs3).
  - by intros [[hc' r'] s'] (_ & Hs & _).
Qed.

(** The words that a run on a well-formed grid records, from an empty
    store: the words of the trie that a walk over cells of the grid
    spells, each once. *)
Lemma find_words_traced (fuel : nat) (hc hc' : honeycomb)
    (root root' : trie_node) (store' : word_store) :
  hc_wf hc = true →
  find_words fuel hc root [] = Done (hc', root', store') →
  NoDup store' ∧
  ∀ w, w ∈ store' ↔ w ≠ [] ∧ terminal root w ∧ ∃ p, traces hc w p.
Proof.
  intros Hwf Hrun.
  pose proof (wp_Done_inv _ _ _ _ (find_words_found fuel hc root []) Hrun)
    as (new & Hnew & Hnodup & Hfound & _).
  simpl in Hnew. subst new. split; [done|]. intros w. split.
  - intros Hw. destruct (Hfound w Hw) as (s & -> & Hs & _).
    pose proof (find_words_path_erase fuel hc root [] []) as Hsim.
    pose proof (find_words_path_traces fuel hc root [] Hwf (Forall_nil_2 _))
      as Htraces.
    simpl in Hsim. rewrite Hrun in Hsim.
    destruct (find_words_path fuel hc root []) as [[[hc2 root2] pstore]|];
      [|done].
    destruct Hsim as (_ & _ & ->). cbn [wp] in Htraces. simpl in Hw.
    apply list_elem_of_fmap in Hw as ([w p] & -> & Hwp).
    rewrite Forall_forall in Htraces. destruct (Htraces _ Hwp) as [Hne Hp].
    simpl in *. eauto.
  - intros (Hne & Hw & p & Hp).
    pose proof (wp_Done_inv _ _ _ _ (find_words_kept fuel hc root []) Hrun)
      as (new & Hnew & Hkept).
    simpl in Hnew. subst new.
    pose proof (wp_Done_inv _ _ _ _ (find_words_clears fuel hc root []) Hrun)
      as Hclears.
    destruct (Hkept w Hw) as [Hw'|?]; [|done].
    exfalso. apply (Hclears w p); [|done|done].
    intros ->. destruct Hp as (_ & _ & Hcells).
    apply Forall2_nil_inv_r in Hcells. done.
Qed.

(** ** Order of insertion *)

Lemma insert_trie_Fault (key : list ascii) (t : trie_node) (f : fault) :
  insert_trie t key = Fault f → f = ChildIndex.
Proof.
  revert t. induction key as [|c key IH]; intros t; simpl; [done|].
  destruct (child_slot t (CHAR_TO_INDEX c)) as [slot|f'] eqn:Hslot; simpl.
  - destruct (insert_trie _ key) as [child'|f'] eqn:Hins; simpl; [done|].
    intros [= <-]. by eapply IH.
  - intros [= <-]. by apply child_slot_Fault in Hslot as [-> _].
Qed.

Lemma insert_trie_set_end (key : list ascii) (t : trie_node) :
  insert_trie (set_end t true) key =
  let* t' := insert_trie t key in Done (set_end t' true).
Proof.
  destruct key as [|c key]; simpl; [done|].
  rewrite child_slot_set_end.
  destruct (child_slot t (CHAR_TO_INDEX c)) as [slot|]; simpl; [|done].
  by destruct (insert_trie _ key).
Qed.

Lemma set_child_comm (t : trie_node) (i j : Z) (c d : trie_node) :
  0 ≤ i → 0 ≤ j → i ≠ j →
  set_child (set_child t i c) j d = set_child (set_child t j d) i c.
Proof.
  intros Hi Hj Hne. unfold set_child; simpl. f_equal.
  apply list_insert_insert_ne. lia.
Qed.

(** Two insertions give the same trie in either order, and fail in either
    order if they fail in one. *)
Lemma insert_trie_comm (a b : list ascii) (t : trie_node) :
  (let* t1 := insert_trie t a in insert_trie t1 b) =
  (let* t1 := insert_trie t b in insert_trie t1 a).
Proof.
  revert b t. induction a as [|c a IH]; intros b t.
  { cbn [insert_trie bind]. rewrite insert_trie_set_end.
    by destruct (insert_trie t b). }
  destruct b as [|d b].
  { change (insert_trie t []) with (Done (set_end t true)). cbn [bind].
    rewrite insert_trie_set_end. by destruct (insert_trie t (c :: a)). }
  cbn [insert_trie]. cbv zeta.
  destruct (decide (CHAR_TO_INDEX c = CHAR_TO_INDEX d)) as [E|Hne].
  - apply CHAR_TO_INDEX_inj in E as <-.
    destruct (child_slot t (CHAR_TO_INDEX c)) as [slot|] eqn:Hslot; [|done].
    cbn [bind].
    set (child := match slot with Some n => n | None => get_trienode end).
    specialize (IH b child).
    destruct (insert_trie child a) as [ca|fa] eqn:Ha;
      destruct (insert_trie child b) as [cb|fb] eqn:Hb; cbn [bind] in *.
    + erewrite !child_slot_set_child by done. cbn [bind].
      rewrite IH. destruct (insert_trie cb a); [|done]. cbn [bind].
      by rewrite !set_child_set_child.
    + erewrite child_slot_set_child by done. cbn [bind]. by rewrite IH.
    + erewrite child_slot_set_child by done. cbn [bind]. by rewrite <- IH.
    + apply insert_trie_Fault in Ha, Hb. by subst.
  - destruct (child_slot t (CHAR_TO_INDEX c)) as [slotc|fc] eqn:Hc;
      destruct (child_slot t (CHAR_TO_INDEX d)) as [slotd|fd] eqn:Hd;
      cbn [bind].
    + pose proof Hc as [Hc0 _]%child_slot_Done.
      pose proof Hd as [Hd0 _]%child_slot_Done.
      destruct (insert_trie _ a) as [ca|fa] eqn:Ha;
        destruct (insert_trie _ b) as [cb|fb] eqn:Hb; cbn [bind].
      * rewrite !child_slot_set_child_ne, Hc, Hd by done. cbn [bind].
        rewrite Ha, Hb. cbn [bind]. by rewrite set_child_comm.
      * rewrite child_slot_set_child_ne, Hd by done. cbn [bind].
        by rewrite Hb.
      * rewrite child_slot_set_child_ne, Hc by done. cbn [bind].
        by rewrite Ha.
      * apply insert_trie_Fault in Ha, Hb. by subst.
    + assert (fd = ChildIndex) as ->
        by (by apply child_slot_Fault in Hd as [-> _]).
      pose proof Hc as [Hc0 _]%child_slot_Done.
      destruct (insert_trie _ a) as [ca|fa] eqn:Ha; cbn [bind].
      * by rewrite child_slot_set_child_ne, Hd by done.
      * apply insert_trie_Fault in Ha. by subst.
    + assert (fc = ChildIndex) as ->
        by (by apply child_slot_Fault in Hc as [-> _]).
      pose proof Hd as [Hd0 _]%child_slot_Done.
      destruct (insert_trie _ b) as [cb|fb] eqn:Hb; cbn [bind].
      * by rewrite child_slot_set_child_ne, Hc by done.
      * apply insert_trie_Fault in Hb. by subst.
    + apply child_slot_Fault in Hc as [-> _], Hd as [-> _]. done.
Qed.

Lemma bind_assoc {A B C : Type} (m : result A) (f : A → result B)
    (g : B → result C) :
  bind (bind m f) g = bind m (λ a, bind (f a) g).
Proof. by destruct m. Qed.

Lemma insert_words_cons (t : trie_node) (key : list ascii)
    (keys : list (list ascii)) :
  insert_words t (key :: keys) =
  let* t1 := insert_trie t key in insert_words t1 keys.
Proof. done. Qed.

Lemma insert_words_Permutation (keys keys' : list (list ascii))
    (t : trie_node) :
  keys ≡ₚ keys' → insert_words t keys = insert_words t keys'.
Proof.
  intros H. revert t. induction H as [|x l l' _ IH|x y l|l l' l'' _ IH _ IH'];
    intros t.
  - done.
  - rewrite !insert_words_cons. destruct (insert_trie t x); simpl; [apply IH|done].
  - transitivity (let* t2 := (let* t1 := insert_trie t y in insert_trie t1 x) in
                  insert_words t2 l); [by rewrite bind_assoc|].
    rewrite insert_trie_comm. by rewrite bind_assoc.
  - by rewrite IH.
Qed.

(** A key that comes again later in the list can be left out. *)
Lemma insert_words_again (t : trie_node) (key : list ascii)
    (keys : list (list ascii)) :
  key ∈ keys → insert_words t (key :: keys) = insert_words t keys.
Proof.
  intros (l & Hl)%elem_of_Permutation.
  rewrite (insert_words_Permutation (key :: keys) (key :: key :: l))
    by (by constructor).
  rewrite (insert_words_Permutation keys (key :: l)) by done.
  rewrite !insert_words_cons. destruct (insert_trie t key) as [t1|] eqn:E; [|done].
  cbn [bind]. by rewrite insert_words_cons, (insert_trie_twice _ _ _ E).
Qed.

Lemma insert_words_remove_dups (t : trie_node) (keys : list (list ascii)) :
  insert_words t (remove_dups keys) = insert_words t keys.
Proof.
  revert t. induction keys as [|key keys IH]; intros t; [done|].
  cbn [remove_dups]. case_decide as Hin.
  - by rewrite IH, insert_words_again.
  - rewrite !insert_words_cons. destruct (insert_trie t key); simpl; [apply IH|done].
Qed.

(** ** Lines of the dictionary *)

Lemma fgets_chars_app (n : nat) (fp l r : list ascii) :
  fgets_chars n fp = (l, r) → fp = l ++ r.
Proof.
  revert fp l r. induction n as [|n IH]; intros [|c fp] l r; simpl;
    try (by intros [= <- <-]).
  case_bool_decide; [by intros [= <- <-]|].
  destruct (fgets_chars n fp) as [l' r'] eqn:E. intros [= <- <-].
  by rewrite (IH _ _ _ E).
Qed.

Lemma fgets_chars_length (n : nat) (fp l r : list ascii) :
  fgets_chars n fp = (l, r) → (length l ≤ n)%nat.
Proof.
  revert fp l r. induction n as [|n IH]; intros [|c fp] l r; simpl;
    try (intros [= <- <-]; simpl; lia).
  case_bool_decide; [intros [= <- <-]; simpl; lia|].
  destruct (fgets_chars n fp) as [l' r'] eqn:E. intros [= <- <-].
  apply IH in E. simpl. lia.
Qed.

Lemma fgets_chars_nonempty (n : nat) (c : ascii) (fp l r : list ascii) :
  fgets_chars (S n) (c :: fp) = (l, r) → l ≠ [].
Proof.
  simpl. case_bool_decide; [by intros [= <- <-]|].
  destruct (fgets_chars n fp) as [l' r']. by intros [= <- <-].
Qed.

(** Only the last char of a line can be a newline. *)
Lemma fgets_chars_newline (n : nat) (fp l r : list ascii) :
  fgets_chars n fp = (l, r) → newline ∉ removelast l.
Proof.
  revert fp l r. induction n as [|n IH]; intros [|c fp] l r; simpl;
    try (intros [= <- <-]; apply not_elem_of_nil).
  case_bool_decide as Hc; [intros [= <- <-]; apply not_elem_of_nil|].
  destruct (fgets_chars n fp) as [l' r'] eqn:E. intros [= <- <-].
  apply IH in E. destruct l' as [|d l']; [apply not_elem_of_nil|].
  change (removelast (c :: d :: l')) with (c :: removelast (d :: l')).
  apply not_elem_of_cons. split; [congruence|done].
Qed.

(** A line of [n] chars without newline fills the buffer; what follows is
    left in the stream. *)
Lemma fgets_chars_full (n : nat) (l rest : list ascii) :
  newline ∉ l → length l = n → fgets_chars n (l ++ rest) = (l, rest).
Proof.
  revert n. induction l as [|c l IH]; intros n Hnl <-; [done|].
  apply not_elem_of_cons in Hnl as [Hc Hl]. cbn [length app fgets_chars].
  rewrite bool_decide_eq_false_2 by done. by rewrite IH.
Qed.

Lemma c_string_length (l : list ascii) : (length (c_string l) ≤ length l)%nat.
Proof.
  induction l as [|c l IH]; simpl; [done|]. destruct (is_NUL c); simpl; lia.
Qed.

Lemma chop_length (word word' : list ascii) :
  chop word = Done word' → length word = S (length word').
Proof.
  unfold chop. destruct word as [|c word] using rev_ind; [done|].
  rewrite removelast_last, length_app. simpl.
  destruct (word ++ [c]) eqn:E; [by destruct word|]. intros [= <-]. lia.
Qed.

(** ** Height of the trie of a dictionary *)

Lemma slots_height_insert_max (ch : list (option trie_node)) (i : nat)
    (c : trie_node) :
  (slots_height (<[i := Some c]> ch)
   ≤ Nat.max (slots_height ch) (S (trie_height c)))%nat.
Proof.
  revert i. induction ch as [|o ch IH]; intros [|i]; simpl; try lia.
  - destruct o; lia.
  - specialize (IH i). destruct o; lia.
Qed.

Lemma insert_trie_height (key : list ascii) (t t' : trie_node) :
  insert_trie t key = Done t' →
  (trie_height t' ≤ Nat.max (trie_height t) (length key))%nat.
Proof.
  revert t t'. induction key as [|c key IH]; intros t t'; simpl.
  - intros [= <-]. rewrite trie_height_set_end. lia.
  - intros (slot & Hslot & (child' & Hins & [= <-])%bind_Done)%bind_Done.
    apply IH in Hins. rewrite !trie_height_slots. simpl.
    pose proof (slots_height_insert_max (next t)
                  (Z.to_nat (CHAR_TO_INDEX c)) child') as Hmax.
    rewrite <- trie_height_slots in Hmax |- *.
    destruct slot as [child|].
    + apply trie_height_child in Hslot. lia.
    + change (trie_height get_trienode) with 0%nat in Hins. lia.
Qed.

Lemma fill_trie_height (fuel : nat) (root t : trie_node) (fp : list ascii) :
  fill_trie fuel root fp = Done t →
  (trie_height t ≤ Nat.max (trie_height root) (Z.to_nat (WORD_SIZE - 2)))%nat.
Proof.
  revert root fp. induction fuel as [|fuel IH]; intros root fp; [done|].
  cbn [fill_trie]. unfold fgets. destruct fp as [|c fp]; [intros [= <-]; lia|].
  destruct (fgets_chars _ (c :: fp)) as [line fp'] eqn:Hline.
  intros (word & Hword & (root' & Hins & Hrest)%bind_Done)%bind_Done.
  apply IH in Hrest. apply insert_trie_height in Hins.
  apply chop_length in Hword. apply fgets_chars_length in Hline.
  pose proof (c_string_length line). unfold WORD_SIZE in *. lia.
Qed.

(** ** The word buffer *)

Lemma arr_read_Fault (a : list (option buffer)) (i : Z) (f : fault) :
  arr_read a i = Fault f → f = GridAccess.
Proof.
  unfold arr_read. destruct (i <? 0); [by intros [= <-]|].
  destruct (a !! Z.to_nat i) as [[b|]|]; by intros [= <-].
Qed.

Lemma strlen_Fault (b : buffer) (f : fault) :
  strlen b = Fault f → f = BufferAccess.
Proof.
  induction b as [|[c|] b IH]; simpl; try (by intros [= <-]).
  destruct (is_NUL c); [done|]. destruct (strlen b); [done|].
  intros [= <-]. by apply IH.
Qed.

Lemma get_cell_Fault (hc : honeycomb) (column label : Z) (f : fault) :
  get_cell hc column label = Fault f → f = GridAccess ∨ f = BufferAccess.
Proof.
  unfold get_cell. destruct (arr_read _ _) as [col|] eqn:E; simpl.
  - unfold buf_read. destruct (label <? 0); [intros [= <-]; by right|].
    destruct (col !! Z.to_nat label) as [[c|]|]; intros [= <-]; by right.
  - intros [= <-]. apply arr_read_Fault in E. by left.
Qed.

Lemma set_cell_Fault (hc : honeycomb) (column label : Z) (c : ascii)
    (f : fault) :
  set_cell hc column label c = Fault f → f = GridAccess ∨ f = BufferAccess.
Proof.
  unfold set_cell. destruct (arr_read _ _) as [col|] eqn:E; simpl.
  - unfold buf_write. destruct (_ && _); simpl.
    + unfold set_column, arr_write. destruct (_ && _); [done|].
      intros [= <-]. by left.
    + intros [= <-]. by right.
  - intros [= <-]. apply arr_read_Fault in E. by left.
Qed.

Lemma cell_blocked_Fault (hc : honeycomb) (column label : Z) (f : fault) :
  cell_blocked hc column label = Fault f → f = GridAccess ∨ f = BufferAccess.
Proof.
  unfold cell_blocked. destruct (_ || _); [done|].
  destruct (arr_read _ _) as [col|] eqn:E; simpl.
  2:{ intros [= <-]. apply arr_read_Fault in E. by left. }
  destruct (strlen col) as [len|] eqn:Hlen; simpl.
  2:{ intros [= <-]. apply strlen_Fault in Hlen. by right. }
  destruct (len <=? label); [done|].
  unfold buf_read. destruct (label <? 0); [intros [= <-]; by right|].
  destruct (col !! Z.to_nat label) as [[c|]|]; simpl; try done;
    intros [= <-]; by right.
Qed.

(** With a trie whose words fit the word buffer, no call writes beyond the
    buffer. *)
Lemma find_words_trie_fits (fuel : nat) (hc : honeycomb)
    (node : trie_node) (store : word_store) (word : list ascii)
    (column label : Z) :
  Z.of_nat (length word) + Z.of_nat (trie_height node) + 1 < WORD_SIZE →
  wp (find_words_trie fuel hc node store word column label)
     (λ '(_, node', _, _), (trie_height node' ≤ trie_height node)%nat)
     (λ f, f ≠ WordOverflow).
Proof.
  revert hc node store word column label.
  induction fuel as [|fuel IH];
    intros hc node store word column label Hsize; [done|].
  cbn [find_words_trie].
  wp_bind_case blocked Hblocked.
  2:{ by apply cell_blocked_Fault in Hblocked as [->| ->]. }
  destruct (_ && _); [cbn [wp]; lia|].
  wp_bind_case c Hc.
  2:{ by apply get_cell_Fault in Hc as [->| ->]. }
  wp_bind_case word1 Hword1.
  2:{ apply strncat1_Fault in Hword1 as [_ ?]. lia. }
  wp_bind_case slot Hslot.
  2:{ by apply child_slot_Fault in Hslot as [-> _]. }
  pose proof (child_slot_not_NUL _ _ _ Hslot) as Hnul.
  apply strncat1_Done in Hword1 as [-> _]; [|done].
  destruct slot as [next_node|]; [|rewrite chop_Done; cbn [bind wp]; lia].
  pose proof (trie_height_child _ _ _ Hslot) as Hheight.
  set (st := if is_end next_node then _ else _).
  assert (trie_height st.2 = trie_height next_node) as Hheight1.
  { unfold st. destruct (is_end next_node); [|done]. apply trie_height_set_end. }
  destruct st as [store1 next1]. cbn [snd] in Hheight1.
  wp_bind_case hc1 Hmark.
  2:{ by apply set_cell_Fault in Hmark as [->| ->]. }
  apply wp_bind.
  eapply wp_mono;
    [apply (wp_for_each (λ '(_, n', _, word'),
              word' = word ++ [c] ∧
              (trie_height n' ≤ trie_height next_node)%nat)
              (λ f, f ≠ WordOverflow))| |done].
  - split; [done|lia].
  - intros i [[[hc2 n2] s2] w2] _ (-> & Hh2).
    apply wp_for_each; [done|].
    intros j [[[hc3 n3] s3] w3] _ (-> & Hh3).
    destruct (negb (_ && _)); [|done].
    eapply wp_mono;
      [apply wp_and; [apply find_words_trie_frame|apply IH]| |].
    + rewrite length_app. simpl. lia.
    + intros [[[hc4 n4] s4] w4] [[_ ->] Hh4]. split; [done|lia].
    + by intros f [_ Hf].
  - intros [[[hc2 n2] s2] w2] (-> & Hh2). cbn [wp].
    wp_bind_case hc3 Hrestore.
    2:{ by apply set_cell_Fault in Hrestore as [->| ->]. }
    rewrite chop_Done. cbn [bind wp]. by eapply trie_height_set_child.
Qed.

Lemma find_words_fits (fuel : nat) (hc : honeycomb) (root : trie_node)
    (store : word_store) :
  Z.of_nat (trie_height root) + 1 < WORD_SIZE →
  wp (find_words fuel hc root store)
     (λ '(_, root', _), (trie_height root' ≤ trie_height root)%nat)
     (λ f, f ≠ WordOverflow).
Proof.
  intros Hsize. unfold find_words.
  apply (wp_for_upto
           (λ '(_, root', _), (trie_height root' ≤ trie_height root)%nat));
    [done|done|by intros [[??]?] _|].
  intros i [[hc1 n1] s1] Hh1.
  apply (wp_for_upto
           (λ '(_, root', _), (trie_height root' ≤ trie_height root)%nat));
    [done|done| |].
  { intros [[hc2 n2] s2] _.
    destruct (arr_read (columns hc2) i) as [col|] eqn:E; simpl.
    - destruct (strlen col) eqn:E'; simpl; [done|].
      by apply strlen_Fault in E' as ->.
    - by apply arr_read_Fault in E as ->. }
  intros j [[hc2 n2] s2] Hh2.
  apply wp_bind. eapply wp_mono;
    [apply (find_words_trie_fits fuel hc2 n2 s2 [] i j); simpl; lia| |done].
  intros [[[hc3 n3] s3] w3] Hh3. cbn [wp]. lia.
Qed.

(** ** Dictionaries of upper-case words *)

Lemma is_upper_not_NUL (c : ascii) : is_upper c = true ∨ c = newline → c ≠ NUL.
Proof. intros [H| ->] E; [by subst c|done]. Qed.

Lemma chop_cons (c : ascii) (l : list ascii) :
  chop (c :: l) = Done (removelast (c :: l)).
Proof. done. Qed.

Lemma elem_of_removelast {A : Type} (x : A) (l : list A) :
  x ∈ removelast l → x ∈ l.
Proof.
  destruct l as [|y l] using rev_ind; [done|].
  rewrite removelast_last, elem_of_app. by left.
Qed.

(** ** White space in the input *)

Lemma skip_space_not_space (fp : list ascii) (c : ascii) (fp' : list ascii) :
  skip_space fp = c :: fp' → isspace c = false.
Proof.
  induction fp as [|d fp IH]; simpl; [done|].
  destruct (isspace d) eqn:E; [done|]. by intros [= <- <-].
Qed.

Lemma symbols_skip_space (fp : list ascii) :
  symbols fp = match skip_space fp with
               | [] => []
               | c :: fp' => c :: symbols fp'
               end.
Proof.
  induction fp as [|d fp IH]; simpl; [done|]. by destruct (isspace d).
Qed.

Lemma fscanf_char_layout (b : buffer) (i : Z) (fp1 fp2 : list ascii) :
  symbols fp1 = symbols fp2 →
  sim (λ '(b1, r1) '(b2, r2), b1 = b2 ∧ symbols r1 = symbols r2)
    (fscanf_char b i fp1) (fscanf_char b i fp2).
Proof.
  rewrite (symbols_skip_space fp1), (symbols_skip_space fp2).
  unfold fscanf_char.
  destruct (skip_space fp1) as [|c1 r1], (skip_space fp2) as [|c2 r2];
    try done.
  intros [= <- Hr]. by destruct (buf_write b i c1).
Qed.

Lemma fill_honeycomb_layer_layout (layers i : Z) (center : buffer)
    (rl ll : list (option buffer)) (fp1 fp2 : list ascii) :
  symbols fp1 = symbols fp2 →
  sim same_symbols
    (fill_honeycomb_layer layers i (center, rl, ll, fp1))
    (fill_honeycomb_layer layers i (center, rl, ll, fp2)).
Proof.
  intros Hfp. unfold fill_honeycomb_layer. cbv zeta.
  eapply sim_bind; [by apply fscanf_char_layout|].
  intros [c1 r1] [c2 r2] [<- Hr].
  eapply sim_bind.
  { apply (sim_for_each (λ '(b1, r1) '(b2, r2), b1 = b2 ∧ symbols r1 = symbols r2));
      [done|].
    intros j [b1 q1] [b2 q2] [<- Hq]. by apply fscanf_char_layout. }
  intros [right1 q1] [right2 q2] [<- Hq].
  apply sim_refl_bind. intros right' _.
  apply sim_refl_bind. intros rl' _.
  eapply sim_bind; [by apply fscanf_char_layout|].
  intros [c3 r3] [c4 r4] [<- Hr3].
  eapply sim_bind.
  { apply (sim_for_each (λ '(b1, r1) '(b2, r2), b1 = b2 ∧ symbols r1 = symbols r2));
      [done|].
    intros j [b1 p1] [b2 p2] [<- Hp]. by apply fscanf_char_layout. }
  intros [left1 p1] [left2 p2] [<- Hp].
  apply sim_refl_bind. intros left' _.
  apply sim_refl_bind. intros ll' _. done.
Qed.

(** ** Where the chars of the cells come from *)

Lemma chars_from_malloc (cs : list ascii) (n : Z) : chars_from cs (malloc n).
Proof.
  intros p c Hp. unfold malloc in Hp. by apply lookup_replicate in Hp as [? _].
Qed.

Lemma chars_from_write (cs : list ascii) (b : buffer) (i : Z) (c : ascii) :
  chars_from cs b → c = NUL ∨ c ∈ cs →
  wp (buf_write b i c) (chars_from cs) (λ _, True).
Proof.
  intros Hb Hc. unfold buf_write. destruct (_ && _); [|done].
  intros p d Hp. destruct (decide (p = Z.to_nat i)) as [->|Hne].
  - apply list_lookup_insert_Some in Hp as [(_ & [= <-] & _)|[? _]]; done.
  - rewrite list_lookup_insert_ne in Hp by done. by eapply Hb.
Qed.

Lemma chars_from_read (cs : list ascii) (b : buffer) (i : Z) :
  chars_from cs b → wp (buf_read b i) (λ c, c = NUL ∨ c ∈ cs) (λ _, True).
Proof.
  intros Hb. unfold buf_read. destruct (i <? 0); [done|].
  destruct (b !! Z.to_nat i) as [[c|]|] eqn:E; [|done..]. by eapply Hb.
Qed.

Lemma chars_from_strncpy_pad (cs : list ascii) (n : nat) (dst : buffer) (d : Z) :
  chars_from cs dst → wp (strncpy_pad dst d n) (chars_from cs) (λ _, True).
Proof.
  revert dst d. induction n as [|n IH]; intros dst d Hdst; simpl; [done|].
  apply wp_bind. eapply wp_mono; [apply chars_from_write; [done|by left]| |done].
  intros dst' Hdst'. by apply IH.
Qed.

Lemma chars_from_strncpy (cs : list ascii) (n : nat) (dst : buffer) (d : Z)
    (src : buffer) (s : Z) :
  chars_from cs dst → chars_from cs src →
  wp (strncpy dst d src s n) (chars_from cs) (λ _, True).
Proof.
  revert dst d s. induction n as [|n IH]; intros dst d s Hdst Hsrc; [done|].
  cbn [strncpy]. apply wp_bind.
  eapply wp_mono; [by apply chars_from_read| |done].
  intros c Hc. destruct (is_NUL c); [by apply chars_from_strncpy_pad|].
  apply wp_bind. eapply wp_mono; [by apply chars_from_write| |done].
  intros dst' Hdst'. by apply IH.
Qed.

Lemma arrays_from_replicate (cs : list ascii) (n : nat) :
  arrays_from cs (replicate n None).
Proof. intros i b Hi. by apply lookup_replicate in Hi as [? _]. Qed.

Lemma arrays_from_read (cs : list ascii) (a : list (option buffer)) (i : Z) :
  arrays_from cs a → wp (arr_read a i) (chars_from cs) (λ _, True).
Proof.
  intros Ha. unfold arr_read. destruct (i <? 0); [done|].
  destruct (a !! Z.to_nat i) as [[b|]|] eqn:E; [|done..]. by eapply Ha.
Qed.

Lemma arrays_from_write (cs : list ascii) (a : list (option buffer)) (i : Z)
    (b : buffer) :
  arrays_from cs a → chars_from cs b →
  wp (arr_write a i b) (arrays_from cs) (λ _, True).
Proof.
  intros Ha Hb. unfold arr_write. destruct (_ && _); [|done].
  intros j b' Hj. destruct (decide (j = Z.to_nat i)) as [->|Hne].
  - apply list_lookup_insert_Some in Hj as [(_ & [= <-] & _)|[? _]]; done.
  - rewrite list_lookup_insert_ne in Hj by done. by eapply Ha.
Qed.

Lemma arrays_from_set_column (cs : list ascii) (hc : honeycomb) (i : Z)
    (b : buffer) :
  arrays_from cs (columns hc) → chars_from cs b →
  wp (set_column hc i b) (λ hc', arrays_from cs (columns hc')) (λ _, True).
Proof.
  intros Ha Hb. unfold set_column. apply wp_bind.
  eapply wp_mono; [by apply arrays_from_write| |done]. done.
Qed.

Lemma chars_from_fscanf_char (cs : list ascii) (b : buffer) (i : Z)
    (fp : list ascii) :
  chars_from cs b → symbols fp ⊆ cs →
  wp (fscanf_char b i fp)
     (λ '(b', fp'), chars_from cs b' ∧ symbols fp' ⊆ cs) (λ _, True).
Proof.
  intros Hb Hfp. rewrite symbols_skip_space in Hfp. unfold fscanf_char.
  destruct (skip_space fp) as [|c fp'].
  { split; [done|]. by intros c ?%elem_of_nil. }
  apply wp_bind. eapply wp_mono; [apply chars_from_write; [done|]| |done].
  - right. apply Hfp. by left.
  - intros b' Hb'. split; [done|]. intros d Hd. apply Hfp. by right.
Qed.

Lemma arrays_from_hcomb_store_column (cs : list ascii)
    (layers : list (option buffer)) (n : Z) (right : bool) (i : Z)
    (hc : honeycomb) :
  arrays_from cs layers → arrays_from cs (columns hc) →
  wp (hcomb_store_column layers n right i hc)
     (λ hc', arrays_from cs (columns hc')) (λ _, True).
Proof.
  intros Hly Hhc. unfold hcomb_store_column. cbv zeta.
  apply wp_bind. eapply wp_mono;
    [apply chars_from_write; [apply chars_from_malloc|by left]| |done].
  intros b1 Hb1.
  apply wp_bind. eapply wp_mono; [by apply arrays_from_read| |done].
  intros layer_i Hlayer_i.
  apply wp_bind. eapply wp_mono; [by apply chars_from_strncpy| |done].
  intros b2 Hb2.
  apply wp_bind. eapply wp_mono;
    [apply (wp_for_each (chars_from cs) (λ _, True)); [done|]| |done].
  - intros j b _ Hb.
    apply wp_bind. eapply wp_mono; [by apply arrays_from_read| |done].
    intros layer_j Hlayer_j.
    apply wp_bind. eapply wp_mono; [by apply chars_from_strncpy| |done].
    intros b' Hb'. by apply chars_from_strncpy.
  - intros b3 Hb3. destruct right; by apply arrays_from_set_column.
Qed.

Lemma arrays_from_hcomb_store (cs : list ascii) (hc : honeycomb)
    (layers : list (option buffer)) (n : Z) (right : bool) :
  arrays_from cs layers → arrays_from cs (columns hc) →
  wp (hcomb_store hc layers n right)
     (λ hc', arrays_from cs (columns hc')) (λ _, True).
Proof.
  intros Hly Hhc. unfold hcomb_store.
  apply (wp_for_each (λ hc', arrays_from cs (columns hc'))); [done|].
  intros i hc' _ Hhc'. by apply arrays_from_hcomb_store_column.
Qed.

Lemma chars_from_fill_honeycomb_layer (cs : list ascii) (layers i : Z)
    (center : buffer) (rl ll : list (option buffer)) (fp : list ascii) :
  chars_from cs center → arrays_from cs rl → arrays_from cs ll →
  symbols fp ⊆ cs →
  wp (fill_honeycomb_layer layers i (center, rl, ll, fp))
     (λ '(center', rl', ll', fp'),
        chars_from cs center' ∧ arrays_from cs rl' ∧ arrays_from cs ll' ∧
        symbols fp' ⊆ cs)
     (λ _, True).
Proof.
  intros Hcenter Hrl Hll Hfp. unfold fill_honeycomb_layer. cbv zeta.
  apply wp_bind. eapply wp_mono; [by apply chars_from_fscanf_char| |done].
  intros [center1 fp1] [Hcenter1 Hfp1].
  apply wp_bind. eapply wp_mono;
    [apply (wp_for_each (λ '(b, fp'), chars_from cs b ∧ symbols fp' ⊆ cs)
              (λ _, True))| |done].
  { split; [apply chars_from_malloc|done]. }
  { intros j [b fp'] _ [Hb Hfp']. by apply chars_from_fscanf_char. }
  intros [right fp2] [Hright Hfp2].
  apply wp_bind. eapply wp_mono; [apply chars_from_write; [done|by left]| |done].
  intros right' Hright'.
  apply wp_bind. eapply wp_mono; [by apply arrays_from_write| |done].
  intros rl' Hrl'.
  apply wp_bind. eapply wp_mono; [by apply chars_from_fscanf_char| |done].
  intros [center3 fp3] [Hcenter3 Hfp3].
  apply wp_bind. eapply wp_mono;
    [apply (wp_for_each (λ '(b, fp'), chars_from cs b ∧ symbols fp' ⊆ cs)
              (λ _, True))| |done].
  { split; [apply chars_from_malloc|done]. }
  { intros j [b fp'] _ [Hb Hfp']. by apply chars_from_fscanf_char. }
  intros [left fp4] [Hleft Hfp4].
  apply wp_bind. eapply wp_mono; [apply chars_from_write; [done|by left]| |done].
  intros left' Hleft'.
  apply wp_bind. eapply wp_mono; [by apply arrays_from_write| |done].
  intros ll' Hll'. done.
Qed.

Lemma arrays_from_build_honeycomb (layers : Z) (fp : list ascii) :
  wp (build_honeycomb layers fp)
     (λ '(hc, _), arrays_from (symbols fp) (columns hc)) (λ _, True).
Proof.
  set (cs := symbols fp). unfold build_honeycomb. apply wp_bind.
  apply (wp_mono _ (λ hc, arrays_from cs (columns hc)) _ (λ _, True));
    [|clear|done].
  { unfold create_honeycomb. destruct (0 <? _); [|done].
    apply arrays_from_replicate. }
  intros hc Hhc. unfold fill_honeycomb.
  apply wp_bind. eapply wp_mono;
    [apply (chars_from_fscanf_char cs); [apply chars_from_malloc|done]| |done].
  intros [center1 fp1] [Hcenter1 Hfp1].
  apply wp_bind. eapply wp_mono; [apply chars_from_write; [done|by left]| |done].
  intros center2 Hcenter2.
  apply wp_bind.
  apply (wp_mono _ (λ '(hc', center', _),
                      arrays_from cs (columns hc') ∧ chars_from cs center')
           _ (λ _, True)); [| |done].
  - destruct (1 <? layers); [|done].
    apply wp_bind. eapply wp_mono;
      [apply (wp_for_each (λ '(center', rl', ll', fp'),
                 chars_from cs center' ∧ arrays_from cs rl' ∧
                 arrays_from cs ll' ∧ symbols fp' ⊆ cs) (λ _, True))| |done].
    + repeat split; [done|apply arrays_from_replicate..|done].
    + intros i [[[c3 rl3] ll3] fp3] _ (? & ? & ? & ?).
      by apply chars_from_fill_honeycomb_layer.
    + intros [[[c3 rl3] ll3] fp3] (Hc3 & Hrl3 & Hll3 & _).
      apply wp_bind. eapply wp_mono; [by apply arrays_from_hcomb_store| |done].
      intros hc1 Hhc1.
      apply wp_bind. eapply wp_mono; [by apply arrays_from_hcomb_store| |done].
      intros hc2 Hhc2. done.
  - intros [[hc' center'] fp'] [Hhc' Hcenter'].
    apply wp_bind. eapply wp_mono; [by apply arrays_from_set_column| |done].
    done.
Qed.

(** ** Comparison of strings *)

Lemma uchar_bound (c : ascii) : 0 ≤ uchar c < 256.
Proof. apply nat_of_ascii_bound. Qed.

Lemma uchar_inj (c d : ascii) : uchar c = uchar d → c = d.
Proof.
  unfold uchar. intros H%Nat2Z.inj.
  by rewrite <- (ascii_nat_embedding c), <- (ascii_nat_embedding d), H.
Qed.

Lemma uchar_NUL (c : ascii) : uchar c = 0 ↔ c = NUL.
Proof. split; [intros H; by apply uchar_inj|by intros ->]. Qed.

Lemma strcmp_swap (s1 s2 : list ascii) : strcmp s2 s1 = - strcmp s1 s2.
Proof.
  revert s2. induction s1 as [|c1 s1 IH]; intros [|c2 s2]; simpl; try lia.
  rewrite (Z.eqb_sym (uchar c2)).
  destruct (Z.eqb_spec (uchar c1) (uchar c2)) as [E|?]; [|lia].
  rewrite <- E. destruct (uchar c1 =? 0); [done|apply IH].
Qed.

Lemma strcmp_trans (s1 s2 s3 : list ascii) :
  strcmp s1 s2 ≤ 0 → strcmp s2 s3 ≤ 0 → strcmp s1 s3 ≤ 0.
Proof.
  revert s2 s3. induction s1 as [|c1 s1 IH]; intros [|c2 s2] [|c3 s3]; simpl;
    intros H12 H23;
    repeat match goal with
           | c : ascii |- _ =>
               lazymatch goal with
               | _ : 0 ≤ uchar c < 256 |- _ => fail
               | _ => pose proof (uchar_bound c)
               end
           end;
    repeat match goal with
           | |- context [?a =? ?b] => destruct (Z.eqb_spec a b)
           | H : context [?a =? ?b] |- _ => destruct (Z.eqb_spec a b)
           end;
    try lia.
  by eapply IH.
Qed.

(** On strings, [strcmp] gives 0 only for equal strings. *)
Lemma strcmp_eq (s1 s2 : list ascii) :
  NUL ∉ s1 → NUL ∉ s2 → strcmp s1 s2 = 0 → s1 = s2.
Proof.
  revert s2. induction s1 as [|c1 s1 IH]; intros [|c2 s2] H1 H2; simpl.
  - done.
  - apply not_elem_of_cons in H2 as [H2 _]. intros E.
    destruct H2. symmetry. apply uchar_NUL. lia.
  - apply not_elem_of_cons in H1 as [H1 _]. intros E.
    destruct H1. symmetry. apply uchar_NUL. lia.
  - apply not_elem_of_cons in H1 as [Hc1 H1], H2 as [Hc2 H2].
    destruct (Z.eqb_spec (uchar c1) (uchar c2)) as [E|?]; [|lia].
    apply uchar_inj in E as <-.
    destruct (Z.eqb_spec (uchar c1) 0) as [E0|?].
    { by apply uchar_NUL in E0. }
    intros E. f_equal. by apply IH.
Qed.

Lemma strcmp_refl (s : list ascii) : strcmp s s = 0.
Proof.
  induction s as [|c s IH]; simpl; [done|].
  rewrite Z.eqb_refl. by destruct (uchar c =? 0).
Qed.

#[local] Instance comparator_total : Total (λ a b, comparator a b ≤ 0).
Proof.
  intros a b. unfold comparator. rewrite (strcmp_swap a b). lia.
Qed.

#[local] Instance comparator_trans : Transitive (λ a b, comparator a b ≤ 0).
Proof. intros a b c. apply strcmp_trans. Qed.

(** ** Sorting and printing the store *)

Lemma qsort_sorted (store : word_store) :
  StronglySorted (λ a b, comparator a b ≤ 0) (qsort comparator store) ∧
  qsort comparator store ≡ₚ store.
Proof.
  split.
  - apply (StronglySorted_merge_sort _).
  - apply merge_sort_Permutation.
Qed.

(** The strings of the array after [qsort] do not depend on how the
    library sorts. *)
Lemma qsort_unique (store sorted : word_store) :
  Forall (λ w, NUL ∉ w) store →
  sorted ≡ₚ store → Sorted (λ a b, comparator a b ≤ 0) sorted →
  sorted = qsort comparator store.
Proof.
  intros Hnul Hperm Hsorted. destruct (qsort_sorted store) as [Hq Hqperm].
  apply (StronglySorted_unique_strong (λ a b, comparator a b ≤ 0));
    [|by apply Sorted_StronglySorted; [apply _|]|done|by rewrite Hqperm].
  intros a b Ha Hb Hab Hba. rewrite Forall_forall in Hnul.
  apply strcmp_eq.
  - apply Hnul. by rewrite <- Hperm.
  - apply Hnul. by rewrite <- Hqperm.
  - unfold comparator in *. rewrite (strcmp_swap a b) in Hba. lia.
Qed.

Lemma print_distinct_lines (prev : list ascii) (words : list (list ascii))
    (out : list ascii) :
  print_distinct prev words out =
  out ++ lines_text (distinct_lines prev words).
Proof.
  revert prev out. induction words as [|w words IH]; intros prev out; simpl.
  - by rewrite app_nil_r.
  - rewrite IH. destruct (negb _); [|done].
    unfold printf_line, lines_text. simpl. by rewrite <- !app_assoc.
Qed.

Lemma distinct_lines_sorted (prev : list ascii) (words : list (list ascii)) :
  Forall (λ w, NUL ∉ w) (prev :: words) →
  StronglySorted (λ a b, comparator a b ≤ 0) (prev :: words) →
  StronglySorted (λ a b, strcmp a b < 0) (prev :: distinct_lines prev words) ∧
  ∀ w, w ∈ prev :: distinct_lines prev words ↔ w ∈ prev :: words.
Proof.
  revert prev. induction words as [|w words IH]; intros prev Hnul Hsorted.
  { simpl. split; [repeat constructor|done]. }
  apply Forall_cons in Hnul as [Hprev Hnul].
  apply StronglySorted_inv in Hsorted as [Hsorted Hall].
  destruct (IH w Hnul Hsorted) as [IHs IHin].
  pose proof Hnul as [Hw _]%Forall_cons.
  apply Forall_cons in Hall as [Hpw Hall]. unfold comparator in Hpw.
  cbn [distinct_lines]. destruct (Z.eqb_spec (strcmp w prev) 0) as [E|Hne];
    cbn [negb].
  - apply strcmp_eq in E as ->; [|done..]. split; [done|].
    intros x. rewrite IHin, !elem_of_cons. tauto.
  - split.
    + constructor; [done|]. apply Forall_forall. intros x Hx.
      apply IHin in Hx. rewrite (strcmp_swap prev w) in Hne.
      assert (strcmp prev w < 0) as Hlt by lia.
      apply elem_of_cons in Hx as [->|Hx]; [done|].
      apply StronglySorted_inv in Hsorted as [_ Hwall].
      rewrite Forall_forall in Hwall. specialize (Hwall x Hx).
      unfold comparator in Hwall.
      destruct (Z.le_gt_cases 0 (strcmp prev x)) as [Hge|?]; [|lia].
      exfalso. assert (strcmp x prev ≤ 0) as Hxp
        by (rewrite (strcmp_swap prev x); lia).
      pose proof (strcmp_trans _ _ _ Hwall Hxp) as Hwp.
      rewrite (strcmp_swap prev w) in Hwp. lia.
    + intros x. rewrite !(elem_of_cons _ x prev). by rewrite IHin.
Qed.

(** ** From the files to the output *)

Lemma max_list_lt (l : list nat) (n : nat) :
  (0 < n)%nat → Forall (λ x, (x < n)%nat) l → (max_list l < n)%nat.
Proof.
  intros Hn. induction 1 as [|x l Hx _ IH]; simpl; lia.
Qed.

Lemma insert_words_height (keys : list (list ascii)) (t t' : trie_node)
    (n : nat) :
  insert_words t keys = Done t' →
  (trie_height t ≤ n)%nat → Forall (λ k, (length k ≤ n)%nat) keys →
  (trie_height t' ≤ n)%nat.
Proof.
  unfold insert_words. revert t.
  induction keys as [|key keys IH]; intros t; simpl.
  - by intros [= <-].
  - intros (t1 & H1 & H)%bind_Done Ht [Hkey Hkeys]%Forall_cons.
    eapply IH; [done| |done]. apply insert_trie_height in H1. lia.
Qed.

Lemma key_upper_not_in (key : list ascii) (c : ascii) :
  key_upper key = true → is_upper c = false → c ∉ key.
Proof.
  intros Hkey Hc Hin. unfold key_upper in Hkey. rewrite forallb_forall in Hkey.
  apply list_elem_of_In, Hkey in Hin. congruence.
Qed.

Lemma is_string_string (b : buffer) (n : Z) :
  is_string b n →
  ∃ s, buffer_string b = Some s ∧ Z.of_nat (length s) = n.
Proof.
  intros (s & -> & Hlen & Hs)%is_string_chars. exists s. split; [|done].
  by apply buffer_string_map_Some.
Qed.

(** The extent of a grid whose columns are no longer than their number. *)
Lemma hc_extent_bound (hc : honeycomb) (n : Z) :
  hc_wf hc = true →
  number_columns hc = n →
  (∀ i, 0 ≤ i < n →
     ∃ b m, columns hc !! Z.to_nat i = Some (Some b) ∧ is_string b m ∧ m ≤ n) →
  Z.of_nat (hc_extent hc) ≤ n.
Proof.
  intros Hwf Hn Hcols. unfold hc_wf in Hwf. unfold hc_extent.
  destruct (column_strings hc) as [cols|] eqn:E; [clear Hwf|done].
  pose proof E as [Hnum Hall]%column_strings_Some.
  pose proof (Forall2_length _ _ _ Hall) as Hlen.
  assert (Forall (λ x, Z.of_nat x ≤ n) (map length cols)) as Hle.
  { apply Forall_forall. intros x (s & -> & [i Hs]%list_elem_of_lookup)%list_elem_of_fmap.
    destruct (Forall2_lookup_r _ _ _ _ _ Hall Hs) as (o & Ho & b & -> & Hb).
    destruct (Hcols (Z.of_nat i)) as (b' & m & Hb' & Hstr & Hm).
    { apply lookup_lt_Some in Ho. lia. }
    rewrite Nat2Z.id, Ho in Hb'. injection Hb' as <-.
    apply is_string_string in Hstr as (s' & Hs' & <-). congruence. }
  assert (Z.of_nat (max_list (map length cols)) ≤ n).
  { assert (0 ≤ n) as H0 by lia. revert Hle H0. generalize (map length cols).
    induction 1; simpl; lia. }
  lia.
Qed.

(** The store of a search in which every word is a string is printed as
    its words in ascending order, each once. *)
Lemma print_store_lines (store : word_store) :
  Forall (λ w, NUL ∉ w) store →
  ∃ lines,
    print_store store =
      (if decide (lines = [])
       then String.list_ascii_of_string "No words found." ++ [newline]
       else lines_text lines) ∧
    StronglySorted (λ a b, strcmp a b < 0) lines ∧
    ∀ w, w ∈ lines ↔ w ∈ store.
Proof.
  intros Hnul. unfold print_store.
  destruct (qsort_sorted store) as [Hsorted Hperm].
  destruct store as [|w store].
  { exists []. split; [done|]. split; [constructor|done]. }
  replace (Z.of_nat (length (w :: store)) =? 0) with false
    by (symmetry; apply Z.eqb_neq; simpl; lia).
  destruct (qsort comparator (w :: store)) as [|w0 words] eqn:Hq.
  { by apply Permutation_nil_cons in Hperm. }
  exists (w0 :: distinct_lines w0 words).
  rewrite decide_False by done. rewrite print_distinct_lines.
  destruct (distinct_lines_sorted w0 words) as [Hs Hin]; [|done|].
  { by rewrite Hperm. }
  split; [done|]. split; [done|].
  intros x. rewrite Hin. by rewrite Hperm.
Qed.

(** ** Nodes of the trie during the search *)

Lemma trie_shape_set_end (t : trie_node) (b : bool) :
  trie_shape (set_end t b) = trie_shape t.
Proof. by destruct t. Qed.

Lemma trie_shape_set_child (t child child' : trie_node) (i : Z) :
  child_slot t i = Done (Some child) →
  trie_shape child' = trie_shape child →
  trie_shape (set_child t i child') = trie_shape t.
Proof.
  intros [_ Hi]%child_slot_Done Hshape. destruct t as [b ch]. simpl in *.
  f_equal. rewrite list_fmap_insert, Hshape. apply list_insert_id.
  by rewrite list_lookup_fmap, Hi.
Qed.

Lemma find_words_trie_shape (fuel : nat) (hc : honeycomb) (node : trie_node)
    (store : word_store) (word : list ascii) (column label : Z) :
  wp (find_words_trie fuel hc node store word column label)
     (λ '(_, node', _, _), trie_shape node' = trie_shape node) (λ _, True).
Proof.
  revert hc node store word column label.
  induction fuel as [|fuel IH]; intros hc node store word column label; [done|].
  cbn [find_words_trie].
  wp_bind_case blocked Hblocked.
  destruct (_ && _); [done|].
  wp_bind_case c Hc. wp_bind_case word1 Hword1. wp_bind_case slot Hslot.
  destruct slot as [next_node|]; [|by wp_bind_case word2 Hword2].
  set (st := if is_end next_node then _ else _).
  assert (trie_shape st.2 = trie_shape next_node) as Hshape1.
  { unfold st. destruct (is_end next_node); [|done]. apply trie_shape_set_end. }
  destruct st as [store1 next1]. cbn [snd] in Hshape1.
  wp_bind_case hc1 Hmark.
  apply wp_bind.
  eapply wp_mono;
    [apply (wp_for_each (λ '(_, n', _, _), trie_shape n' = trie_shape next_node)
              (λ _, True))| |done].
  - done.
  - intros i [[[hc2 n2] s2] w2] _ Hn2.
    apply wp_for_each; [done|].
    intros j [[[hc3 n3] s3] w3] _ Hn3.
    destruct (negb _); [|done].
    eapply wp_mono; [apply IH| |done].
    intros [[[hc4 n4] s4] w4] Hn4. congruence.
  - intros [[[hc2 n2] s2] w2] Hn2. cbn [wp].
    wp_bind_case hc3 Hrestore. wp_bind_case word3 Hword3.
    by eapply trie_shape_set_child.
Qed.

Lemma find_words_shape (fuel : nat) (hc : honeycomb) (root : trie_node)
    (store : word_store) :
  wp (find_words fuel hc root store)
     (λ '(_, root', _), trie_shape root' = trie_shape root) (λ _, True).
Proof.
  unfold find_words.
  apply (wp_for_upto (λ '(_, root', _), trie_shape root' = trie_shape root));
    [done|done|intros; apply wp_True|].
  intros i [[hc1 n1] s1] Hn1.
  apply (wp_for_upto (λ '(_, root', _), trie_shape root' = trie_shape root));
    [done|done|intros; apply wp_True|].
  intros j [[hc2 n2] s2] Hn2.
  apply wp_bind. eapply wp_mono; [apply find_words_trie_shape| |done].
  intros [[[hc3 n3] s3] w3] Hn3. cbn [wp]. congruence.
Qed.

(** ** A call outside the columns *)

Lemma find_words_trie_outside (fuel : nat) (hc : honeycomb) (node : trie_node)
    (store : word_store) (column label : Z) :
  hc_wf hc = true →
  column < 0 ∨ number_columns hc ≤ column →
  find_words_trie (S fuel) hc node store [] column label = Fault GridAccess.
Proof.
  intros Hwf Hcol. cbn [find_words_trie].
  assert (number_columns hc = Z.of_nat (length (columns hc))) as Hnum.
  { unfold hc_wf in Hwf. destruct (column_strings hc) as [cols|] eqn:E; [|done].
    by apply column_strings_Some in E as [? _]. }
  assert (cell_blocked hc column label = Done true) as ->.
  { unfold cell_blocked.
    destruct (Z.ltb_spec column 0); [done|].
    destruct (Z.leb_spec (number_columns hc) column); [|lia].
    by rewrite orb_true_r. }
  cbn [bind length]. change (Z.of_nat 0 =? 0) with true. cbn [negb andb].
  assert (arr_read (columns hc) column = Fault GridAccess) as Hread.
  { unfold arr_read. destruct (Z.ltb_spec column 0); [done|].
    rewrite (proj2 (lookup_ge_None _ _)); [done|lia]. }
  unfold get_cell. by rewrite Hread.
Qed.


(** Every cell of the honeycomb that is built holds a symbol of the
    input. *)
Lemma build_honeycomb_symbols (layers : Z) (fp fp' : list ascii)
    (hc : honeycomb) :
  build_honeycomb layers fp = Done (hc, fp') →
  ∀ column label c, cell_at hc column label = Some c → c ∈ symbols fp.
Proof.
  intros Hbuild column label c (cols & s & Hcols & Hc & Hl & Hs & Hsc)%cell_at_Some.
  pose proof (wp_Done_inv _ _ _ _ (arrays_from_build_honeycomb layers fp) Hbuild)
    as Hfrom.
  destruct (column_strings_lookup hc cols _ s Hcols Hs)
    as (b & rest & Hb & -> & Hnul).
  destruct (Hfrom _ _ Hb (Z.to_nat label) c) as [->|?]; [| |done].
  - rewrite lookup_app_l by (rewrite length_map; by eapply lookup_lt_Some).
    by rewrite list_lookup_fmap, Hsc.
  - exfalso. apply Hnul. by eapply list_elem_of_lookup_2.
Qed.

(** Lines in strictly ascending order are pairwise distinct. *)
Lemma strcmp_sorted_NoDup (lines : list (list ascii)) :
  StronglySorted (λ a b, strcmp a b < 0) lines → NoDup lines.
Proof.
  induction 1 as [|w lines _ IH Hall]; constructor; [|done].
  intros Hin. rewrite Forall_forall in Hall. specialize (Hall w Hin).
  rewrite strcmp_refl in Hall. lia.
Qed.

(** ** Copies of chars *)

Lemma strncpy_exact (k : nat) (dst : buffer) (d : Z) (src : buffer) (s : Z) :
  0 ≤ d → d + Z.of_nat k ≤ Z.of_nat (length dst) → 0 ≤ s →
  (∀ p, s ≤ p < s + Z.of_nat k → inited src p) →
  ∃ dst', strncpy dst d src s k = Done dst' ∧
    length dst' = length dst ∧
    (∀ p, d ≤ p < d + Z.of_nat k →
          dst' !! Z.to_nat p = src !! Z.to_nat (s + (p - d))) ∧
    (∀ p, 0 ≤ p → ¬ (d ≤ p < d + Z.of_nat k) →
          dst' !! Z.to_nat p = dst !! Z.to_nat p).
Proof.
  revert dst d s. induction k as [|k IH]; intros dst d s Hd Hlen Hs Hsrc.
  - exists dst. simpl. split; [done|]. split; [done|].
    split; [intros; lia|done].
  - cbn [strncpy].
    destruct (Hsrc s) as [_ (c & Hc & Hnul)]; [lia|].
    rewrite (proj2 (buf_read_Done src s c)) by done.
    cbn [bind]. rewrite (proj2 (is_NUL_false c) Hnul).
    rewrite buf_write_in_range by lia. cbn [bind].
    destruct (IH (<[Z.to_nat d := Some c]> dst) (d + 1) (s + 1))
      as (dst' & -> & Hlen' & Hin & Hout).
    { lia. } { rewrite length_insert. lia. } { lia. }
    { intros p Hp. apply Hsrc. lia. }
    exists dst'. rewrite length_insert in Hlen'. split; [done|]. split; [done|].
    split.
    + intros p Hp. destruct (decide (p = d)) as [->|Hne].
      * rewrite Hout by lia. rewrite list_lookup_insert_eq by lia.
        by replace (s + (d - d)) with s by lia.
      * rewrite Hin by lia. f_equal. lia.
    + intros p Hp0 Hp. rewrite Hout by lia.
      rewrite list_lookup_insert_ne; [done|lia].
Qed.

Lemma lookup_string_buffer (s : list ascii) (rest : buffer) (p : Z) (c : ascii) :
  0 ≤ p → s !! Z.to_nat p = Some c →
  (map Some s ++ rest) !! Z.to_nat p = Some (Some c).
Proof.
  intros Hp Hc. rewrite lookup_app_l
    by (rewrite length_map; by eapply lookup_lt_Some).
  by rewrite list_lookup_fmap, Hc.
Qed.

Lemma layers_are_ok (layers : list (option buffer)) (n : Z)
    (strs : Z → list ascii) :
  layers_are layers n strs → layers_ok layers n.
Proof.
  intros H q Hq. destruct (H q Hq) as (Hb & Hlen & Hnul).
  eexists. split; [done|]. rewrite <- Hlen. by apply is_string_map_Some.
Qed.

Lemma layers_are_inited (layers : list (option buffer)) (n : Z)
    (strs : Z → list ascii) (q p : Z) :
  layers_are layers n strs → 0 ≤ q < n → 0 ≤ p < 2 + 3 * q →
  inited (map Some (strs q) ++ [Some NUL]) p ∧
  ∃ c, strs q !! Z.to_nat p = Some c ∧ c ≠ NUL.
Proof.
  intros H Hq Hp. destruct (H q Hq) as (Hb & Hlen & Hnul).
  destruct (lookup_lt_is_Some_2 (strs q) (Z.to_nat p)) as [c Hc]; [lia|].
  assert (c ≠ NUL) as Hcn.
  { intros ->. apply Hnul. by eapply list_elem_of_lookup_2. }
  split; [|eauto]. split; [lia|]. exists c. split; [|done].
  by apply lookup_string_buffer; [lia|].
Qed.

(** ** The chars of the columns *)

Lemma column_char_lower (strs : Z → list ascii) (n i j : Z) :
  i < j → column_char strs n i (n - j - 1) = strs j !! Z.to_nat i.
Proof.
  intros Hj. unfold column_char.
  destruct (Z.ltb_spec (n - j - 1) (n - i - 1)); [|lia].
  by replace (n - (n - j - 1) - 1) with j by lia.
Qed.

Lemma column_char_middle (strs : Z → list ascii) (n i p : Z) :
  n - i - 1 ≤ p ≤ n →
  column_char strs n i p = strs i !! Z.to_nat (p + 2 * i + 1 - n).
Proof.
  intros Hp. unfold column_char.
  destruct (Z.ltb_spec p (n - i - 1)); [lia|].
  by destruct (Z.leb_spec p n); [|lia].
Qed.

Lemma column_char_upper (strs : Z → list ascii) (n i j : Z) :
  0 ≤ i < j →
  column_char strs n i (n - i + j) = strs j !! Z.to_nat (3 * j + 1 - i).
Proof.
  intros Hj. unfold column_char.
  destruct (Z.ltb_spec (n - i + j) (n - i - 1)); [lia|].
  destruct (Z.leb_spec (n - i + j) n); [lia|].
  by replace (n - i + j - (n - i)) with j by lia.
Qed.

Lemma hcomb_store_column_exact (layers : list (option buffer)) (n : Z)
    (right : bool) (i : Z) (hc : honeycomb) (strs : Z → list ascii) :
  layers_are layers n strs → 0 ≤ i < n →
  ∃ column,
    column_is strs n i column ∧
    hcomb_store_column layers n right i hc =
      set_column hc (if right then n + i + 1 else n - i - 1) column.
Proof.
  intros Hly Hi. unfold hcomb_store_column. cbv zeta.
  set (len := 2 * n - i).
  rewrite buf_write_in_range by (rewrite malloc_length; lia). cbn [bind].
  set (b1 := <[Z.to_nat len := Some NUL]> (malloc (len + 1))).
  assert (Z.of_nat (length b1) = len + 1) as Hlen1.
  { unfold b1. rewrite length_insert, malloc_length; lia. }
  assert (b1 !! Z.to_nat len = Some (Some NUL)) as Hnul1.
  { unfold b1. apply list_lookup_insert_eq.
    apply Nat2Z.inj_lt. rewrite malloc_length; lia. }
  destruct (Hly i Hi) as (Hlayer_i & Hleni & Hnuli).
  erewrite arr_read_lookup by (lia || done). cbn [bind].
  destruct (strncpy_exact (Z.to_nat (i + 2)) b1 (n - i - 1)
              (map Some (strs i) ++ [Some NUL]) i)
    as (b2 & -> & Hlen2 & Hin2 & Hout2).
  { lia. } { lia. } { lia. }
  { intros p Hp. eapply layers_are_inited; [done|lia|lia]. }
  cbn [bind].
  set (filled := λ (j : Z) (b : buffer) (p : Z),
         (0 ≤ p ≤ n - j - 1 ∨ n - i - 1 ≤ p ≤ n ∨ n - i + j ≤ p ≤ 2 * n - i - 1) →
         ∃ c, b !! Z.to_nat p = Some (Some c) ∧ c ≠ NUL ∧
              column_char strs n i p = Some c).
  assert (∃ column,
    for_each (reverse (seqZ (i + 1) (n - 1 - i)))
      (λ j column,
        let* layer_j := arr_read layers j in
        let* column := strncpy column (n - j - 1) layer_j i 1 in
        strncpy column (n - i + j) layer_j (- i + 3 * j + 1) 1) b2
    = Done column ∧ column_is strs n i column) as (column & -> & Hcolumn).
  { apply wp_Done_ex.
    replace (n - 1 - i) with (Z.of_nat (Z.to_nat (n - 1 - i))) by lia.
    eapply wp_mono;
      [apply (wp_for_seqZ_rev
         (λ j b, Z.of_nat (length b) = len + 1 ∧
                 b !! Z.to_nat len = Some (Some NUL) ∧
                 ∀ p, filled j b p)
         (λ _, False))| |done].
    - split; [lia|]. split; [by rewrite Hout2 by lia|].
      intros p Hp. assert (n - i - 1 ≤ p ≤ n) as Hmid by lia.
      destruct (layers_are_inited layers n strs i (p + 2 * i + 1 - n))
        as [_ (c & Hc & Hcn)]; [done|lia|lia|].
      exists c. rewrite Hin2 by lia.
      replace (i + (p - (n - i - 1))) with (p + 2 * i + 1 - n) by lia.
      split; [apply lookup_string_buffer; [lia|done]|].
      split; [done|]. by rewrite column_char_middle.
    - intros j b Hj (Hlen & Hnul & Hfilled).
      destruct (Hly j) as (Hlayer_j & Hlenj & Hnulj); [lia|].
      erewrite arr_read_lookup by (lia || done). cbn [bind].
      destruct (strncpy_exact 1 b (n - j - 1)
                  (map Some (strs j) ++ [Some NUL]) i)
        as (b' & -> & Hlen' & Hin' & Hout').
      { lia. } { lia. } { lia. }
      { intros p Hp. eapply layers_are_inited; [done|lia|lia]. }
      cbn [bind].
      destruct (strncpy_exact 1 b' (n - i + j)
                  (map Some (strs j) ++ [Some NUL]) (- i + 3 * j + 1))
        as (b'' & -> & Hlen'' & Hin'' & Hout'').
      { lia. } { lia. } { lia. }
      { intros p Hp. eapply layers_are_inited; [done|lia|lia]. }
      simpl. split; [lia|]. split; [by rewrite Hout'', Hout' by lia|].
      intros p Hp.
      destruct (decide (p = n - i + j)) as [->|Hne1].
      { destruct (layers_are_inited layers n strs j (3 * j + 1 - i))
          as [_ (c & Hc & Hcn)]; [done|lia|lia|].
        exists c. rewrite Hin'' by lia.
        replace (- i + 3 * j + 1 + (n - i + j - (n - i + j)))
          with (3 * j + 1 - i) by lia.
        split; [apply lookup_string_buffer; [lia|done]|].
        split; [done|]. by rewrite column_char_upper by lia. }
      rewrite Hout'' by lia.
      destruct (decide (p = n - j - 1)) as [->|Hne2].
      { destruct (layers_are_inited layers n strs j i)
          as [_ (c & Hc & Hcn)]; [done|lia|lia|].
        exists c. rewrite Hin' by lia.
        replace (i + (n - j - 1 - (n - j - 1))) with i by lia.
        split; [apply lookup_string_buffer; [lia|done]|].
        split; [done|]. by rewrite column_char_lower by lia. }
      rewrite Hout' by lia. apply Hfilled. lia.
    - intros b (Hlen & Hnul & Hfilled). split.
      + split; [lia|]. split; [done|]. split; [|done].
        intros p Hp. destruct (Hfilled p) as (c & Hc & Hcn & _); [lia|].
        split; [lia|]. eauto.
      + intros p Hp. destruct (Hfilled p) as (c & Hc & _ & Hchar); [lia|].
        eauto. }
  exists column. split; [done|]. by destruct right.
Qed.

Lemma hcomb_store_exact (hc : honeycomb) (layers : list (option buffer))
    (n : Z) (right : bool) (strs : Z → list ascii) :
  layers_are layers n strs → 0 ≤ n →
  Z.of_nat (length (columns hc)) = 2 * n + 1 →
  ∃ hc',
    hcomb_store hc layers n right = Done hc' ∧
    number_columns hc' = number_columns hc ∧
    length (columns hc') = length (columns hc) ∧
    (∀ i, 0 ≤ i < n →
       ∃ b, columns hc' !! Z.to_nat (if right then n + i + 1 else n - i - 1)
            = Some (Some b) ∧ column_is strs n i b) ∧
    (∀ p, 0 ≤ p → (if right then p ≤ n else n ≤ p) →
       columns hc' !! Z.to_nat p = columns hc !! Z.to_nat p).
Proof.
  intros Hly Hn Hlen. unfold hcomb_store. apply wp_Done_ex.
  replace n with (Z.of_nat (Z.to_nat n)) at 1 by lia.
  eapply wp_mono;
    [apply (wp_for_seqZ_rev
       (λ j hc',
         number_columns hc' = number_columns hc ∧
         length (columns hc') = length (columns hc) ∧
         (∀ i, j ≤ i < n →
            ∃ b, columns hc' !! Z.to_nat (if right then n + i + 1 else n - i - 1)
                 = Some (Some b) ∧ column_is strs n i b) ∧
         (∀ p, 0 ≤ p → (if right then p ≤ n else n ≤ p) →
            columns hc' !! Z.to_nat p = columns hc !! Z.to_nat p))
       (λ _, False))| |done].
  - split; [done|]. split; [done|]. split; [intros; lia|done].
  - intros j hc1 Hj (Hnum & Hlen1 & Hdone & Hframe).
    destruct (hcomb_store_column_exact layers n right j hc1 strs Hly)
      as (column & Hcolumn & ->); [lia|].
    rewrite set_column_in_range by (destruct right; lia). simpl.
    split; [done|]. split; [by rewrite length_insert|]. split.
    + intros i Hi. destruct (decide (i = j)) as [->|Hne].
      * exists column. split; [|done]. apply list_lookup_insert_eq.
        destruct right; lia.
      * destruct (Hdone i) as (b & Hb & Hstr); [lia|]. exists b.
        split; [|done]. rewrite list_lookup_insert_ne; [done|].
        destruct right; lia.
    + intros p Hp0 Hp. rewrite list_lookup_insert_ne; [by apply Hframe|].
      destruct right; lia.
  - simpl. intros hc' (Hnum & Hlen1 & Hdone & Hframe).
    split; [done|]. split; [done|]. split; [|done].
    intros i Hi. apply Hdone. lia.
Qed.

(** ** The symbols of the rings *)

Lemma cell_count_succ (r : Z) : cell_count (r + 1) = cell_count r + 6 * r.
Proof. unfold cell_count. lia. Qed.

Lemma cell_count_mono (r s : Z) : 0 ≤ r ≤ s → cell_count r ≤ cell_count s.
Proof.
  intros Hrs. unfold cell_count.
  assert (0 ≤ (s - r) * (s + r - 1)).
  { destruct (decide (s = r)) as [->|Hne]; [lia|].
    apply Z.mul_nonneg_nonneg; lia. }
  lia.
Qed.

Lemma cell_count_pos (r : Z) : 0 ≤ r → 1 ≤ cell_count r.
Proof. unfold cell_count. nia. Qed.

Lemma lookup_ring_right (syms : list ascii) (r k : Z) :
  0 ≤ r → 0 ≤ k < 3 * r - 1 →
  ring_right syms r !! Z.to_nat k = syms !! Z.to_nat (cell_count r + 1 + k).
Proof.
  intros Hr Hk. pose proof (cell_count_pos r Hr). unfold ring_right.
  rewrite lookup_take_lt by lia. rewrite lookup_drop. f_equal. lia.
Qed.

Lemma lookup_ring_left (syms : list ascii) (r k : Z) :
  0 ≤ r → 0 ≤ k < 3 * r - 1 →
  ring_left syms r !! Z.to_nat k
  = syms !! Z.to_nat (cell_count r + 3 * r + 1 + k).
Proof.
  intros Hr Hk. pose proof (cell_count_pos r Hr). unfold ring_left.
  rewrite lookup_take_lt by lia. rewrite lookup_drop. f_equal. lia.
Qed.

Lemma length_ring_right (syms : list ascii) (r : Z) :
  1 ≤ r → cell_count (r + 1) ≤ Z.of_nat (length syms) →
  Z.of_nat (length (ring_right syms r)) = 3 * r - 1.
Proof.
  intros Hr Hlen. rewrite cell_count_succ in Hlen.
  pose proof (cell_count_pos r). unfold ring_right.
  rewrite length_take, length_drop. lia.
Qed.

Lemma length_ring_left (syms : list ascii) (r : Z) :
  1 ≤ r → cell_count (r + 1) ≤ Z.of_nat (length syms) →
  Z.of_nat (length (ring_left syms r)) = 3 * r - 1.
Proof.
  intros Hr Hlen. rewrite cell_count_succ in Hlen.
  pose proof (cell_count_pos r). unfold ring_left.
  rewrite length_take, length_drop. lia.
Qed.

Lemma drop_lookup_cons {A : Type} (l : list A) (n : nat) (x : A) :
  l !! n = Some x → drop n l = x :: drop (S n) l.
Proof.
  revert n. induction l as [|y l IH]; intros [|n] H; simpl in *; try done.
  - by injection H as ->.
  - by apply IH.
Qed.

(** The symbols from ring [r] on: its upper-centre symbol, its right half,
    its lower-centre symbol, its left half, and the rings after it. *)
Lemma drop_ring (syms : list ascii) (r : Z) :
  1 ≤ r → cell_count (r + 1) ≤ Z.of_nat (length syms) →
  ∃ u lo,
    syms !! Z.to_nat (cell_count r) = Some u ∧
    syms !! Z.to_nat (cell_count r + 3 * r) = Some lo ∧
    drop (Z.to_nat (cell_count r)) syms =
      u :: ring_right syms r ++ lo :: ring_left syms r ++
      drop (Z.to_nat (cell_count (r + 1))) syms.
Proof.
  intros Hr Hlen. pose proof (cell_count_pos r).
  rewrite cell_count_succ in Hlen |- *.
  destruct (lookup_lt_is_Some_2 syms (Z.to_nat (cell_count r))) as [u Hu];
    [lia|].
  destruct (lookup_lt_is_Some_2 syms (Z.to_nat (cell_count r + 3 * r)))
    as [lo Hlo]; [lia|].
  exists u, lo. split; [done|]. split; [done|].
  rewrite (drop_lookup_cons _ _ _ Hu). f_equal.
  unfold ring_right, ring_left.
  replace (S (Z.to_nat (cell_count r))) with (Z.to_nat (cell_count r + 1))
    by lia.
  rewrite <- (take_drop (Z.to_nat (3 * r - 1))
                (drop (Z.to_nat (cell_count r + 1)) syms)) at 1.
  f_equal. rewrite drop_drop.
  replace (Z.to_nat (cell_count r + 1) + Z.to_nat (3 * r - 1))%nat
    with (Z.to_nat (cell_count r + 3 * r)) by lia.
  rewrite (drop_lookup_cons _ _ _ Hlo). f_equal.
  replace (S (Z.to_nat (cell_count r + 3 * r)))
    with (Z.to_nat (cell_count r + 3 * r + 1)) by lia.
  rewrite <- (take_drop (Z.to_nat (3 * r - 1))
                (drop (Z.to_nat (cell_count r + 3 * r + 1)) syms)) at 1.
  f_equal. rewrite drop_drop. f_equal. lia.
Qed.

Lemma cell_symbol_centre (layers : Z) : cell_symbol layers (layers - 1) (layers - 1) = 0.
Proof.
  unfold cell_symbol.
  replace (cell_ring layers (layers - 1) (layers - 1)) with 0
    by (unfold cell_ring; lia).
  done.
Qed.

Lemma cell_symbol_above (layers j : Z) :
  1 ≤ j → cell_symbol layers (layers - 1) (layers - 1 + j) = cell_count j.
Proof.
  intros Hj. unfold cell_symbol, ring_offset.
  replace (cell_ring layers (layers - 1) (layers - 1 + j)) with j
    by (unfold cell_ring; lia).
  destruct (Z.eqb_spec j 0); [lia|]. rewrite Z.eqb_refl.
  destruct (Z.ltb_spec (layers - 1) (layers - 1 + j)); lia.
Qed.

Lemma cell_symbol_below (layers j : Z) :
  1 ≤ j →
  cell_symbol layers (layers - 1) (layers - 1 - j) = cell_count j + 3 * j.
Proof.
  intros Hj. unfold cell_symbol, ring_offset.
  replace (cell_ring layers (layers - 1) (layers - 1 - j)) with j
    by (unfold cell_ring; lia).
  destruct (Z.eqb_spec j 0); [lia|]. rewrite Z.eqb_refl.
  destruct (Z.ltb_spec (layers - 1) (layers - 1 - j)); lia.
Qed.

(** The loop over the rings in [fill_honeycomb], with the symbols that it
    stores. *)
Lemma fill_honeycomb_layers_exact (layers : Z) (center : buffer)
    (fp syms : list ascii) (c0 : ascii) :
  1 ≤ layers →
  Z.of_nat (length center) = 2 * layers →
  center !! Z.to_nat (2 * layers - 1) = Some (Some NUL) →
  syms !! 0%nat = Some c0 →
  center !! Z.to_nat (layers - 1) = Some (Some c0) →
  NUL ∉ syms →
  cell_count layers ≤ Z.of_nat (length syms) →
  symbols fp = drop 1 syms →
  ∃ center' rightlayers leftlayers fp',
    for_each (seqZ 1 (layers - 1)) (fill_honeycomb_layer layers)
      (center, replicate (Z.to_nat (layers - 1)) None,
       replicate (Z.to_nat (layers - 1)) None, fp)
    = Done (center', rightlayers, leftlayers, fp') ∧
    Z.of_nat (length center') = 2 * layers ∧
    center' !! Z.to_nat (2 * layers - 1) = Some (Some NUL) ∧
    (∀ p, 0 ≤ p < 2 * layers - 1 →
       ∃ c, center' !! Z.to_nat p = Some (Some c) ∧
            syms !! Z.to_nat (cell_symbol layers (layers - 1) p) = Some c) ∧
    layers_are rightlayers (layers - 1)
      (λ q, reverse (ring_right syms (q + 1))) ∧
    layers_are leftlayers (layers - 1) (λ q, ring_left syms (q + 1)) ∧
    symbols fp' = drop (Z.to_nat (cell_count layers)) syms.
Proof.
  intros HL Hlen Hnul Hc0 Hmid Hsyms Hcount Hfp.
  set (Inv := λ (j : Z) (st : buffer * list (option buffer) *
                              list (option buffer) * list ascii),
    let '(center, rl, ll, fp) := st in
    Z.of_nat (length center) = 2 * layers ∧
    center !! Z.to_nat (2 * layers - 1) = Some (Some NUL) ∧
    (∀ p, layers - j ≤ p ≤ layers + j - 2 →
       ∃ c, center !! Z.to_nat p = Some (Some c) ∧
            syms !! Z.to_nat (cell_symbol layers (layers - 1) p) = Some c) ∧
    Z.of_nat (length rl) = layers - 1 ∧ Z.of_nat (length ll) = layers - 1 ∧
    layers_are rl (j - 1) (λ q, reverse (ring_right syms (q + 1))) ∧
    layers_are ll (j - 1) (λ q, ring_left syms (q + 1)) ∧
    symbols fp = drop (Z.to_nat (cell_count j)) syms).
  destruct (wp_Done_ex
    (for_each (seqZ 1 (layers - 1)) (fill_honeycomb_layer layers)
      (center, replicate (Z.to_nat (layers - 1)) None,
       replicate (Z.to_nat (layers - 1)) None, fp))
    (Inv layers)) as ([[[center' rl] ll] fp'] & Hloop & HI).
  { replace (layers - 1) with (Z.of_nat (Z.to_nat (layers - 1))) at 1 by lia.
    replace layers with (1 + Z.of_nat (Z.to_nat (layers - 1))) at 5 by lia.
    apply wp_for_seqZ.
    - unfold Inv. rewrite !length_replicate. split; [done|]. split; [done|].
      split.
      { intros p Hp. replace p with (layers - 1) by lia. exists c0.
        split; [done|]. by rewrite cell_symbol_centre. }
      split; [lia|]. split; [lia|].
      split; [intros q Hq; lia|]. split; [intros q Hq; lia|]. done.
    - intros j [[[c1 rl1] ll1] fp1] Hj
        (Hlen1 & Hnul1 & Hin1 & Hrl1 & Hll1 & Hrok & Hlok & Hfp1).
      assert (cell_count (j + 1) ≤ Z.of_nat (length syms)) as Hcj.
      { pose proof (cell_count_mono (j + 1) layers). lia. }
      destruct (drop_ring syms j) as (u & lo & Hu & Hlo & Hdrop); [lia|done|].
      rewrite Hdrop in Hfp1.
      pose proof (length_ring_right syms j) as Hlr.
      pose proof (length_ring_left syms j) as Hll.
      destruct (fill_honeycomb_layer_symbols layers j c1 rl1 ll1 fp1
                  u lo (ring_right syms j) (ring_left syms j)
                  (drop (Z.to_nat (cell_count (j + 1))) syms))
        as (fp2 & -> & Hfp2); [lia|done|done|done|lia|lia|done|].
      simpl. rewrite !length_insert.
      split; [done|]. split.
      { rewrite !list_lookup_insert_ne by lia. done. }
      split.
      { intros p Hp.
        destruct (decide (p = layers - 1 - j)) as [->|Hne1].
        { exists lo. split; [apply list_lookup_insert_eq;
                             rewrite length_insert; lia|].
          by rewrite cell_symbol_below by lia. }
        rewrite list_lookup_insert_ne by lia.
        destruct (decide (p = layers - 1 + j)) as [->|Hne2].
        { exists u. split; [apply list_lookup_insert_eq; lia|].
          by rewrite cell_symbol_above by lia. }
        rewrite list_lookup_insert_ne by lia. apply Hin1. lia. }
      split; [done|]. split; [done|].
      replace (j + 1 - 1) with j by lia.
      assert (∀ x, x ∈ ring_right syms j ∨ x ∈ ring_left syms j → x ∈ syms)
        as Hsub.
      { intros x [Hx|Hx]; unfold ring_right, ring_left in Hx;
          by apply subseteq_take, subseteq_drop in Hx. }
      split; [|split; [|done]].
      + intros q Hq. destruct (decide (q = j - 1)) as [->|Hne].
        * replace (j - 1 + 1) with j by lia.
          split; [apply list_lookup_insert_eq; lia|].
          split; [rewrite length_reverse; lia|].
          rewrite elem_of_reverse. intros Hx. apply Hsyms, Hsub. by left.
        * rewrite list_lookup_insert_ne by lia. apply Hrok. lia.
      + intros q Hq. destruct (decide (q = j - 1)) as [->|Hne].
        * replace (j - 1 + 1) with j by lia.
          split; [apply list_lookup_insert_eq; lia|].
          split; [lia|]. intros Hx. apply Hsyms, Hsub. by right.
        * rewrite list_lookup_insert_ne by lia. apply Hlok. lia. }
  destruct HI as (Hlen' & Hnul' & Hin' & _ & _ & Hrok & Hlok & Hfp').
  exists center', rl, ll, fp'. split; [done|]. split; [done|]. split; [done|].
  split; [|done]. intros p Hp. apply Hin'. lia.
Qed.

(** ** The symbol of a cell *)

Ltac cell_symbol_ring r :=
  unfold cell_symbol, ring_offset;
  match goal with
  | |- context [cell_ring ?l ?c ?p] =>
      replace (cell_ring l c p) with r by (unfold cell_ring; lia)
  end;
  cbv zeta;
  repeat match goal with
         | |- context [Z.eqb ?a ?b] => destruct (Z.eqb_spec a b)
         | |- context [Z.ltb ?a ?b] => destruct (Z.ltb_spec a b)
         end;
  lia.

Lemma lookup_reverse_ring_right (syms : list ascii) (layers r k : Z) :
  cell_count layers ≤ Z.of_nat (length syms) →
  1 ≤ r ≤ layers - 1 → 0 ≤ k < 3 * r - 1 →
  reverse (ring_right syms r) !! Z.to_nat k
  = syms !! Z.to_nat (cell_count r + 3 * r - 1 - k).
Proof.
  intros Hcount Hr Hk.
  pose proof (cell_count_mono (r + 1) layers).
  pose proof (length_ring_right syms r).
  rewrite reverse_lookup by lia.
  replace (length (ring_right syms r) - S (Z.to_nat k))%nat
    with (Z.to_nat (3 * r - 2 - k)) by lia.
  rewrite lookup_ring_right by lia. f_equal. lia.
Qed.

(** The columns on the right of the centre. *)
Lemma column_char_right (syms : list ascii) (layers column label : Z) :
  cell_count layers ≤ Z.of_nat (length syms) →
  layers - 1 < column < 2 * layers - 1 →
  0 ≤ label < 2 * layers - 1 - (column - (layers - 1)) →
  column_char (λ q, reverse (ring_right syms (q + 1))) (layers - 1)
    (column - layers) label
  = syms !! Z.to_nat (cell_symbol layers column label).
Proof.
  intros Hcount Hcol Hlabel. unfold column_char.
  destruct (Z.ltb_spec label (layers - 1 - (column - layers) - 1)).
  - replace (layers - 1 - label - 1 + 1) with (layers - 1 - label) by lia.
    rewrite (lookup_reverse_ring_right syms layers) by lia.
    f_equal. f_equal. symmetry. cell_symbol_ring (layers - 1 - label).
  - destruct (Z.leb_spec label (layers - 1)).
    + replace (column - layers + 1) with (column - (layers - 1)) by lia.
      rewrite (lookup_reverse_ring_right syms layers) by lia.
      f_equal. f_equal. symmetry. cell_symbol_ring (column - (layers - 1)).
    + replace (label - (layers - 1 - (column - layers)) + 1)
        with (label - (layers - 1) + (column - (layers - 1))) by lia.
      rewrite (lookup_reverse_ring_right syms layers) by lia.
      f_equal. f_equal. symmetry.
      cell_symbol_ring (label - (layers - 1) + (column - (layers - 1))).
Qed.

(** The columns on the left of the centre. *)
Lemma column_char_left (syms : list ascii) (layers column label : Z) :
  0 ≤ column < layers - 1 →
  0 ≤ label < 2 * layers - 1 - (layers - 1 - column) →
  column_char (λ q, ring_left syms (q + 1)) (layers - 1)
    (layers - 2 - column) label
  = syms !! Z.to_nat (cell_symbol layers column label).
Proof.
  intros Hcol Hlabel. unfold column_char.
  destruct (Z.ltb_spec label (layers - 1 - (layers - 2 - column) - 1)).
  - replace (layers - 1 - label - 1 + 1) with (layers - 1 - label) by lia.
    rewrite lookup_ring_left by lia.
    f_equal. f_equal. symmetry. cell_symbol_ring (layers - 1 - label).
  - destruct (Z.leb_spec label (layers - 1)).
    + replace (layers - 2 - column + 1) with (layers - 1 - column) by lia.
      rewrite lookup_ring_left by lia.
      f_equal. f_equal. symmetry. cell_symbol_ring (layers - 1 - column).
    + replace (label - (layers - 1 - (layers - 2 - column)) + 1)
        with (label - (layers - 1) + (layers - 1 - column)) by lia.
      rewrite lookup_ring_left by lia.
      f_equal. f_equal. symmetry.
      cell_symbol_ring (label - (layers - 1) + (layers - 1 - column)).
Qed.

(** The char of a cell of a column that holds a string. *)
Lemma cell_at_column (hc : honeycomb) (column label n : Z) (b : buffer)
    (c : ascii) :
  hc_wf hc = true → 0 ≤ column → 0 ≤ label < n →
  columns hc !! Z.to_nat column = Some (Some b) → is_string b n →
  b !! Z.to_nat label = Some (Some c) →
  cell_at hc column label = Some c.
Proof.
  intros Hwf Hcol Hlabel Hb (s & -> & Hlen & Hs)%is_string_chars Hc.
  unfold hc_wf in Hwf. destruct (column_strings hc) as [cols|] eqn:E; [|done].
  pose proof E as [_ H2]%column_strings_Some.
  destruct (Forall2_lookup_l _ _ _ _ _ H2 Hb) as (s' & Hs' & b' & [= <-] & Hbs).
  rewrite buffer_string_map_Some in Hbs by done. injection Hbs as <-.
  rewrite (cell_at_lookup hc cols column label s) by (done || lia).
  rewrite lookup_app_l in Hc by (rewrite length_map; lia).
  rewrite list_lookup_fmap in Hc.
  destruct (s !! Z.to_nat label); simpl in Hc; congruence.
Qed.

(** The columns that [create_honeycomb] and [fill_honeycomb] build, with
    the symbol of the input in each of their places. *)
Lemma build_honeycomb_columns_exact (layers : Z) (fp : list ascii) :
  1 ≤ layers →
  NUL ∉ symbols fp →
  cell_count layers ≤ Z.of_nat (length (symbols fp)) →
  ∃ hc fp',
    build_honeycomb layers fp = Done (hc, fp') ∧
    number_columns hc = 2 * layers - 1 ∧
    Z.of_nat (length (columns hc)) = 2 * layers - 1 ∧
    symbols fp' = drop (Z.to_nat (cell_count layers)) (symbols fp) ∧
    ∀ i, 0 ≤ i < 2 * layers - 1 →
      ∃ b, columns hc !! Z.to_nat i = Some (Some b) ∧
           is_string b (2 * layers - 1 - Z.abs (i - (layers - 1))) ∧
           ∀ p, 0 ≤ p < 2 * layers - 1 - Z.abs (i - (layers - 1)) →
             ∃ c, b !! Z.to_nat p = Some (Some c) ∧
                  symbols fp !! Z.to_nat (cell_symbol layers i p) = Some c.
Proof.
  intros HL Hfp Hcount. unfold build_honeycomb.
  rewrite create_honeycomb_Done by done. cbn [bind].
  set (hc0 := {| number_columns := 2 * layers - 1;
                 columns := replicate (Z.to_nat (2 * layers - 1)) None |}).
  unfold fill_honeycomb.
  destruct (symbols fp) as [|c0 rest0] eqn:Hsym.
  { pose proof (cell_count_pos layers). simpl in Hcount. lia. }
  rewrite <- Hsym in Hfp, Hcount |- *.
  destruct (fscanf_char_symbol (malloc (2 * layers)) (layers - 1) fp c0 rest0)
    as (fp1 & -> & Hfp1); [done|rewrite malloc_length; lia|].
  cbn [bind].
  rewrite buf_write_in_range by (rewrite length_insert, malloc_length; lia).
  cbn [bind].
  set (center := <[Z.to_nat (2 * layers - 1) := Some NUL]>
                   (<[Z.to_nat (layers - 1) := Some c0]> (malloc (2 * layers)))).
  assert (Z.of_nat (length center) = 2 * layers) as Hlen.
  { unfold center. rewrite !length_insert, malloc_length; lia. }
  assert (center !! Z.to_nat (2 * layers - 1) = Some (Some NUL)) as Hnul.
  { unfold center. apply list_lookup_insert_eq.
    apply Nat2Z.inj_lt. rewrite length_insert, malloc_length; lia. }
  assert (center !! Z.to_nat (layers - 1) = Some (Some c0)) as Hmid.
  { unfold center. rewrite list_lookup_insert_ne by lia.
    apply list_lookup_insert_eq.
    apply Nat2Z.inj_lt. rewrite malloc_length; lia. }
  destruct (fill_honeycomb_layers_exact layers center fp1 (symbols fp) c0)
    as (center' & rl & ll & fp' & Hloop & Hlen' & Hnul' & Hcenter & Hrok & Hlok
        & Hfp'); [done|done|done|by rewrite Hsym|done|done|done| |].
  { by rewrite Hsym. }
  assert (is_string center' (2 * layers - 1)) as Hstr.
  { split; [lia|]. split; [lia|]. split; [|done]. intros p Hp.
    destruct (Hcenter p Hp) as (c & Hc & Hsc). split; [lia|]. exists c.
    split; [done|]. intros ->. apply Hfp. by eapply list_elem_of_lookup_2. }
  assert (Z.of_nat (length (columns hc0)) = 2 * (layers - 1) + 1) as Hcols.
  { simpl. rewrite length_replicate. lia. }
  destruct (Z.ltb_spec 1 layers) as [H1|H1].
  - rewrite Hloop. cbn [bind].
    destruct (hcomb_store_exact hc0 ll (layers - 1) false _ Hlok)
      as (hc1 & -> & Hnum1 & Hlen1 & Hleft & Hframe1); [lia|done|].
    cbn [bind].
    destruct (hcomb_store_exact hc1 rl (layers - 1) true _ Hrok)
      as (hc2 & -> & Hnum2 & Hlen2 & Hright & Hframe2); [lia|lia|].
    cbn [bind]. rewrite set_column_in_range by lia. cbn [bind].
    exists {| number_columns := number_columns hc2;
              columns := <[Z.to_nat (layers - 1) := Some center']> (columns hc2) |},
      fp'.
    split; [done|]. simpl. rewrite length_insert.
    split; [by rewrite Hnum2, Hnum1|]. split; [lia|]. split; [done|].
    intros i Hi.
    destruct (Z.lt_trichotomy i (layers - 1)) as [Hlt|[->|Hgt]].
    + destruct (Hleft (layers - 2 - i)) as (b & Hb & Hstrb & Hchars); [lia|].
      exists b. rewrite list_lookup_insert_ne by lia.
      rewrite Hframe2 by lia.
      replace (layers - 1 - (layers - 2 - i) - 1) with i in Hb by lia.
      replace (2 * layers - 1 - Z.abs (i - (layers - 1)))
        with (2 * (layers - 1) - (layers - 2 - i)) by lia.
      split; [done|]. split; [done|]. intros p Hp.
      destruct (Hchars p Hp) as (c & Hc & Hcc). exists c. split; [done|].
      rewrite <- Hcc. symmetry. apply column_char_left; lia.
    + exists center'. split; [apply list_lookup_insert_eq; lia|].
      replace (2 * layers - 1 - Z.abs (layers - 1 - (layers - 1)))
        with (2 * layers - 1) by lia.
      done.
    + destruct (Hright (i - layers)) as (b & Hb & Hstrb & Hchars); [lia|].
      exists b. rewrite list_lookup_insert_ne by lia.
      replace (layers - 1 + (i - layers) + 1) with i in Hb by lia.
      replace (2 * layers - 1 - Z.abs (i - (layers - 1)))
        with (2 * (layers - 1) - (i - layers)) by lia.
      split; [done|]. split; [done|]. intros p Hp.
      destruct (Hchars p Hp) as (c & Hc & Hcc). exists c. split; [done|].
      rewrite <- Hcc. symmetry. apply column_char_right; lia.
  - assert (layers = 1) as -> by lia. simpl in Hloop.
    injection Hloop as <- _ _ <-.
    cbn [bind]. rewrite set_column_in_range by (simpl; lia). cbn [bind].
    eexists _, fp1. split; [done|]. simpl. split; [done|]. split; [done|].
    split; [done|].
    intros i Hi. assert (i = 0) as -> by lia. exists center. done.
Qed.

(** The char of every cell of the honeycomb that is built, by the number
    of its symbol in the input. *)
Lemma build_honeycomb_exact (layers : Z) (fp : list ascii) :
  1 ≤ layers →
  NUL ∉ symbols fp →
  cell_count layers ≤ Z.of_nat (length (symbols fp)) →
  ∃ hc fp',
    build_honeycomb layers fp = Done (hc, fp') ∧
    symbols fp' = drop (Z.to_nat (cell_count layers)) (symbols fp) ∧
    ∀ column label,
      0 ≤ column < 2 * layers - 1 →
      0 ≤ label < 2 * layers - 1 - Z.abs (column - (layers - 1)) →
      cell_at hc column label
      = symbols fp !! Z.to_nat (cell_symbol layers column label).
Proof.
  intros HL Hfp Hcount.
  destruct (build_honeycomb_columns_exact layers fp)
    as (hc & fp' & Hbuild & Hnum & Hlen & Hfp' & Hcols); [done..|].
  exists hc, fp'. split; [done|]. split; [done|].
  assert (hc_wf hc = true) as Hwf.
  { apply hc_wf_columns; [lia|]. intros i Hi.
    destruct (Hcols i) as (b & Hb & Hstr & _); [lia|]. eauto. }
  intros column label Hcol Hlabel.
  destruct (Hcols column Hcol) as (b & Hb & Hstr & Hchars).
  destruct (Hchars label Hlabel) as (c & Hc & ->).
  eapply cell_at_column; [done|lia|done|done|done|done].
Qed.

(** * Main results *)

(** C1: when a call of the search finds, for the char of its cell, a child
    whose flag is set, it appends the word buffer to the store, and the flag
    of that child is no longer set when the call returns; so in one run of
    [find_words] every word is recorded at most once: the words that a run
    appends to the store are pairwise distinct, each was a word of the trie
    before the run, and none is a word of the trie after it. *)
Theorem find_words_records_once :
  (∀ fuel hc hc' node node' next_node store store' word word' column label c,
     word = [] ∨ cell_blocked hc column label = Done false →
     get_cell hc column label = Done c →
     child_slot node (CHAR_TO_INDEX c) = Done (Some next_node) →
     is_end next_node = true →
     find_words_trie (S fuel) hc node store word column label
       = Done (hc', node', store', word') →
     ∃ rest next_node',
       store' = store ++ (word ++ [c]) :: rest ∧
       (word ++ [c] ∉ rest) ∧
       child_slot node' (CHAR_TO_INDEX c) = Done (Some next_node') ∧
       is_end next_node' = false) ∧
  (∀ fuel hc hc' root root' store store',
     find_words fuel hc root store = Done (hc', root', store') →
     ∃ new, store' = store ++ new ∧ NoDup new ∧
            ∀ w, w ∈ new → terminal root w ∧ ¬ terminal root' w).
Proof.
  split.
  - intros fuel hc hc' node node' next_node store store' word word'
      column label c. apply find_words_trie_records.
  - intros fuel hc hc' root root' store store' Hrun.
    pose proof (wp_Done_inv _ _ _ _ (find_words_found fuel hc root store) Hrun)
      as (new & -> & Hnodup & Hnew & _).
    exists new. split; [done|]. split; [done|].
    intros w (s & -> & Hs)%Hnew. done.
Qed.

(** The search of the example honeycomb for the example dictionary, and a
    call on its centre cell 'A' when "A" is a word. *)
Lemma find_words_records_once_example :
  (∃ hc' root' store',
     find_words 10 example_hc example_trie create_store
       = Done (hc', root', store') ∧
     ∃ new, store' = create_store ++ new ∧ NoDup new ∧
            ∀ w, w ∈ new → terminal example_trie w ∧ ¬ terminal root' w) ∧
  (∃ hc' node' store' word',
     find_words_trie 2 example_hc example_trie_A create_store [] 1 1
       = Done (hc', node', store', word') ∧
     ∃ rest next_node',
       store' = create_store ++ ([] ++ ["A"%char]) :: rest ∧
       ([] ++ ["A"%char] ∉ rest) ∧
       child_slot node' (CHAR_TO_INDEX "A") = Done (Some next_node') ∧
       is_end next_node' = false).
Proof.
  split.
  - destruct (find_words 10 example_hc example_trie create_store)
      as [[[hc' root'] store']|f] eqn:Hrun; [|by vm_compute in Hrun].
    exists hc', root', store'. split; [reflexivity|].
    exact (proj2 find_words_records_once _ _ _ _ _ _ _ Hrun).
  - destruct (find_words_trie 2 example_hc example_trie_A create_store [] 1 1)
      as [[[[hc' node'] store'] word']|f] eqn:Hcall; [|by vm_compute in Hcall].
    exists hc', node', store', word'. split; [reflexivity|].
    apply (proj1 find_words_records_once 1%nat example_hc hc' example_trie_A
             node' (set_end get_trienode true) create_store store' [] word'
             1 1 "A"%char).
    + by left.
    + reflexivity.
    + reflexivity.
    + reflexivity.
    + exact Hcall.
Defined.

(** C2: every word that [find_words] appends to the store comes with the
    coordinates at which its chars were appended, as the search with
    coordinates records them; these coordinates are pairwise distinct, each
    is a neighbour of the one before it (column and label differ by at most
    one, and not both by zero), and the chars of the word are those of the
    cells at these coordinates. *)
Theorem found_words_paths (fuel : nat) (hc hc' : honeycomb)
    (root root' : trie_node) (store store' : word_store) :
  find_words fuel hc root store = Done (hc', root', store') →
  ∃ pstore,
    find_words_path fuel hc root [] = Done (hc', root', pstore) ∧
    store' = store ++ map fst pstore ∧
    ∀ w p, (w, p) ∈ pstore →
      NoDup p ∧ chain p ∧
      Forall2 (λ c q, get_cell hc q.1 q.2 = Done c) w p.
Proof.
  intros Hrun.
  pose proof (find_words_path_erase fuel hc root store []) as Hsim.
  simpl in Hsim. rewrite app_nil_r, Hrun in Hsim.
  pose proof (find_words_path_spells fuel hc root [] (Forall_nil_2 _)) as Hspells.
  destruct (find_words_path fuel hc root []) as [[[hc2 root2] pstore]|]; [|done].
  destruct Hsim as (-> & -> & ->). destruct Hspells as [_ Hspells].
  exists pstore. split; [done|]. split; [done|].
  intros w p Hwp. rewrite Forall_forall in Hspells. apply (Hspells _ Hwp).
Qed.

(** The search of the example honeycomb for the example dictionary. *)
Lemma found_words_paths_example :
  ∃ hc' root' store',
    find_words 10 example_hc example_trie create_store
      = Done (hc', root', store') ∧
    ∃ pstore,
      find_words_path 10 example_hc example_trie []
        = Done (hc', root', pstore) ∧
      store' = create_store ++ map fst pstore ∧
      ∀ w p, (w, p) ∈ pstore →
        NoDup p ∧ chain p ∧
        Forall2 (λ c q, get_cell example_hc q.1 q.2 = Done c) w p.
Proof.
  destruct (find_words 10 example_hc example_trie create_store)
    as [[[hc' root'] store']|f] eqn:Hrun; [|by vm_compute in Hrun].
  exists hc', root', store'. split; [reflexivity|].
  exact (found_words_paths _ _ _ _ _ _ _ Hrun).
Defined.

(** C3: a call of [find_words_trie] that returns has put back the char of
    the cell that it marked and has removed from the word buffer the char
    that it appended, so that the grid and the word buffer are as the call
    found them; a run of [find_words] that returns leaves every cell of the
    grid as it was; and on a well-formed grid of chars in 'A'..'Z', with a
    well-formed trie and enough fuel, the run does return. *)
Theorem search_restores_grid :
  (∀ fuel hc node store word column label hc' node' store' word',
     find_words_trie fuel hc node store word column label
       = Done (hc', node', store', word') →
     hc' = hc ∧ word' = word) ∧
  (∀ fuel hc root store hc' root' store',
     find_words fuel hc root store = Done (hc', root', store') → hc' = hc) ∧
  (∀ fuel hc root store,
     hc_upper hc = true → trie_wf root = true →
     (trie_height root < fuel)%nat → (hc_extent hc < fuel)%nat →
     Z.of_nat (trie_height root) + 1 < WORD_SIZE →
     ∃ root' store',
       find_words fuel hc root store = Done (hc, root', store')).
Proof.
  split; [|split].
  - intros fuel hc node store word column label hc' node' store' word' Hcall.
    exact (wp_Done_inv _ _ _ _
             (find_words_trie_frame fuel hc node store word column label) Hcall).
  - intros fuel hc root store hc' root' store' Hrun.
    exact (wp_Done_inv _ _ _ _ (find_words_frame fuel hc root store) Hrun).
  - intros fuel hc root store Hupper Hroot Hfuel Hext Hsize.
    pose proof Hupper as [Hwf _]%hc_upper_cells.
    pose proof (find_words_safe fuel hc root store Hwf Hroot Hfuel Hext Hsize)
      as Hsafe.
    destruct (find_words fuel hc root store) as [[[hc' root'] store']|f].
    + destruct Hsafe as [-> _]. eauto.
    + destruct Hsafe as [_ Hbad]. congruence.
Qed.

(** The search of the example honeycomb returns, with the grid as it was. *)
Lemma search_restores_grid_example :
  ∃ root' store',
    find_words 10 example_hc example_trie create_store
      = Done (example_hc, root', store').
Proof.
  apply (proj2 (proj2 search_restores_grid)).
  - reflexivity.
  - reflexivity.
  - vm_compute. lia.
  - vm_compute. lia.
  - reflexivity.
Defined.

(** C4: for every [layers >= 1] and every input that supplies the symbols
    of all cells, none of them NUL, [create_honeycomb] followed by
    [fill_honeycomb] gives a well-formed honeycomb of [2 * layers - 1]
    columns, and column [i] holds a string of
    [2 * layers - 1 - |i - (layers - 1)|] chars; the centre column holds
    [2 * layers - 1]. *)
Theorem honeycomb_shape (layers : Z) (fp : list ascii) :
  1 ≤ layers →
  NUL ∉ symbols fp →
  cell_count layers ≤ Z.of_nat (length (symbols fp)) →
  ∃ hc fp',
    build_honeycomb layers fp = Done (hc, fp') ∧
    number_columns hc = 2 * layers - 1 ∧
    Z.of_nat (length (columns hc)) = 2 * layers - 1 ∧
    hc_wf hc = true ∧
    (∀ i, 0 ≤ i < 2 * layers - 1 →
       ∃ b, columns hc !! Z.to_nat i = Some (Some b) ∧
            strlen b = Done (2 * layers - 1 - Z.abs (i - (layers - 1)))) ∧
    ∃ center, columns hc !! Z.to_nat (layers - 1) = Some (Some center) ∧
              strlen center = Done (2 * layers - 1).
Proof.
  intros HL Hnul Hcount.
  destruct (build_honeycomb_columns layers fp HL Hnul Hcount)
    as (hc & fp' & Hbuild & Hnum & Hlen & Hcols).
  exists hc, fp'. split; [done|]. split; [done|]. split; [done|].
  split; [|split].
  - apply hc_wf_columns; [lia|]. rewrite Hnum. intros i Hi.
    destruct (Hcols i Hi) as (b & Hb & Hstr). eauto.
  - intros i Hi. destruct (Hcols i Hi) as (b & Hb & Hstr).
    exists b. split; [done|]. by apply is_string_strlen.
  - destruct (Hcols (layers - 1)) as (b & Hb & Hstr); [lia|].
    exists b. split; [done|]. apply is_string_strlen.
    by replace (2 * layers - 1 - Z.abs (layers - 1 - (layers - 1)))
      with (2 * layers - 1) in Hstr by lia.
Qed.

(** The honeycomb of two layers read from the example input. *)
Lemma honeycomb_shape_example :
  ∃ hc fp',
    build_honeycomb 2 example_input = Done (hc, fp') ∧
    number_columns hc = 2 * 2 - 1 ∧
    Z.of_nat (length (columns hc)) = 2 * 2 - 1 ∧
    hc_wf hc = true ∧
    (∀ i, 0 ≤ i < 2 * 2 - 1 →
       ∃ b, columns hc !! Z.to_nat i = Some (Some b) ∧
            strlen b = Done (2 * 2 - 1 - Z.abs (i - (2 - 1)))) ∧
    ∃ center, columns hc !! Z.to_nat (2 - 1) = Some (Some center) ∧
              strlen center = Done (2 * 2 - 1).
Proof.
  apply (honeycomb_shape 2 example_input).
  - lia.
  - apply (bool_decide_unpack _). by vm_compute.
  - vm_compute. discriminate.
Defined.

(** C5: on ring [i], [fill_honeycomb] reads one upper-centre symbol, then
    [2 + (i - 1) * 3] symbols of the right half ring, which it stores in the
    ring's right string in the reverse of the order read, then one
    lower-centre symbol, then [2 + (i - 1) * 3] symbols of the left half
    ring, which it stores in the order read; it reads nothing more. *)
Theorem fill_honeycomb_layer_order (layers i : Z) (center : buffer)
    (rightlayers leftlayers : list (option buffer)) (fp : list ascii)
    (u l : ascii) (rs ls rest : list ascii) :
  1 ≤ i < layers →
  Z.of_nat (length center) = 2 * layers →
  Z.of_nat (length rightlayers) = layers - 1 →
  Z.of_nat (length leftlayers) = layers - 1 →
  Z.of_nat (length rs) = 2 + (i - 1) * 3 →
  Z.of_nat (length ls) = 2 + (i - 1) * 3 →
  symbols fp = u :: rs ++ l :: ls ++ rest →
  ∃ fp',
    fill_honeycomb_layer layers i (center, rightlayers, leftlayers, fp) =
      Done (<[Z.to_nat (layers - 1 - i) := Some l]>
              (<[Z.to_nat (layers - 1 + i) := Some u]> center),
            <[Z.to_nat (i - 1) := Some (map Some (reverse rs) ++ [Some NUL])]>
              rightlayers,
            <[Z.to_nat (i - 1) := Some (map Some ls ++ [Some NUL])]>
              leftlayers,
            fp') ∧
    symbols fp' = rest.
Proof. apply fill_honeycomb_layer_symbols. Qed.

(** Ring 1 of a honeycomb of two layers, read from "B CD E FG X". *)
Lemma fill_honeycomb_layer_order_example :
  ∃ fp',
    fill_honeycomb_layer 2 1
      (malloc 4, [None], [None], String.list_ascii_of_string "B CD E FG X") =
      Done (<[Z.to_nat (2 - 1 - 1) := Some "E"%char]>
              (<[Z.to_nat (2 - 1 + 1) := Some "B"%char]> (malloc 4)),
            <[Z.to_nat (1 - 1) :=
                Some (map Some (reverse ["C"; "D"]%char) ++ [Some NUL])]> [None],
            <[Z.to_nat (1 - 1) :=
                Some (map Some ["F"; "G"]%char ++ [Some NUL])]> [None],
            fp') ∧
    symbols fp' = ["X"%char].
Proof.
  apply (fill_honeycomb_layer_order 2 1 (malloc 4) [None] [None]
           (String.list_ascii_of_string "B CD E FG X")
           "B" "E" ["C"; "D"]%char ["F"; "G"]%char ["X"%char]);
    (lia || reflexivity).
Defined.

(** C6: after the words of a dictionary, all of symbols in 'A'..'Z', have
    been inserted into an empty trie, the descent from the root along an
    inserted word ends in a node whose flag is set; the descent along a
    sequence of symbols in 'A'..'Z' that was not inserted meets a NULL
    child or ends in a node whose flag is not set. *)
Theorem trie_membership (keys : list (list ascii)) :
  forallb key_upper keys = true →
  ∃ t, insert_words get_trienode keys = Done t ∧
    (∀ w, w ∈ keys → ∃ n, walk t w = Done (Some n) ∧ is_end n = true) ∧
    (∀ w, key_upper w = true → w ∉ keys →
       walk t w = Done None ∨
       ∃ n, walk t w = Done (Some n) ∧ is_end n = false).
Proof.
  intros Hkeys.
  destruct (insert_words_upper keys get_trienode trie_wf_get_trienode Hkeys)
    as [t Ht].
  pose proof (terminal_insert_words _ _ _ Ht) as Hterm.
  exists t. split; [done|]. split.
  - intros w Hw. apply Hterm. by left.
  - intros w Hupper Hw.
    destruct (walk_upper w t) as [[n|] Hwalk];
      [eapply insert_words_wf; [apply trie_wf_get_trienode|done]|done| |by left].
    right. exists n. split; [done|].
    destruct (is_end n) eqn:Hend; [|done]. exfalso.
    assert (terminal t w) as [?|Hempty]%Hterm by (by exists n); [done|].
    by apply terminal_get_trienode in Hempty.
Qed.

(** The trie of the example dictionary. *)
Lemma trie_membership_example :
  ∃ t, insert_words get_trienode example_keys = Done t ∧
    (∀ w, w ∈ example_keys → ∃ n, walk t w = Done (Some n) ∧ is_end n = true) ∧
    (∀ w, key_upper w = true → w ∉ example_keys →
       walk t w = Done None ∨
       ∃ n, walk t w = Done (Some n) ∧ is_end n = false).
Proof. apply (trie_membership example_keys). reflexivity. Defined.





(** C9 fails on the code: [fill_trie] removes the last char of what
    [fgets] read, whether or not it is a newline, although its comment says
    that [fgets] only might add one.  A last line that does not end in a
    newline loses its last symbol ([fill_trie_last_line]): for the
    dictionary "CAT", newline, "DOG" the words inserted are "CAT" and "DO",
    and "DOG" is not in the trie. *)
Theorem fill_trie_chops_unterminated_line :
  fill_trie 3 get_trienode dict_CAT_DOG =
    insert_words get_trienode
      [String.list_ascii_of_string "CAT"; String.list_ascii_of_string "DO"] ∧
  ∃ t, fill_trie 3 get_trienode dict_CAT_DOG = Done t ∧
       walk t (String.list_ascii_of_string "DOG") = Done None ∧
       terminal t (String.list_ascii_of_string "DO").
Proof.
  split; [reflexivity|]. eexists. split; [reflexivity|]. split; [reflexivity|].
  eexists. split; reflexivity.
Qed.

(** C10: the index that [CHAR_TO_INDEX] gives is within the 26 slots of a
    node exactly for the chars 'A'..'Z'; nothing checks it.  Insertion of a
    key into a well-formed trie succeeds when all its symbols are in
    'A'..'Z' and reads outside the child array otherwise; the search of a
    well-formed grid succeeds when all its cells are in 'A'..'Z' and reads
    outside the child array otherwise. *)
Theorem child_index_precondition :
  (∀ c, 0 ≤ CHAR_TO_INDEX c < ALPHABET_SIZE ↔ is_upper c = true) ∧
  (∀ t key, trie_wf t = true →
     (key_upper key = true → ∃ t', insert_trie t key = Done t') ∧
     (key_upper key = false → insert_trie t key = Fault ChildIndex)) ∧
  (∀ fuel hc root store,
     hc_wf hc = true → trie_wf root = true →
     (trie_height root < fuel)%nat → (hc_extent hc < fuel)%nat →
     Z.of_nat (trie_height root) + 1 < WORD_SIZE →
     (hc_upper hc = true →
        ∃ root' store',
          find_words fuel hc root store = Done (hc, root', store')) ∧
     (hc_upper hc = false →
        find_words fuel hc root store = Fault ChildIndex)).
Proof.
  split; [apply CHAR_TO_INDEX_upper|]. split.
  - intros t key Hwf. split.
    + by apply insert_trie_upper.
    + by apply insert_trie_not_upper.
  - intros fuel hc root store Hwf Hroot Hfuel Hext Hsize.
    pose proof (find_words_safe fuel hc root store Hwf Hroot Hfuel Hext Hsize)
      as Hsafe.
    destruct (find_words fuel hc root store) as [[[hc' root'] store']|f].
    + destruct Hsafe as (-> & _ & _ & Hupper). split; [eauto|congruence].
    + destruct Hsafe as [-> Hupper]. split; [congruence|done].
Qed.

(** The index of 'Q'; the keys "AB" and "Ab"; the search of the example
    honeycomb and of the honeycomb with the cell 'd'. *)
Lemma child_index_precondition_example :
  (0 ≤ CHAR_TO_INDEX "Q" < ALPHABET_SIZE) ∧
  (∃ t', insert_trie get_trienode ["A"; "B"]%char = Done t') ∧
  insert_trie get_trienode ["A"; "b"]%char = Fault ChildIndex ∧
  (∃ root' store',
     find_words 10 example_hc example_trie create_store
       = Done (example_hc, root', store')) ∧
  find_words 10 example_hc_lower example_trie create_store = Fault ChildIndex.
Proof.
  destruct child_index_precondition as (Hindex & Hinsert & Hsearch).
  split; [by apply Hindex|].
  split; [by apply (Hinsert get_trienode ["A"; "B"]%char)|].
  split; [by apply (Hinsert get_trienode ["A"; "b"]%char)|].
  split.
  - apply (Hsearch 10%nat example_hc example_trie create_store);
      (reflexivity || (vm_compute; lia)).
  - apply (Hsearch 10%nat example_hc_lower example_trie create_store);
      (reflexivity || (vm_compute; lia)).
Defined.

(** * Further results *)

(** X1: the search is complete.  Every word of the trie that a walk over
    cells of the grid spells (no cell twice, each cell a neighbour of the
    one before) is among the words that a run of [find_words] appends to
    the store. *)
Theorem find_words_complete (fuel : nat) (hc hc' : honeycomb)
    (root root' : trie_node) (store store' : word_store) :
  find_words fuel hc root store = Done (hc', root', store') →
  ∃ new, store' = store ++ new ∧
    ∀ w p, p ≠ [] → traces hc w p → terminal root w → w ∈ new.
Proof.
  intros Hrun.
  pose proof (wp_Done_inv _ _ _ _ (find_words_kept fuel hc root store) Hrun)
    as (new & -> & Hkept).
  pose proof (wp_Done_inv _ _ _ _ (find_words_clears fuel hc root store) Hrun)
    as Hclears.
  exists new. split; [done|]. intros w p Hp Htraces Hw.
  destruct (Hkept w Hw) as [Hw'|?]; [|done].
  by apply Hclears in Htraces.
Qed.

(** The search of the example honeycomb for the example dictionary. *)
Lemma find_words_complete_example :
  ∃ hc' root' store',
    find_words 10 example_hc example_trie create_store
      = Done (hc', root', store') ∧
    ∃ new, store' = create_store ++ new ∧
      ∀ w p, p ≠ [] → traces example_hc w p → terminal example_trie w →
             w ∈ new.
Proof.
  destruct (find_words 10 example_hc example_trie create_store)
    as [[[hc' root'] store']|f] eqn:Hrun; [|by vm_compute in Hrun].
  exists hc', root', store'. split; [reflexivity|].
  exact (find_words_complete _ _ _ _ _ _ _ Hrun).
Defined.

(** X2: what a run finds.  Started with an empty store on a well-formed
    grid, [find_words] leaves in the store exactly the non-empty words of
    the trie that a walk over cells of the grid spells, each of them
    once. *)
Theorem find_words_exact (fuel : nat) (hc hc' : honeycomb)
    (root root' : trie_node) (store' : word_store) :
  hc_wf hc = true →
  find_words fuel hc root create_store = Done (hc', root', store') →
  NoDup store' ∧
  ∀ w, w ∈ store' ↔ w ≠ [] ∧ terminal root w ∧ ∃ p, traces hc w p.
Proof. apply find_words_traced. Qed.

(** The search of the example honeycomb for the example dictionary. *)
Lemma find_words_exact_example :
  ∃ hc' root' store',
    find_words 10 example_hc example_trie create_store
      = Done (hc', root', store') ∧
    NoDup store' ∧
    ∀ w, w ∈ store' ↔
         w ≠ [] ∧ terminal example_trie w ∧ ∃ p, traces example_hc w p.
Proof.
  destruct (find_words 10 example_hc example_trie create_store)
    as [[[hc' root'] store']|f] eqn:Hrun; [|by vm_compute in Hrun].
  exists hc', root', store'. split; [reflexivity|].
  exact (find_words_exact 10 example_hc hc' example_trie root' store'
           eq_refl Hrun).
Defined.

(** X3: what a run does to the trie.  The trie that [find_words] leaves
    has the nodes of the trie it was given, no node added or removed, and
    its words are the words of that trie other than the words appended to
    the store: the search clears the flags of the words it records and
    changes nothing else. *)
Theorem find_words_consumes_words (fuel : nat) (hc hc' : honeycomb)
    (root root' : trie_node) (store store' : word_store) :
  find_words fuel hc root store = Done (hc', root', store') →
  trie_shape root' = trie_shape root ∧
  ∃ new, store' = store ++ new ∧
    ∀ k, terminal root' k ↔ terminal root k ∧ k ∉ new.
Proof.
  intros Hrun.
  pose proof (wp_Done_inv _ _ _ _ (find_words_shape fuel hc root store) Hrun)
    as Hshape.
  pose proof (wp_Done_inv _ _ _ _ (find_words_found fuel hc root store) Hrun)
    as (new & -> & _ & Hfound & Hmono).
  pose proof (wp_Done_inv _ _ _ _ (find_words_kept fuel hc root store) Hrun)
    as (new' & Hnew' & Hkept).
  apply app_inv_head in Hnew' as <-.
  split; [done|]. exists new. split; [done|]. intros k. split.
  - intros Hk. split; [by apply Hmono|].
    intros (s & E & _ & Hs)%Hfound. simpl in E. by subst s.
  - intros [Hk Hnot]. by destruct (Hkept k Hk).
Qed.

(** The search of the example honeycomb for the example dictionary. *)
Lemma find_words_consumes_words_example :
  ∃ hc' root' store',
    find_words 10 example_hc example_trie create_store
      = Done (hc', root', store') ∧
    trie_shape root' = trie_shape example_trie ∧
    ∃ new, store' = create_store ++ new ∧
      ∀ k, terminal root' k ↔ terminal example_trie k ∧ k ∉ new.
Proof.
  destruct (find_words 10 example_hc example_trie create_store)
    as [[[hc' root'] store']|f] eqn:Hrun; [|by vm_compute in Hrun].
  exists hc', root', store'. split; [reflexivity|].
  exact (find_words_consumes_words _ _ _ _ _ _ _ Hrun).
Defined.

(** X4: a second run finds nothing.  After a run of [find_words] on a
    well-formed grid, another run with the grid and the trie that the first
    one left appends no word to its store. *)
Theorem find_words_again (fuel fuel2 : nat) (hc hc' hc'' : honeycomb)
    (root root' root'' : trie_node) (store store' store2 store2' : word_store) :
  hc_wf hc = true →
  find_words fuel hc root store = Done (hc', root', store') →
  find_words fuel2 hc' root' store2 = Done (hc'', root'', store2') →
  store2' = store2.
Proof.
  intros Hwf Hrun Hrun2.
  pose proof (wp_Done_inv _ _ _ _ (find_words_frame fuel hc root store) Hrun)
    as ->.
  pose proof (wp_Done_inv _ _ _ _ (find_words_clears fuel hc root store) Hrun)
    as Hclears.
  pose proof (wp_Done_inv _ _ _ _ (find_words_found fuel2 hc root' store2) Hrun2)
    as (new & -> & _ & Hfound & _).
  pose proof (find_words_path_erase fuel2 hc root' store2 []) as Hsim.
  pose proof (find_words_path_traces fuel2 hc root' [] Hwf (Forall_nil_2 _))
    as Htraces.
  simpl in Hsim. rewrite app_nil_r, Hrun2 in Hsim.
  destruct (find_words_path fuel2 hc root' []) as [[[hc2 root2] pstore]|];
    [|done].
  destruct Hsim as (_ & _ & E). apply app_inv_head in E as ->.
  cbn [wp] in Htraces.
  destruct pstore as [|[w p] pstore]; [by rewrite app_nil_r|]. exfalso.
  apply Forall_cons in Htraces as [[Hne Hp] _]. simpl in *.
  destruct (Hfound w) as (s & E & Hs & _); [by left|]. simpl in E. subst s.
  apply (Hclears w p); [|done|done].
  intros ->. destruct Hp as (_ & _ & Hcells).
  apply Forall2_nil_inv_r in Hcells. done.
Qed.

(** Two searches of the example honeycomb, one after the other. *)
Lemma find_words_again_example :
  ∃ hc' root' store' hc'' root'' store'',
    find_words 10 example_hc example_trie create_store
      = Done (hc', root', store') ∧
    find_words 10 hc' root' create_store = Done (hc'', root'', store'') ∧
    store'' = create_store.
Proof.
  eexists _, _, _, _, _, _.
  split; [vm_compute; reflexivity|]. split; [vm_compute; reflexivity|].
  eapply (find_words_again 10 10 example_hc _ _ example_trie _ _
            create_store _ create_store);
    [reflexivity|vm_compute; reflexivity|vm_compute; reflexivity].
Defined.

(** X5: the guard of [find_words_trie] does not apply while the word buffer
    is empty.  A call with an empty word buffer on a column index that is
    negative or not below the number of columns reads [hc->columns] outside
    its bounds. *)
Theorem find_words_trie_empty_word_outside (fuel : nat) (hc : honeycomb)
    (node : trie_node) (store : word_store) (column label : Z) :
  hc_wf hc = true →
  column < 0 ∨ number_columns hc ≤ column →
  find_words_trie (S fuel) hc node store [] column label = Fault GridAccess.
Proof. apply find_words_trie_outside. Qed.

(** A call on column 3 of the example honeycomb, which has columns 0 to
    2. *)
Lemma find_words_trie_empty_word_outside_example :
  find_words_trie 1 example_hc example_trie create_store [] 3 0
  = Fault GridAccess.
Proof.
  apply find_words_trie_empty_word_outside; [reflexivity|right; simpl; lia].
Defined.

(** X6: the trie of a dictionary depends only on the set of its words.
    Two lists with the same elements, in any order and with any
    repetitions, give the same trie when they are inserted into the same
    trie, and the insertion of one fails if that of the other does. *)
Theorem insert_words_set (t : trie_node) (keys keys' : list (list ascii)) :
  (∀ key, key ∈ keys ↔ key ∈ keys') →
  insert_words t keys = insert_words t keys'.
Proof.
  intros H. rewrite <- (insert_words_remove_dups t keys),
    <- (insert_words_remove_dups t keys').
  apply insert_words_Permutation, NoDup_Permutation;
    [apply NoDup_remove_dups..|].
  intros key. by rewrite !elem_of_remove_dups.
Qed.

(** A dictionary with a repeated word, and the same words in another
    order. *)
Lemma insert_words_set_example :
  insert_words get_trienode
    (map String.list_ascii_of_string ["CAT"; "DOG"; "CAT"; "CAR"]%string) =
  insert_words get_trienode
    (map String.list_ascii_of_string ["CAR"; "CAT"; "DOG"]%string).
Proof.
  apply insert_words_set. intros key. simpl.
  rewrite !elem_of_cons, !elem_of_nil. tauto.
Defined.

(** X7: the word buffer of the search is large enough for every
    dictionary.  [fill_trie] inserts words of at most [WORD_SIZE - 2]
    chars, so that the trie it builds from an empty one is at most that
    deep, and no run of [find_words] with this trie, on any grid, writes
    beyond the [WORD_SIZE] bytes of the word buffer. *)
Theorem dictionary_fits_word_buffer (fuel : nat) (fp : list ascii)
    (root : trie_node) :
  fill_trie fuel get_trienode fp = Done root →
  Z.of_nat (trie_height root) + 1 < WORD_SIZE ∧
  ∀ fuel' hc store, find_words fuel' hc root store ≠ Fault WordOverflow.
Proof.
  intros Hfill. apply fill_trie_height in Hfill.
  change (trie_height get_trienode) with 0%nat in Hfill.
  assert (Z.of_nat (trie_height root) + 1 < WORD_SIZE) as Hsize
    by (unfold WORD_SIZE in *; lia).
  split; [done|]. intros fuel' hc store Hrun.
  by apply (wp_Fault_inv _ _ _ _ (find_words_fits fuel' hc root store Hsize) Hrun).
Qed.

(** The dictionary "CAT", newline, "DOG". *)
Lemma dictionary_fits_word_buffer_example :
  ∃ root,
    fill_trie 3 get_trienode dict_CAT_DOG = Done root ∧
    Z.of_nat (trie_height root) + 1 < WORD_SIZE ∧
    ∀ fuel' hc store, find_words fuel' hc root store ≠ Fault WordOverflow.
Proof.
  eexists. split; [vm_compute; reflexivity|].
  apply (dictionary_fits_word_buffer 3 dict_CAT_DOG). vm_compute. reflexivity.
Defined.

(** X8: [fill_trie] reads every file of upper-case letters and newlines.
    On a file whose chars are all in 'A'..'Z' or newlines, whatever the
    lengths of its lines and whether or not its last line ends in a
    newline, [fill_trie] returns, and the trie it returns is well
    formed. *)
Theorem fill_trie_upper_total (fuel : nat) (root : trie_node)
    (fp : list ascii) :
  trie_wf root = true →
  Forall (λ c, is_upper c = true ∨ c = newline) fp →
  (length fp < fuel)%nat →
  ∃ t, fill_trie fuel root fp = Done t ∧ trie_wf t = true.
Proof.
  revert root fp. induction fuel as [|fuel IH]; intros root fp Hwf Hfp Hfuel;
    [lia|].
  cbn [fill_trie]. unfold fgets. destruct fp as [|c fp]; [eauto|].
  destruct (fgets_chars _ (c :: fp)) as [line fp'] eqn:Hline.
  pose proof (fgets_chars_app _ _ _ _ Hline) as Happ.
  pose proof (fgets_chars_newline _ _ _ _ Hline) as Hnl.
  change (Z.to_nat (WORD_SIZE - 1)) with (S 1022) in Hline.
  pose proof (fgets_chars_nonempty _ _ _ _ _ Hline) as Hne.
  rewrite Happ in Hfp. apply Forall_app in Hfp as [Hl Hfp'].
  rewrite c_string_id.
  2:{ intros Hin. rewrite Forall_forall in Hl.
      by apply (is_upper_not_NUL NUL (Hl _ Hin)). }
  destruct line as [|d line]; [done|]. rewrite chop_cons. cbn [bind].
  destruct (insert_trie_upper (removelast (d :: line)) root Hwf)
    as [root' Hins].
  { apply forallb_forall. intros x Hx%list_elem_of_In.
    rewrite Forall_forall in Hl.
    destruct (Hl x (elem_of_removelast _ _ Hx)) as [?| ->]; done. }
  rewrite Hins. cbn [bind]. apply IH; [by eapply insert_trie_wf|done|].
  apply (f_equal length) in Happ. rewrite length_app in Happ.
  simpl in Happ, Hfuel. lia.
Qed.

(** The dictionary "CAT", newline, "DOG". *)
Lemma fill_trie_upper_total_example :
  ∃ t, fill_trie 8 get_trienode dict_CAT_DOG = Done t ∧ trie_wf t = true.
Proof.
  apply fill_trie_upper_total.
  - reflexivity.
  - unfold dict_CAT_DOG. simpl.
    repeat (apply Forall_cons_2; [(by left) || (by right)|]). apply Forall_nil_2.
  - simpl. lia.
Defined.

(** X9: a line longer than the buffer is cut.  When the file starts with
    [WORD_SIZE - 1] chars none of which is a newline, [fgets] fills the
    buffer with them; [fill_trie] inserts the first [WORD_SIZE - 2] of
    them as a word, drops the last, and goes on reading what follows as the
    next line. *)
Theorem fill_trie_long_line (fuel : nat) (root : trie_node)
    (l rest : list ascii) :
  newline ∉ l → NUL ∉ l → Z.of_nat (length l) = WORD_SIZE - 1 →
  fill_trie (S fuel) root (l ++ rest) =
  let* root' := insert_trie root (removelast l) in fill_trie fuel root' rest.
Proof.
  intros Hnl Hnul Hlen. cbn [fill_trie]. unfold fgets.
  destruct l as [|c l']; [done|]. set (l := c :: l') in *.
  change ((c :: l') ++ rest) with (l ++ rest).
  destruct (l ++ rest) eqn:E; [done|]. rewrite <- E.
  rewrite fgets_chars_full by (done || lia).
  rewrite c_string_id by done. unfold l at 1. by rewrite chop_cons.
Qed.

(** A line of 1023 times 'A', followed by the line "BC". *)
Lemma fill_trie_long_line_example :
  fill_trie 2 get_trienode
    (replicate 1023 "A"%char ++ String.list_ascii_of_string "BC" ++ [newline]) =
  let* root' := insert_trie get_trienode (removelast (replicate 1023 "A"%char)) in
  fill_trie 1 root' (String.list_ascii_of_string "BC" ++ [newline]).
Proof.
  apply fill_trie_long_line.
  - by intros [? _]%elem_of_replicate.
  - by intros [? _]%elem_of_replicate.
  - by rewrite length_replicate.
Defined.

(** X10: the white space of the honeycomb file does not matter.  Two
    inputs with the same symbols, whatever blanks and line breaks separate
    them, make [create_honeycomb] and [fill_honeycomb] end alike: with the
    same honeycomb and the same symbols left, or with the same fault. *)
Theorem build_honeycomb_layout (layers : Z) (fp1 fp2 : list ascii) :
  symbols fp1 = symbols fp2 →
  sim (λ '(hc1, r1) '(hc2, r2), hc1 = hc2 ∧ symbols r1 = symbols r2)
    (build_honeycomb layers fp1) (build_honeycomb layers fp2).
Proof.
  intros Hfp. unfold build_honeycomb. apply sim_refl_bind. intros hc _.
  unfold fill_honeycomb.
  eapply sim_bind; [by apply fscanf_char_layout|].
  intros [c1 r1] [c2 r2] [<- Hr].
  apply sim_refl_bind. intros center _.
  eapply (sim_bind (λ '(hc1, c1, r1) '(hc2, c2, r2),
                      hc1 = hc2 ∧ c1 = c2 ∧ symbols r1 = symbols r2)).
  - destruct (1 <? layers); [|done].
    eapply sim_bind.
    { apply (sim_for_each same_symbols); [done|].
      intros i [[[c3 rl3] ll3] r3] [[[c4 rl4] ll4] r4] [[= <- <- <-] Hr3].
      by apply fill_honeycomb_layer_layout. }
    intros [[[c3 rl3] ll3] r3] [[[c4 rl4] ll4] r4] [[= <- <- <-] Hr3].
    apply sim_refl_bind. intros hc1 _. apply sim_refl_bind. intros hc2 _. done.
  - intros [[hc1 c3] r3] [[hc2 c4] r4] (<- & <- & Hr3).
    apply sim_refl_bind. intros hc3 _. done.
Qed.

(** The example input, and its symbols without blanks. *)
Lemma build_honeycomb_layout_example :
  sim (λ '(hc1, r1) '(hc2, r2), hc1 = hc2 ∧ symbols r1 = symbols r2)
    (build_honeycomb 2 example_input)
    (build_honeycomb 2 (String.list_ascii_of_string "ABCDEFG")).
Proof. apply build_honeycomb_layout. reflexivity. Defined.

(** X11: the cells hold symbols of the input.  Whenever
    [create_honeycomb] and [fill_honeycomb] return a honeycomb, the char
    of each of its cells is one of the symbols of the input: no cell is
    left with a char that was not read. *)
Theorem build_honeycomb_cells (layers : Z) (fp fp' : list ascii)
    (hc : honeycomb) :
  build_honeycomb layers fp = Done (hc, fp') →
  ∀ column label c, cell_at hc column label = Some c → c ∈ symbols fp.
Proof. apply build_honeycomb_symbols. Qed.

(** The honeycomb of two layers built from the example input. *)
Lemma build_honeycomb_cells_example :
  ∃ hc fp',
    build_honeycomb 2 example_input = Done (hc, fp') ∧
    ∀ column label c,
      cell_at hc column label = Some c → c ∈ symbols example_input.
Proof.
  eexists _, _. split; [vm_compute; reflexivity|].
  eapply (build_honeycomb_cells 2 example_input). vm_compute. reflexivity.
Defined.

(** X12: [comparator] orders the strings as [qsort] requires.  Exchanging
    its arguments changes the sign of its value, the relation "at most 0"
    is transitive, and its value is 0 for equal strings only. *)
Theorem comparator_order :
  (∀ a b, comparator b a = - comparator a b) ∧
  (∀ a b c, comparator a b ≤ 0 → comparator b c ≤ 0 → comparator a c ≤ 0) ∧
  (∀ a b, NUL ∉ a → NUL ∉ b → (comparator a b = 0 ↔ a = b)).
Proof.
  split; [|split].
  - intros a b. apply strcmp_swap.
  - intros a b c. apply strcmp_trans.
  - intros a b Ha Hb. split; [by apply strcmp_eq|].
    intros ->. apply strcmp_refl.
Qed.

(** The words "AB", "ABC" and "FEA". *)
Lemma comparator_order_example :
  comparator (String.list_ascii_of_string "ABC") (String.list_ascii_of_string "AB")
    = - comparator (String.list_ascii_of_string "AB")
                   (String.list_ascii_of_string "ABC") ∧
  comparator (String.list_ascii_of_string "AB") (String.list_ascii_of_string "FEA")
    ≤ 0 ∧
  (comparator (String.list_ascii_of_string "AB") (String.list_ascii_of_string "AB")
     = 0 ↔ String.list_ascii_of_string "AB" = String.list_ascii_of_string "AB").
Proof.
  split; [|split].
  - apply (proj1 comparator_order).
  - apply (proj1 (proj2 comparator_order) _ (String.list_ascii_of_string "ABC"));
      by vm_compute.
  - apply (proj2 (proj2 comparator_order));
      by intros [?|[?|?%elem_of_nil]%elem_of_cons]%elem_of_cons.
Defined.

(** X13: the store is printed in ascending order without repetition.  For
    a store of strings, the part of [main] that prints it writes
    "No words found." when the store is empty, and otherwise one line for
    each word of the store, the lines being in strictly ascending order of
    [strcmp]; when no word occurs twice in the store, as after
    [find_words], the lines are a rearrangement of the store. *)
Theorem print_store_sorted (store : word_store) :
  Forall (λ w, NUL ∉ w) store →
  ∃ lines,
    print_store store =
      (if decide (store = [])
       then String.list_ascii_of_string "No words found." ++ [newline]
       else lines_text lines) ∧
    StronglySorted (λ a b, strcmp a b < 0) lines ∧
    (∀ w, w ∈ lines ↔ w ∈ store) ∧
    (NoDup store → lines ≡ₚ store).
Proof.
  intros Hnul.
  destruct (print_store_lines store Hnul) as (lines & Hprint & Hsorted & Hin).
  exists lines. split; [|split; [done|split; [done|]]].
  - rewrite Hprint. destruct lines as [|w lines], store as [|w' store];
      [done| | |done].
    + assert (w' ∈ []) as ?%elem_of_nil by (apply Hin; by left). done.
    + assert (w ∈ []) as ?%elem_of_nil by (apply Hin; by left). done.
  - intros Hnodup. apply NoDup_Permutation; [|done|done].
    by apply strcmp_sorted_NoDup.
Qed.

(** A store in which "AB" occurs twice. *)
Lemma print_store_sorted_example :
  ∃ lines,
    print_store (map String.list_ascii_of_string ["FEA"; "AB"; "GAD"; "AB"]%string) =
      (if decide (map String.list_ascii_of_string
                    ["FEA"; "AB"; "GAD"; "AB"]%string = [])
       then String.list_ascii_of_string "No words found." ++ [newline]
       else lines_text lines) ∧
    StronglySorted (λ a b, strcmp a b < 0) lines ∧
    (∀ w, w ∈ lines ↔
          w ∈ map String.list_ascii_of_string ["FEA"; "AB"; "GAD"; "AB"]%string) ∧
    (NoDup (map String.list_ascii_of_string ["FEA"; "AB"; "GAD"; "AB"]%string) →
     lines ≡ₚ map String.list_ascii_of_string ["FEA"; "AB"; "GAD"; "AB"]%string).
Proof.
  apply print_store_sorted. simpl.
  repeat (apply Forall_cons_2;
          [rewrite !elem_of_cons, elem_of_nil; intros H;
           repeat (destruct H as [H|H]; [done|]); done|]).
  apply Forall_nil_2.
Defined.

(** X14: from the two files to the output.  When the honeycomb file holds
    a number of layers of at least 1 followed by enough symbols, all in
    'A'..'Z', and the dictionary file holds lines of chars in 'A'..'Z' that
    each end in a newline and fit the line buffer, [main] builds the
    honeycomb, returns 0, and prints, in strictly ascending order of
    [strcmp] and each once, the non-empty words of the dictionary that a
    walk over cells of the honeycomb spells; it prints "No words found."
    when there is none. *)
Theorem main_prints_traced_words (fuel : nat) (honeycomb_txt : list ascii)
    (layers : Z) (cells : list ascii) (keys : list (list ascii))
    (layers0 : Z) :
  fscanf_int honeycomb_txt = (Some layers, cells) →
  1 ≤ layers →
  forallb is_upper (symbols cells) = true →
  cell_count layers ≤ Z.of_nat (length (symbols cells)) →
  forallb key_upper keys = true →
  Forall (λ key, (length key < fuel)%nat ∧
                 Z.of_nat (length key) < WORD_SIZE - 1) keys →
  (length keys < fuel)%nat →
  2 * layers - 1 < Z.of_nat fuel →
  ∃ hc rest lines,
    build_honeycomb layers cells = Done (hc, rest) ∧
    main fuel 3 (Some honeycomb_txt) (Some (lines_text keys)) layers0 =
      (if decide (lines = [])
       then String.list_ascii_of_string "No words found." ++ [newline]
       else lines_text lines,
       Done 0) ∧
    StronglySorted (λ a b, strcmp a b < 0) lines ∧
    ∀ w, w ∈ lines ↔ w ≠ [] ∧ w ∈ keys ∧ ∃ p, traces hc w p.
Proof.
  intros Hscan HL Hupper Hcount Hkeys Hlen Hfuel Hext.
  assert (NUL ∉ symbols cells) as Hnul.
  { intros Hin. rewrite forallb_forall in Hupper.
    by apply list_elem_of_In, Hupper in Hin. }
  (* the honeycomb *)
  destruct (build_honeycomb_columns layers cells HL Hnul Hcount)
    as (hc & rest & Hbuild & Hnum & Hcols & Hstr).
  assert (hc_wf hc = true) as Hwf.
  { apply hc_wf_columns; [lia|]. intros i Hi.
    destruct (Hstr i) as (b & Hb & Hs); [lia|]. eauto. }
  assert (hc_upper hc = true) as Hhc.
  { apply hc_upper_cells. split; [done|]. intros i j c Hc.
    pose proof (build_honeycomb_symbols _ _ _ _ Hbuild i j c Hc) as Hin.
    rewrite forallb_forall in Hupper. by apply Hupper, list_elem_of_In. }
  assert (hc_extent hc < fuel)%nat as Hextent.
  { enough (Z.of_nat (hc_extent hc) ≤ 2 * layers - 1) by lia.
    apply hc_extent_bound; [done|done|]. intros i Hi.
    destruct (Hstr i Hi) as (b & Hb & Hs). eexists _, _.
    split; [done|]. split; [done|]. lia. }
  (* the trie *)
  assert (fill_trie fuel get_trienode (lines_text keys)
          = insert_words get_trienode keys) as Hfill.
  { apply fill_trie_lines; [|done].
    rewrite forallb_forall in Hkeys. rewrite Forall_forall in Hlen |- *.
    intros key Hkey. pose proof (Hkeys key (proj1 (list_elem_of_In _ _) Hkey)).
    split; [by apply key_upper_not_in|]. split; [by apply key_upper_not_in|].
    by apply Hlen. }
  destruct (insert_words_upper keys get_trienode trie_wf_get_trienode Hkeys)
    as [root Hroot].
  pose proof (insert_words_wf _ _ _ trie_wf_get_trienode Hroot) as Hrwf.
  set (n := max_list (map length keys)).
  assert (trie_height root ≤ n)%nat as Hheight.
  { eapply insert_words_height; [done|simpl; lia|].
    apply Forall_forall. intros key Hkey.
    apply max_list_elem_of_le, list_elem_of_fmap. eauto. }
  assert (n < fuel ∧ n < 1023)%nat as [Hn1 Hn2].
  { split; apply max_list_lt; try lia; apply Forall_fmap;
      (eapply Forall_impl; [done|]); unfold WORD_SIZE; simpl; lia. }
  (* the search *)
  pose proof (find_words_safe fuel hc root [] Hwf Hrwf) as Hsafe.
  destruct (find_words fuel hc root []) as [[[hc' root'] store]|f] eqn:Hrun.
  2:{ destruct Hsafe as [_ ?]; [lia|lia|unfold WORD_SIZE; lia|congruence]. }
  destruct (find_words_traced _ _ _ _ _ _ Hwf Hrun) as [Hnodup Hstore].
  (* the output *)
  destruct (print_store_lines store) as (lines & Hprint & Hsorted & Hlines).
  { apply Forall_forall. intros w (_ & Hw & _)%Hstore.
    apply (terminal_insert_words _ _ _ Hroot) in Hw as [Hw|Hw].
    - rewrite forallb_forall in Hkeys.
      apply key_upper_not_in; [|done]. by apply Hkeys, list_elem_of_In.
    - by apply terminal_get_trienode in Hw. }
  exists hc, rest, lines. split; [done|]. split; [|split; [done|]].
  - unfold main. change (negb (3 =? 3)) with false. cbv iota.
    rewrite Hscan. cbv zeta iota beta.
    unfold build_honeycomb in Hbuild.
    destruct (create_honeycomb layers) as [hc0|]; [|done].
    cbn [bind] in Hbuild. rewrite Hbuild. cbn [bind].
    rewrite Hfill, Hroot. cbn [bind]. unfold create_store.
    rewrite Hrun. cbn [bind]. by rewrite Hprint.
  - intros w. rewrite Hlines, Hstore.
    rewrite (terminal_insert_words _ _ _ Hroot).
    split; [|tauto]. intros (? & [?|Hw] & ?); [done|].
    by apply terminal_get_trienode in Hw.
Qed.

(** The example honeycomb and the example dictionary as files. *)
Lemma main_prints_traced_words_example :
  ∃ hc rest lines,
    build_honeycomb 2 (String.list_ascii_of_string " A B CD E FG")
      = Done (hc, rest) ∧
    main 10 3 (Some (String.list_ascii_of_string "2 A B CD E FG"))
      (Some (lines_text example_keys)) 0 =
      (if decide (lines = [])
       then String.list_ascii_of_string "No words found." ++ [newline]
       else lines_text lines,
       Done 0) ∧
    StronglySorted (λ a b, strcmp a b < 0) lines ∧
    ∀ w, w ∈ lines ↔ w ≠ [] ∧ w ∈ example_keys ∧ ∃ p, traces hc w p.
Proof.
  apply main_prints_traced_words.
  - reflexivity.
  - lia.
  - reflexivity.
  - unfold cell_count. simpl. lia.
  - reflexivity.
  - unfold example_keys, WORD_SIZE. simpl.
    repeat (apply Forall_cons_2; [simpl; lia|]). apply Forall_nil_2.
  - simpl. lia.
  - lia.
Defined.

(** X15: where each symbol of the input goes.  For an input of at least
    [cell_count layers] symbols, none of them NUL, [create_honeycomb] and
    [fill_honeycomb] return a honeycomb, leave the symbols after the first
    [cell_count layers] unread, and put symbol number
    [cell_symbol layers column label] of the input into the cell
    (column, label): the first symbol into the middle of the centre column,
    then ring after ring, each ring from the cell above the centre down
    its right side, through the cell below the centre, and up its left
    side. *)
Theorem honeycomb_layout (layers : Z) (fp : list ascii) :
  1 ≤ layers →
  NUL ∉ symbols fp →
  cell_count layers ≤ Z.of_nat (length (symbols fp)) →
  ∃ hc fp',
    build_honeycomb layers fp = Done (hc, fp') ∧
    symbols fp' = drop (Z.to_nat (cell_count layers)) (symbols fp) ∧
    ∀ column label,
      0 ≤ column < 2 * layers - 1 →
      0 ≤ label < 2 * layers - 1 - Z.abs (column - (layers - 1)) →
      cell_at hc column label
      = symbols fp !! Z.to_nat (cell_symbol layers column label).
Proof. apply build_honeycomb_exact. Qed.

(** The honeycomb of two layers built from the example input. *)
Lemma honeycomb_layout_example :
  ∃ hc fp',
    build_honeycomb 2 example_input = Done (hc, fp') ∧
    symbols fp' = drop (Z.to_nat (cell_count 2)) (symbols example_input) ∧
    ∀ column label,
      0 ≤ column < 2 * 2 - 1 →
      0 ≤ label < 2 * 2 - 1 - Z.abs (column - (2 - 1)) →
      cell_at hc column label
      = symbols example_input !! Z.to_nat (cell_symbol 2 column label).
Proof.
  apply (honeycomb_layout 2 example_input).
  - lia.
  - apply (bool_decide_unpack _). vm_compute. reflexivity.
  - vm_compute. discriminate.
Defined.
